(** * samm2JSONata: the flattener, the matcher and the transform planner

    A shallow embedding of [src/parser.py], [src/matcher.py],
    [src/transformer.py], the warning pass of [src/generator.py] and the
    path evaluator of [src/apply_transformation.py].

    Conventions of the embedding:
    - a Python [str] is a [string] (a sequence of bytes); [str.lower] acts
      on the ASCII letters, which is what it does on the identifiers the
      program handles;
    - [Optional[str]] is [option string]; Python truthiness of such a value
      ([if x:], [x or y]) is [truthy]: present and not empty;
    - a [dict] whose key order is observable (the transformation document,
      a warning, the entity cache) is an association list updated in
      place; the two constant tables are [gmap]s; the [set] of matched
      target URIs is a [gset];
    - the logger is a list of records returned next to the result;
    - a confidence is a rational: the program only compares the three
      literals [0.9], [0.8], [0.7] and the threshold with each other;
    - recursion over Entities takes the depth still available as a [nat];
      [None] is the run that exhausts it;
    - a JSON value is a [Value]; [int] of the runtime is a variable of the
      evaluator's section. *)

From Stdlib Require Import Ascii QArith.
From Stdlib Require DecimalString.
From stdpp Require Import base strings gmap list.

(** ** Strings as Python uses them *)

Definition lower_ascii (c : ascii) : ascii :=
  let n := Ascii.nat_of_ascii c in
  if Nat.leb 65 n && Nat.leb n 90 then Ascii.ascii_of_nat (n + 32) else c.

(** [s.lower()] *)
Fixpoint lower (s : string) : string :=
  match s with
  | EmptyString => EmptyString
  | String c r => String (lower_ascii c) (lower r)
  end.

(** [sub in s] *)
Fixpoint contains (sub s : string) : bool :=
  String.prefix sub s
  || match s with
     | EmptyString => false
     | String _ r => contains sub r
     end.

(** [s.split(sep)] for a one-character separator: never the empty list. *)
Fixpoint split (sep : ascii) (s : string) : list string :=
  match s with
  | EmptyString => [EmptyString]
  | String c r =>
      if decide (c = sep) then EmptyString :: split sep r
      else match split sep r with
           | [] => [String c EmptyString]
           | h :: t => String c h :: t
           end
  end.

(** [sep.join(parts)] *)
Fixpoint join (sep : string) (parts : list string) : string :=
  match parts with
  | [] => ""
  | [x] => x
  | x :: rest => x +:+ sep +:+ join sep rest
  end.

(** [parts[-1]] of a list that [split] returned *)
Definition last_part (parts : list string) : string := default "" (last parts).

(** [parts[:-1]] *)
Definition init_parts (parts : list string) : list string := removelast parts.

(** Truthiness of an [Optional[str]]. *)
Definition truthy (o : option string) : bool :=
  match o with
  | Some s => negb (String.eqb s "")
  | None => false
  end.

(** [a or b] for an [Optional[str]] [a] and a [str] [b]. *)
Definition or_str (a : option string) (b : string) : string :=
  match a with
  | Some s => if String.eqb s "" then b else s
  | None => b
  end.

(** The text of an [Optional[str]] known to be truthy. *)
Definition text (o : option string) : string := default "" o.

(** The part after the last ["#"], else after the last ["/"], else all of
    it: the common body of [_get_local_name] and [_normalize_type]. *)
Definition fragment_name (s : string) : string :=
  if contains "#" s then last_part (split "#"%char s)
  else if contains "/" s then last_part (split "/"%char s)
  else s.

(** ** models.py *)

Record SAMMProperty := {
  uri : string;
  local_name : string;
  preferred_name : option string;
  description : option string;
  characteristic : option string;
  data_type : option string;
  optional : bool;
  payload_name : option string;
  example_value : option string;
  unit_ : option string;
  json_path : option string;
  parent_property : option string;
  is_collection : bool;
  is_array_element : bool
}.

Record SAMMEntity := {
  e_uri : string;
  e_local_name : string;
  e_preferred_name : option string;
  e_description : option string;
  e_properties : list SAMMProperty
}.

Record SAMMAspect := {
  a_uri : string;
  a_local_name : string;
  a_preferred_name : option string;
  a_description : option string;
  a_properties : list SAMMProperty;
  a_entities : list (string * SAMMEntity)
}.

Record PropertyMapping := {
  source_property : SAMMProperty;
  target_property : SAMMProperty;
  mapping_method : string;
  confidence : Q;
  transformation_type : string;
  jsonata_fragment : string
}.

(** ** The logger *)

Inductive LogRecord :=
  | Warning (msg : string)
  | Info (msg : string).

Definition is_warning (r : LogRecord) : bool :=
  match r with Warning _ => true | Info _ => false end.

(** ** Dictionaries with observable key order *)

Section Dict.
Context {V : Type}.

(** [d.get(k)] *)
Fixpoint dict_get (k : string) (d : list (string * V)) : option V :=
  match d with
  | [] => None
  | (k', v) :: r => if decide (k = k') then Some v else dict_get k r
  end.

(** [d[k] = v]: in place when the key is there, at the end when not. *)
Fixpoint dict_set (k : string) (v : V) (d : list (string * V)) : list (string * V) :=
  match d with
  | [] => [(k, v)]
  | (k', v') :: r =>
      if decide (k = k') then (k', v) :: r else (k', v') :: dict_set k v r
  end.
End Dict.

(** The transformation document: a fragment, or a dictionary. *)
#[local] Unset Elimination Schemes.
Inductive Json :=
  | JStr (s : string)
  | JDict (entries : list (string * Json)).
#[local] Set Elimination Schemes.

(** [isinstance(x, dict)] of [x = d.get(k)] *)
Definition is_dict (x : option Json) : bool :=
  match x with
  | Some (JDict _) => true
  | _ => false
  end.

(** ** transformer.py *)

Module Transformer.

(** [Transformer.TYPE_CAST_MAP] *)
Definition TYPE_CAST_MAP : gmap string string :=
  list_to_map [
    ("string", "$string");
    ("integer", "$number");
    ("int", "$number");
    ("float", "$number");
    ("double", "$number");
    ("decimal", "$number");
    ("boolean", "$boolean");
    ("nonNegativeInteger", "$number");
    ("positiveInteger", "$number")
  ].

Definition _normalize_type (data_type : string) : string :=
  lower (fragment_name data_type).

Definition numeric_types : list string :=
  ["integer"; "int"; "float"; "double"; "decimal";
   "nonnegativeinteger"; "positiveinteger"].

Definition _can_cast (source_type target_type : string) : bool :=
  if bool_decide (source_type ∈ numeric_types)
     && bool_decide (target_type ∈ numeric_types) then true
  else if String.eqb source_type "string" then true
  else if String.eqb target_type "string" then true
  else if String.eqb source_type "boolean" || String.eqb target_type "boolean" then true
  else false.

(** [Transformer._is_collection_characteristic]: a test on the text of the
    characteristic's URI. *)
Definition collection_types : list string :=
  ["List"; "Set"; "Collection"; "SortedSet"].

Definition _is_collection_characteristic (characteristic : string) : bool :=
  existsb (fun ct => contains ct characteristic) collection_types.

Definition cannot_cast_warning (source_type target_type : string)
    (source_prop target_prop : SAMMProperty) : LogRecord :=
  Warning ("Cannot cast " +:+ source_type +:+ " to " +:+ target_type +:+ " for "
           +:+ local_name source_prop +:+ " -> " +:+ local_name target_prop).

(** The first [if] of [_determine_transformation_type]: [Some] is its
    [return], the list is what it logged. *)
Definition data_type_step (source_prop target_prop : SAMMProperty)
    : option string * list LogRecord :=
  if truthy (data_type source_prop) && truthy (data_type target_prop) then
    let source_type := _normalize_type (text (data_type source_prop)) in
    let target_type := _normalize_type (text (data_type target_prop)) in
    if negb (String.eqb source_type target_type) then
      if _can_cast source_type target_type then (Some "type_cast", [])
      else (None, [cannot_cast_warning source_type target_type source_prop target_prop])
    else (None, [])
  else (None, []).

(** The second [if]: the characteristics differ and one side only is a
    collection by [_is_collection_characteristic]. *)
Definition characteristic_step (source_prop target_prop : SAMMProperty) : bool :=
  truthy (characteristic source_prop) && truthy (characteristic target_prop)
  && negb (String.eqb (text (characteristic source_prop))
                      (text (characteristic target_prop)))
  && negb (eqb (_is_collection_characteristic (text (characteristic source_prop)))
               (_is_collection_characteristic (text (characteristic target_prop)))).

Definition _determine_transformation_type (source_prop target_prop : SAMMProperty)
    : string * list LogRecord :=
  match data_type_step source_prop target_prop with
  | (Some kind, log) => (kind, log)
  | (None, log) =>
      if characteristic_step source_prop target_prop
      then ("structure_transform", log)
      else ("direct", log)
  end.

(** The loop over [enumerate(parts)]: the first part equal to the parent's
    name gets the index marker. *)
Fixpoint mark_first (parent_name : string) (parts : list string) : list string :=
  match parts with
  | [] => []
  | part :: rest =>
      if String.eqb part parent_name then (part +:+ "[0]") :: rest
      else part :: mark_first parent_name rest
  end.

(** The source path after the array-element step. *)
Definition source_path_of (source_prop target_prop : SAMMProperty) : string :=
  let source_path :=
    if truthy (json_path source_prop) then text (json_path source_prop)
    else or_str (payload_name source_prop) (local_name source_prop) in
  if is_array_element source_prop && truthy (parent_property source_prop) then
    if negb (is_array_element target_prop) then
      join "." (mark_first (text (parent_property source_prop))
                           (split "."%char source_path))
    else source_path
  else source_path.

Definition base_expr_of (source_prop target_prop : SAMMProperty) : string :=
  "$." +:+ source_path_of source_prop target_prop.

Definition _generate_jsonata_expression (source_prop target_prop : SAMMProperty)
    (transformation_type : string) : string * list LogRecord :=
  let base_expr := base_expr_of source_prop target_prop in
  if String.eqb transformation_type "direct" then (base_expr, [])
  else if String.eqb transformation_type "type_cast" then
    let target_type := _normalize_type (text (data_type target_prop)) in
    match TYPE_CAST_MAP !! target_type with
    | Some cast_function =>
        if String.eqb cast_function "" then
          (base_expr,
           [Warning ("No cast function for type " +:+ target_type
                     +:+ ", using direct mapping")])
        else (cast_function +:+ "(" +:+ base_expr +:+ ")", [])
    | None =>
        (base_expr,
         [Warning ("No cast function for type " +:+ target_type
                   +:+ ", using direct mapping")])
    end
  else if String.eqb transformation_type "structure_transform" then
    if is_array_element source_prop && negb (is_array_element target_prop) then
      (base_expr, [])
    else if negb (is_array_element source_prop) && is_array_element target_prop then
      ("[" +:+ base_expr +:+ "]",
       [Info ("Wrapping single value in array for " +:+ local_name source_prop
              +:+ " -> " +:+ local_name target_prop)])
    else
      (base_expr,
       [Info ("Structure transform needed for " +:+ local_name source_prop
              +:+ ", using direct mapping for now")])
  else (base_expr, []).

Definition create_mapping (source_prop target_prop : SAMMProperty)
    (method : string) (conf : Q) : PropertyMapping * list LogRecord :=
  let '(kind, log1) := _determine_transformation_type source_prop target_prop in
  let '(fragment, log2) := _generate_jsonata_expression source_prop target_prop kind in
  ({| source_property := source_prop;
      target_property := target_prop;
      mapping_method := method;
      confidence := conf;
      transformation_type := kind;
      jsonata_fragment := fragment |},
   log1 ++ log2).

Definition overwrite_warning (key : string) : LogRecord :=
  Warning ("Overwriting non-dict value at '" +:+ key +:+ "' to add nested property").

Definition skip_warning (path : string) : LogRecord :=
  Warning ("Skipping value assignment for '" +:+ path
           +:+ "' as it already has nested children").

(** The body of [_set_nested_path] after [keys = path.split(".")].  [obj] is
    the dictionary [current] points at, [inner] what is left of [keys[:-1]],
    [final] is [keys[-1]].  The source walks down with [current = current[key]]
    and writes through that reference; here each level is rebuilt around its
    updated child, which [dict_set] puts back at the place the key had. *)
Fixpoint set_nested_keys (obj : list (string * Json)) (inner : list string)
    (final path : string) (value : Json) : list (string * Json) * list LogRecord :=
  match inner with
  | [] =>
      if negb (is_dict (dict_get final obj)) then (dict_set final value obj, [])
      else (obj, [skip_warning path])
  | key :: rest =>
      match dict_get key obj with
      | None =>
          let '(child, log) := set_nested_keys [] rest final path value in
          (dict_set key (JDict child) obj, log)
      | Some (JDict entries) =>
          let '(child, log) := set_nested_keys entries rest final path value in
          (dict_set key (JDict child) obj, log)
      | Some (JStr _) =>
          let '(child, log) := set_nested_keys [] rest final path value in
          (dict_set key (JDict child) obj, overwrite_warning key :: log)
      end
  end.

Definition _set_nested_path (obj : list (string * Json)) (path : string) (value : Json)
    : list (string * Json) * list LogRecord :=
  let keys := split "."%char path in
  set_nested_keys obj (init_parts keys) (last_part keys) path value.

Definition target_path_of (mapping : PropertyMapping) : string :=
  let target_prop := target_property mapping in
  if truthy (json_path target_prop) then text (json_path target_prop)
  else or_str (payload_name target_prop) (local_name target_prop).

(** One iteration of [for mapping in mappings]; the state is the document
    and the log so far. *)
Definition assemble_step (state : list (string * Json) * list LogRecord)
    (mapping : PropertyMapping) : list (string * Json) * list LogRecord :=
  let '(transformation, log) :=
    _set_nested_path state.1 (target_path_of mapping)
                     (JStr (jsonata_fragment mapping)) in
  (transformation, state.2 ++ log).

Definition build_complete_transformation (mappings : list PropertyMapping)
    : list (string * Json) * list LogRecord :=
  foldl assemble_step ([], []) mappings.

(** Reading the document back along a list of keys. *)
Fixpoint get_path (doc : Json) (keys : list string) : option Json :=
  match keys with
  | [] => Some doc
  | key :: rest =>
      match doc with
      | JDict entries =>
          match dict_get key entries with
          | Some child => get_path child rest
          | None => None
          end
      | JStr _ => None
      end
  end.
End Transformer.
Import Transformer.

(** ** matcher.py *)

Module Matcher.

(** [PropertyMatcher.MATCHING_LEVELS] *)
Definition MATCHING_LEVELS : gmap string Q :=
  list_to_map [
    ("characteristic_match", 9 # 10);
    ("preferred_name_match", 8 # 10);
    ("property_uri_match", 7 # 10)
  ].

(** [MATCHING_LEVELS[method]], read at the three keys of the table only. *)
Definition level (method : string) : Q := default 0%Q (MATCHING_LEVELS !! method).

(** [a > b] on confidences *)
Definition Qgt_bool (a b : Q) : bool := negb (Qle_bool a b).

(** [re.sub(r"\([^)]*\)", "", name)]: [inside] is set between an opening
    parenthesis that has a closing one after it and that closing one. *)
Fixpoint strip_parentheses (inside : bool) (name : string) : string :=
  match name with
  | EmptyString => EmptyString
  | String c r =>
      if inside then
        if Ascii.eqb c ")" then strip_parentheses false r
        else strip_parentheses true r
      else if Ascii.eqb c "(" && contains ")" r then strip_parentheses true r
      else String c (strip_parentheses false r)
  end.

Definition is_lower_alnum (c : ascii) : bool :=
  let n := Ascii.nat_of_ascii c in
  (Nat.leb 97 n && Nat.leb n 122) || (Nat.leb 48 n && Nat.leb n 57).

(** [re.sub(r"[^a-z0-9]", "", name)] *)
Fixpoint keep_lower_alnum (name : string) : string :=
  match name with
  | EmptyString => EmptyString
  | String c r =>
      if is_lower_alnum c then String c (keep_lower_alnum r)
      else keep_lower_alnum r
  end.

Definition _normalize_name (name : string) : string :=
  keep_lower_alnum (strip_parentheses false (lower name)).

Definition _characteristic_match (source_prop target_prop : SAMMProperty) : bool :=
  if negb (truthy (characteristic source_prop))
     || negb (truthy (characteristic target_prop)) then false
  else String.eqb (text (characteristic source_prop))
                  (text (characteristic target_prop)).

Definition _preferred_name_match (source_prop target_prop : SAMMProperty) : bool :=
  if negb (truthy (preferred_name source_prop))
     || negb (truthy (preferred_name target_prop)) then false
  else String.eqb (_normalize_name (text (preferred_name source_prop)))
                  (_normalize_name (text (preferred_name target_prop))).

Definition _property_uri_match (source_prop target_prop : SAMMProperty) : bool :=
  String.eqb (lower (local_name source_prop)) (lower (local_name target_prop)).

Definition _find_best_match (source_prop target_prop : SAMMProperty)
    : option (string * Q) :=
  if _characteristic_match source_prop target_prop then
    Some ("characteristic_match", level "characteristic_match")
  else if _preferred_name_match source_prop target_prop then
    Some ("preferred_name_match", level "preferred_name_match")
  else if _property_uri_match source_prop target_prop then
    Some ("property_uri_match", level "property_uri_match")
  else None.

(** What [match_properties] returns per pair:
    [(source_prop, target_prop, method, confidence)]. *)
Definition Match : Type := SAMMProperty * SAMMProperty * string * Q.

Definition match_source (m : Match) : SAMMProperty := m.1.1.1.
Definition match_target (m : Match) : SAMMProperty := m.1.1.2.
Definition match_method (m : Match) : string := m.1.2.
Definition match_confidence (m : Match) : Q := m.2.

(** The three variables of the inner loop: [best_match] with its
    [best_method] (both set by the same assignment, [None] before it) and
    [best_confidence]. *)
Definition Best : Type := option (SAMMProperty * string) * Q.

(** One iteration of [for target_prop in target_properties]. *)
Definition scan_target (matched_targets : gset string) (source_prop : SAMMProperty)
    (best : Best) (target_prop : SAMMProperty) : Best :=
  if bool_decide (uri target_prop ∈ matched_targets) then best
  else
    match _find_best_match source_prop target_prop with
    | Some (method, conf) =>
        if Qgt_bool conf best.2 then (Some (target_prop, method), conf) else best
    | None => best
    end.

Definition best_for (matched_targets : gset string) (source_prop : SAMMProperty)
    (target_properties : list SAMMProperty) : Best :=
  foldl (scan_target matched_targets source_prop) (None, 0%Q) target_properties.

(** One iteration of [for source_prop in source_properties]; the state is
    [(matches, matched_targets)].  The [logger.info] lines of the matcher
    are left out: nothing reads them. *)
Definition match_step (confidence_threshold : Q) (target_properties : list SAMMProperty)
    (state : list Match * gset string) (source_prop : SAMMProperty)
    : list Match * gset string :=
  let '(matches, matched_targets) := state in
  match best_for matched_targets source_prop target_properties with
  | (Some (best_match, best_method), best_confidence) =>
      if Qle_bool confidence_threshold best_confidence then
        (matches ++ [(source_prop, best_match, best_method, best_confidence)],
         {[ uri best_match ]} ∪ matched_targets)
      else state
  | (None, _) => state
  end.

Definition match_loop (confidence_threshold : Q)
    (source_properties target_properties : list SAMMProperty)
    (state : list Match * gset string) : list Match * gset string :=
  foldl (match_step confidence_threshold target_properties) state source_properties.

Definition match_properties (confidence_threshold : Q)
    (source_properties target_properties : list SAMMProperty) : list Match :=
  (match_loop confidence_threshold source_properties target_properties ([], ∅)).1.
End Matcher.
Import Matcher.

(** ** generator.py *)

Module Generator.

Definition Unmapped : Type := list string * list string.

Definition _find_unmapped_properties
    (source_properties target_properties : list SAMMProperty)
    (mappings : list PropertyMapping) : Unmapped :=
  let mapped_source : gset string :=
    list_to_set (map (fun m => uri (source_property m)) mappings) in
  let mapped_target : gset string :=
    list_to_set (map (fun m => uri (target_property m)) mappings) in
  (map local_name
       (filter (fun p => uri p ∉ mapped_source) source_properties),
   map local_name
       (filter (fun p => uri p ∉ mapped_target) target_properties)).

(** [str(n)] *)
Definition str_of_nat (n : nat) : string :=
  DecimalString.NilEmpty.string_of_uint (Nat.to_uint n).

(** [", ".join(names[:5]) + ("..." if len(names) > 5 else "")] *)
Definition first_five (names : list string) : string :=
  join ", " (take 5 names) +:+ (if Nat.ltb 5 (length names) then "..." else "").

Section Generator.
(** [f"{x:.2f}"], the float formatter of the Python runtime. *)
Variable format_2f : Q -> string.

Definition low_confidence_warning (mapping : PropertyMapping) : list (string * string) :=
  [ ("type", "low_confidence");
    ("property", local_name (source_property mapping) +:+ " -> "
                 +:+ local_name (target_property mapping));
    ("confidence", format_2f (confidence mapping));
    ("message", "Mapping confidence below 0.7 (" +:+ format_2f (confidence mapping) +:+ ")");
    ("suggestion", "Manual review recommended") ].

Definition unmapped_source_warning (names : list string) : list (string * string) :=
  [ ("type", "unmapped_source");
    ("count", str_of_nat (length names));
    ("message", str_of_nat (length names) +:+ " source properties could not be mapped");
    ("properties", first_five names) ].

Definition unmapped_target_warning (names : list string) : list (string * string) :=
  [ ("type", "unmapped_target");
    ("count", str_of_nat (length names));
    ("message", str_of_nat (length names) +:+ " target properties were not mapped to");
    ("properties", first_five names) ].

Definition _generate_warnings (mappings : list PropertyMapping) (unmapped : Unmapped)
    : list (list (string * string)) :=
  flat_map (fun mapping =>
              if Qgt_bool (7 # 10) (confidence mapping)
              then [low_confidence_warning mapping] else [])
           mappings
  ++ (match unmapped.1 with [] => [] | _ => [unmapped_source_warning unmapped.1] end)
  ++ (match unmapped.2 with [] => [] | _ => [unmapped_target_warning unmapped.2] end).

(** The part of [generate] between the two parses and the result record:
    match, plan each match, assemble, list what is unmapped, warn. *)
Definition mappings_of (matches : list Match) : list PropertyMapping :=
  map (fun m => (create_mapping (match_source m) (match_target m)
                                (match_method m) (match_confidence m)).1)
      matches.

Definition generated_warnings (confidence_threshold : Q)
    (source_properties target_properties : list SAMMProperty)
    : list (list (string * string)) :=
  let matches := match_properties confidence_threshold source_properties target_properties in
  let mappings := mappings_of matches in
  let unmapped := _find_unmapped_properties source_properties target_properties mappings in
  _generate_warnings mappings unmapped.
End Generator.
End Generator.
Import Generator.

(** ** parser.py *)

Module Parser.

(** A node of the graph, as rdflib hands it out; [str] is [str(node)]. *)
Inductive Node :=
  | URIRef (s : string)
  | BNode (s : string)
  | Literal (s : string) (language : option string).

Definition str (n : Node) : string :=
  match n with
  | URIRef s | BNode s | Literal s _ => s
  end.

#[global] Instance Node_eq_dec : EqDecision Node.
Proof. solve_decision. Defined.

(** The graph as the parser reads it: [graph.value(s, p)],
    [graph.objects(s, p)] and [graph.items(head)] of an RDF list.  The
    parser never writes to it. *)
Record Graph := {
  graph_value : Node -> Node -> option Node;
  graph_objects : Node -> Node -> list Node;
  graph_items : Node -> list Node
}.

(** [if node:] on what [graph.value] returned: a node was found and its
    text is not empty. *)
Definition node_truthy (o : option Node) : bool :=
  match o with
  | Some n => negb (String.eqb (str n) "")
  | None => false
  end.

Definition SAMM (name : string) : Node :=
  URIRef ("urn:samm:org.eclipse.esmf.samm:meta-model:2.1.0#" +:+ name).
Definition SAMM_C (name : string) : Node :=
  URIRef ("urn:samm:org.eclipse.esmf.samm:characteristic:2.1.0#" +:+ name).
Definition RDF_type : Node :=
  URIRef "http://www.w3.org/1999/02/22-rdf-syntax-ns#type".

(** The loop shared by [_get_preferred_name] and [_get_description]. *)
Fixpoint first_english (objs : list Node) : option string :=
  match objs with
  | [] => None
  | Literal s language :: rest =>
      match language with
      | None => Some s
      | Some l => if String.eqb l "en" then Some s else first_english rest
      end
  | _ :: rest => first_english rest
  end.

Definition _get_preferred_name (g : Graph) (subject : Node) : option string :=
  first_english (graph_objects g subject (SAMM "preferredName")).

Definition _get_description (g : Graph) (subject : Node) : option string :=
  first_english (graph_objects g subject (SAMM "description")).

Definition _get_local_name (node : Node) : string := fragment_name (str node).

(** [property_info]: the two keys [_get_properties] may set. *)
Record PropertyInfo := {
  info_optional : option bool;
  info_payloadName : option string
}.

Definition no_info : PropertyInfo :=
  {| info_optional := None; info_payloadName := None |}.

Definition property_entry (g : Graph) (item : Node) : list (Node * PropertyInfo) :=
  match item with
  | URIRef _ => [(item, no_info)]
  | _ =>
      match graph_value g item (SAMM "property") with
      | Some prop_uri =>
          if node_truthy (Some prop_uri) then
            let optional := graph_value g item (SAMM "optional") in
            let payload_name := graph_value g item (SAMM "payloadName") in
            [(prop_uri,
              {| info_optional :=
                   if node_truthy optional
                   then (fun n => String.eqb (lower (str n)) "true") <$> optional
                   else None;
                 info_payloadName :=
                   if node_truthy payload_name then str <$> payload_name else None |})]
          else []
      | None => []
      end
  end.

Definition _get_properties (g : Graph) (subject_uri : Node) : list (Node * PropertyInfo) :=
  let props_list := graph_value g subject_uri (SAMM "properties") in
  match props_list with
  | Some head =>
      if node_truthy props_list then flat_map (property_entry g) (graph_items g head)
      else []
  | None => []
  end.

Definition collection_types : list Node :=
  [SAMM_C "Collection"; SAMM_C "Set"; SAMM_C "List"; SAMM_C "SortedSet";
   SAMM_C "TimeSeries"].

(** [SAMMParser._is_collection_characteristic]: a test on the declared
    [rdf:type] of the characteristic. *)
Definition _is_collection_characteristic (g : Graph) (characteristic_uri : Node) : bool :=
  let char_type := graph_value g characteristic_uri RDF_type in
  match char_type with
  | Some t => node_truthy char_type && bool_decide (t ∈ collection_types)
  | None => false
  end.

Definition _get_entity_from_characteristic (g : Graph) (characteristic_uri : Node)
    : option Node :=
  let entity := graph_value g characteristic_uri (SAMM "dataType") in
  match entity with
  | Some e =>
      if node_truthy entity
         && negb (String.prefix "http://www.w3.org/2001/XMLSchema" (str e))
         && bool_decide (graph_value g e RDF_type = Some (SAMM "Entity"))
      then Some e else None
  | None => None
  end.

Definition _parse_property (g : Graph) (property_uri : Node) (property_info : PropertyInfo)
    : SAMMProperty :=
  let characteristic := graph_value g property_uri (SAMM "characteristic") in
  let has_characteristic := node_truthy characteristic in
  let data_type :=
    let data_type := graph_value g property_uri (SAMM "dataType") in
    if negb (node_truthy data_type) && has_characteristic
    then characteristic ≫= (fun c => graph_value g c (SAMM "dataType"))
    else data_type in
  let example := graph_value g property_uri (SAMM "exampleValue") in
  {| uri := str property_uri;
     local_name := _get_local_name property_uri;
     preferred_name := _get_preferred_name g property_uri;
     description := _get_description g property_uri;
     characteristic := if has_characteristic then str <$> characteristic else None;
     data_type := if node_truthy data_type then str <$> data_type else None;
     optional := default false (info_optional property_info);
     payload_name := info_payloadName property_info;
     example_value := if node_truthy example then str <$> example else None;
     unit_ := None;
     json_path := None;
     parent_property := None;
     is_collection :=
       match characteristic with
       | Some c => has_characteristic && _is_collection_characteristic g c
       | None => false
       end;
     is_array_element := false |}.

Definition parse_properties (g : Graph) (subject_uri : Node) : list SAMMProperty :=
  map (fun '(prop_uri, prop_info) => _parse_property g prop_uri prop_info)
      (_get_properties g subject_uri).

Definition _parse_entity (g : Graph) (entity_uri : Node) : SAMMEntity :=
  {| e_uri := str entity_uri;
     e_local_name := _get_local_name entity_uri;
     e_preferred_name := _get_preferred_name g entity_uri;
     e_description := _get_description g entity_uri;
     e_properties := parse_properties g entity_uri |}.

(** [if prop.characteristic:] followed by
    [_get_entity_from_characteristic(URIRef(prop.characteristic))]. *)
Definition entity_of_property (g : Graph) (prop : SAMMProperty) : option Node :=
  if truthy (characteristic prop)
  then _get_entity_from_characteristic g (URIRef (text (characteristic prop)))
  else None.

(** The copy [_extract_nested_properties] makes of an entity's property. *)
Definition nested_copy (entity_prop : SAMMProperty) (parent_path parent_name : string)
    (parent_is_collection : bool) : SAMMProperty :=
  {| uri := uri entity_prop;
     local_name := local_name entity_prop;
     preferred_name := preferred_name entity_prop;
     description := description entity_prop;
     characteristic := characteristic entity_prop;
     data_type := data_type entity_prop;
     optional := optional entity_prop;
     payload_name := payload_name entity_prop;
     example_value := example_value entity_prop;
     unit_ := unit_ entity_prop;
     json_path :=
       Some (parent_path +:+ "." +:+
             or_str (payload_name entity_prop) (local_name entity_prop));
     parent_property := Some parent_name;
     is_collection := is_collection entity_prop;
     is_array_element := parent_is_collection |}.

(** [for x in xs: out.extend(f(x))], where [f] may not return. *)
Fixpoint flat_mapM {A B : Type} (f : A -> option (list B)) (xs : list A)
    : option (list B) :=
  match xs with
  | [] => Some []
  | x :: rest =>
      ys ← f x;
      zs ← flat_mapM f rest;
      Some (ys ++ zs)
  end.

(** [fuel] is the number of nested calls the run may still make. *)
Fixpoint _extract_nested_properties (fuel : nat) (g : Graph) (entity : SAMMEntity)
    (parent_path parent_name : string) (parent_is_collection : bool)
    : option (list SAMMProperty) :=
  match fuel with
  | O => None
  | S fuel' =>
      flat_mapM
        (fun entity_prop =>
           let nested_prop :=
             nested_copy entity_prop parent_path parent_name parent_is_collection in
           match entity_of_property g nested_prop with
           | Some nested_entity_uri =>
               deeper ← _extract_nested_properties fuel' g
                          (_parse_entity g nested_entity_uri)
                          (text (json_path nested_prop))
                          (local_name nested_prop)
                          (is_collection nested_prop);
               Some (nested_prop :: deeper)
           | None => Some [nested_prop]
           end)
        (e_properties entity)
  end.

(** [if not prop.json_path: prop.json_path = prop.payload_name or prop.local_name] *)
Definition set_top_level_path (prop : SAMMProperty) : SAMMProperty :=
  if truthy (json_path prop) then prop
  else
    {| uri := uri prop;
       local_name := local_name prop;
       preferred_name := preferred_name prop;
       description := description prop;
       characteristic := characteristic prop;
       data_type := data_type prop;
       optional := optional prop;
       payload_name := payload_name prop;
       example_value := example_value prop;
       unit_ := unit_ prop;
       json_path := Some (or_str (payload_name prop) (local_name prop));
       parent_property := parent_property prop;
       is_collection := is_collection prop;
       is_array_element := is_array_element prop |}.

(** The second loop of [_parse_aspect] over the top-level properties; the
    state is [(aspect.entities, all_properties)].  The cache is looked up at
    the key it is filled at, [str(entity_uri)]. *)
Fixpoint nested_loop (fuel : nat) (g : Graph) (props : list SAMMProperty)
    (entities : list (string * SAMMEntity)) (all_properties : list SAMMProperty)
    : option (list (string * SAMMEntity) * list SAMMProperty) :=
  match props with
  | [] => Some (entities, all_properties)
  | prop :: rest =>
      match entity_of_property g prop with
      | Some entity_uri =>
          let '(entity, entities') :=
            match dict_get (str entity_uri) entities with
            | None =>
                let entity := _parse_entity g entity_uri in
                (entity, dict_set (str entity_uri) entity entities)
            | Some entity => (entity, entities)
            end in
          nested_props ← _extract_nested_properties fuel g entity
                            (or_str (payload_name prop) (local_name prop))
                            (local_name prop) (is_collection prop);
          nested_loop fuel g rest entities' (all_properties ++ nested_props)
      | None => nested_loop fuel g rest entities all_properties
      end
  end.

Definition _parse_aspect (fuel : nat) (g : Graph) (aspect_uri : Node) : option SAMMAspect :=
  let properties := map set_top_level_path (parse_properties g aspect_uri) in
  '(entities, all_properties) ← nested_loop fuel g properties [] properties;
  Some {| a_uri := str aspect_uri;
          a_local_name := _get_local_name aspect_uri;
          a_preferred_name := _get_preferred_name g aspect_uri;
          a_description := _get_description g aspect_uri;
          a_properties := all_properties;
          a_entities := entities |}.

End Parser.
Import Parser.

(** ** apply_transformation.py *)

Module Applier.

(** A JSON value as [json.load] hands it out: [None], a truth value, a
    number, a string, a list, a dictionary.  A number is kept as its text,
    the functions below never look into one; a dictionary has one entry for
    a key. *)
#[local] Unset Elimination Schemes.
Inductive Value :=
  | VNull
  | VBool (b : bool)
  | VNum (literal : string)
  | VStr (s : string)
  | VList (items : list Value)
  | VDict (entries : list (string * Value)).
#[local] Set Elimination Schemes.

(** [s[:s.index(c)]] *)
Fixpoint before (c : ascii) (s : string) : string :=
  match s with
  | EmptyString => EmptyString
  | String x r => if decide (x = c) then EmptyString else String x (before c r)
  end.

(** [s[s.index(c) + 1:]] *)
Fixpoint after (c : ascii) (s : string) : string :=
  match s with
  | EmptyString => EmptyString
  | String x r => if decide (x = c) then r else after c r
  end.

(** [part[part.index("[") + 1:part.index("]")]] of a part that holds both
    brackets: the slice is empty when the first closing bracket stands
    before the first opening one. *)
Definition index_text (part : string) : string :=
  if contains "]" (before "[" part) then ""
  else before "]" (after "[" part).

(** [path[2:]] *)
Definition drop_two (path : string) : string :=
  match path with
  | String _ (String _ r) => r
  | _ => ""
  end.

Definition is_null (v : Value) : bool :=
  match v with
  | VNull => true
  | _ => false
  end.

(** The loop [for sub_part in remaining_parts] on one item of a list;
    Python's [None] is [VNull]. *)
Fixpoint descend (item_current : Value) (remaining_parts : list string) : Value :=
  match remaining_parts with
  | [] => item_current
  | sub_part :: rest =>
      match item_current with
      | VDict entries =>
          match dict_get sub_part entries with
          | Some v => descend v rest
          | None => VNull
          end
      | _ => VNull
      end
  end.

(** The branch [elif isinstance(current, list)]: the remaining parts are
    followed in each item, what is [None] is left out, and
    [result if result else None] is returned. *)
Definition map_over (items : list Value) (remaining_parts : list string) : Value :=
  let result :=
    List.filter (fun v => negb (is_null v))
                (map (fun item => descend item remaining_parts) items) in
  match result with
  | [] => VNull
  | _ => VList result
  end.

Section Applier.
(** [int(text)] of the Python runtime; [None] stands for its
    [ValueError]. *)
Variable int_of : string -> option Z.

(** The loop [for i, part in enumerate(parts)] of [evaluate_path], from
    [current] on. *)
Fixpoint navigate (current : Value) (parts : list string) : Value :=
  match parts with
  | [] => current
  | part :: rest =>
      if contains "[" part && contains "]" part then
        let prop_name := before "[" part in
        match int_of (index_text part) with
        | Some index =>
            match current with
            | VDict entries =>
                match dict_get prop_name entries with
                | Some (VList items) =>
                    if (0 <=? index)%Z && (index <? Z.of_nat (length items))%Z then
                      match items !! Z.to_nat index with
                      | Some element => navigate element rest
                      | None => VNull
                      end
                    else VNull
                | _ => VNull
                end
            | _ => VNull
            end
        | None => VNull
        end
      else
        match current with
        | VDict entries =>
            match dict_get part entries with
            | Some v => navigate v rest
            | None => VNull
            end
        | VList items => map_over items (part :: rest)
        | _ => VNull
        end
  end.

Definition evaluate_path (data : Value) (path : string) : Value :=
  if negb (String.prefix "$." path) then VStr path
  else navigate data (split "."%char (drop_two path)).

Fixpoint process_value (source_data : Value) (value : Value) : Value :=
  match value with
  | VStr s => evaluate_path source_data s
  | VDict entries =>
      VDict ((fix each (entries : list (string * Value)) : list (string * Value) :=
                match entries with
                | [] => []
                | (k, v) :: r => (k, process_value source_data v) :: each r
                end) entries)
  | VList items =>
      VList ((fix each (items : list Value) : list Value :=
                match items with
                | [] => []
                | item :: r => process_value source_data item :: each r
                end) items)
  | _ => value
  end.

Definition apply_transformation_manually (source_data transformation_map : Value)
    : Value :=
  process_value source_data transformation_map.
End Applier.
End Applier.
Import Applier.

(** ** Inputs used by the examples *)

Module Examples.

(** A Property record with the fields the planner and the matcher read. *)
Definition property (u name : string) (pref char dt path parent : option string)
    (coll elem : bool) : SAMMProperty :=
  {| uri := u; local_name := name; preferred_name := pref; description := None;
     characteristic := char; data_type := dt; optional := false;
     payload_name := None; example_value := None; unit_ := None;
     json_path := path; parent_property := parent;
     is_collection := coll; is_array_element := elem |}.

Definition xsd (name : string) : string :=
  "http://www.w3.org/2001/XMLSchema#" +:+ name.

Definition ex (name : string) : string :=
  "urn:samm:io.example:1.0.0#" +:+ name.

(** A graph given by its triples and by its RDF lists. *)
Fixpoint objects_of (triples : list (Node * Node * Node)) (s p : Node) : list Node :=
  match triples with
  | [] => []
  | (s', p', o) :: rest =>
      if decide (s = s' ∧ p = p') then o :: objects_of rest s p
      else objects_of rest s p
  end.

Fixpoint items_of (lists : list (Node * list Node)) (h : Node) : list Node :=
  match lists with
  | [] => []
  | (h', l) :: rest => if decide (h = h') then l else items_of rest h
  end.

Definition graph_of (triples : list (Node * Node * Node))
    (lists : list (Node * list Node)) : Graph :=
  {| graph_value s p := head (objects_of triples s p);
     graph_objects := objects_of triples;
     graph_items := items_of lists |}.

(** [quantity], a string on the source side and a non-negative or a
    positive integer on the target side. *)
Definition quantity_source : SAMMProperty :=
  property (ex "quantity") "quantity" None None (Some (xsd "string"))
           (Some "quantity") None false false.
Definition quantity_nonneg : SAMMProperty :=
  property (ex "quantity") "quantity" None None (Some (xsd "nonNegativeInteger"))
           (Some "quantity") None false false.
Definition quantity_positive : SAMMProperty :=
  property (ex "quantity") "quantity" None None (Some (xsd "positiveInteger"))
           (Some "quantity") None false false.

(** Two scalar characteristics, one of them with [List] in its name, and a
    [TimeSeries] characteristic without any of the four words in its name. *)
Definition typing_graph : Graph :=
  graph_of
    [ (URIRef (ex "PriceListing"), RDF_type, SAMM_C "Measurement");
      (URIRef (ex "Price"), RDF_type, SAMM_C "Measurement");
      (URIRef (ex "Readings"), RDF_type, SAMM_C "TimeSeries") ]
    [].

Definition listing_price : SAMMProperty :=
  property (ex "listingPrice") "listingPrice" None (Some (ex "PriceListing"))
           (Some (xsd "decimal")) (Some "listingPrice") None false false.
Definition price : SAMMProperty :=
  property (ex "price") "price" None (Some (ex "Price"))
           (Some (xsd "decimal")) (Some "price") None false false.
Definition readings : SAMMProperty :=
  property (ex "readings") "readings" None (Some (ex "Readings"))
           (Some (xsd "decimal")) (Some "readings") None true false.

(** A date against a URI: not castable; the characteristics differ and one
    has [List] in its name.  The two Properties have one local name, so the
    matcher pairs them. *)
Definition valid_dates : SAMMProperty :=
  property (ex "validDates") "validDates" None (Some (ex "DateList"))
           (Some (xsd "date")) (Some "validDates") None true false.
Definition valid_dates_link : SAMMProperty :=
  property "urn:samm:io.partner:1.0.0#validDates" "validDates" None
           (Some "urn:samm:io.partner:1.0.0#Link")
           (Some (xsd "anyURI")) (Some "validDates") None false false.
(** The same pair with no characteristic on the target. *)
Definition valid_dates_link_plain : SAMMProperty :=
  property "urn:samm:io.partner:1.0.0#validDates" "validDates" None None
           (Some (xsd "anyURI")) (Some "validDates") None false false.

(** Two mappings, for the target paths [a] and [a.b]. *)
Definition mapping (source_prop target_prop : SAMMProperty) (fragment : string)
    : PropertyMapping :=
  {| source_property := source_prop; target_property := target_prop;
     mapping_method := "property_uri_match"; confidence := 7 # 10;
     transformation_type := "direct"; jsonata_fragment := fragment |}.

Definition mapping_a : PropertyMapping :=
  mapping (property (ex "x") "x" None None None (Some "x") None false false)
          (property (ex "a") "a" None None None (Some "a") None false false)
          "$.x".
Definition mapping_a_b : PropertyMapping :=
  mapping (property (ex "y") "y" None None None (Some "y") None false false)
          (property (ex "b") "b" None None None (Some "a.b") (Some "a") false false)
          "$.y".

(** A document with a nested dictionary and a fragment next to it. *)
Definition document : list (string * Json) :=
  [ ("id", JStr "$.id");
    ("pcf", JDict [("unit", JStr "$.u"); ("value", JStr "$.old")]) ].

(** The Property [street] of an address Entity, flattened once under
    [billing] and once under [shipping]: two records, one URI. *)
Definition billing_street : SAMMProperty :=
  property (ex "street") "street" None None (Some (xsd "string"))
           (Some "billing.street") (Some "billing") false false.
Definition shipping_street : SAMMProperty :=
  property (ex "street") "street" None None (Some (xsd "string"))
           (Some "shipping.street") (Some "shipping") false false.
(** Two target Properties named [street], with URIs of their own. *)
Definition invoice_street : SAMMProperty :=
  property "urn:samm:io.invoice:1.0.0#street" "street" None None
           (Some (xsd "string")) (Some "street") None false false.
Definition delivery_street : SAMMProperty :=
  property "urn:samm:io.delivery:1.0.0#street" "Street" None None
           (Some (xsd "string")) (Some "Street") None false false.
Definition city : SAMMProperty :=
  property (ex "city") "city" None None (Some (xsd "string"))
           (Some "city") None false false.

(** An Entity whose Property [next] refers to the Entity itself: a cycle
    of length one, below the Aspect [Loop]. *)
Definition cyclic_graph : Graph :=
  graph_of
    [ (URIRef (ex "Loop"), RDF_type, SAMM "Aspect");
      (URIRef (ex "Loop"), SAMM "properties", BNode "l0");
      (URIRef (ex "node"), SAMM "characteristic", URIRef (ex "NodeCharacteristic"));
      (URIRef (ex "NodeCharacteristic"), RDF_type, SAMM_C "SingleEntity");
      (URIRef (ex "NodeCharacteristic"), SAMM "dataType", URIRef (ex "Node"));
      (URIRef (ex "Node"), RDF_type, SAMM "Entity");
      (URIRef (ex "Node"), SAMM "properties", BNode "l1");
      (URIRef (ex "next"), SAMM "characteristic", URIRef (ex "NodeCharacteristic")) ]
    [ (BNode "l0", [URIRef (ex "node")]);
      (BNode "l1", [URIRef (ex "next")]) ].

(** [items] is a list of [Item]; an [Item] has one [detail], a single
    [Detail]; a [Detail] has a [note], a string. *)
Definition order_graph : Graph :=
  graph_of
    [ (URIRef (ex "Order"), RDF_type, SAMM "Aspect");
      (URIRef (ex "Order"), SAMM "properties", BNode "l0");
      (URIRef (ex "items"), SAMM "characteristic", URIRef (ex "ItemList"));
      (URIRef (ex "ItemList"), RDF_type, SAMM_C "List");
      (URIRef (ex "ItemList"), SAMM "dataType", URIRef (ex "Item"));
      (URIRef (ex "Item"), RDF_type, SAMM "Entity");
      (URIRef (ex "Item"), SAMM "properties", BNode "l1");
      (URIRef (ex "detail"), SAMM "characteristic", URIRef (ex "DetailCharacteristic"));
      (URIRef (ex "DetailCharacteristic"), RDF_type, SAMM_C "SingleEntity");
      (URIRef (ex "DetailCharacteristic"), SAMM "dataType", URIRef (ex "Detail"));
      (URIRef (ex "Detail"), RDF_type, SAMM "Entity");
      (URIRef (ex "Detail"), SAMM "properties", BNode "l2");
      (URIRef (ex "note"), SAMM "characteristic", SAMM_C "Text");
      (SAMM_C "Text", RDF_type, SAMM "Characteristic");
      (SAMM_C "Text", SAMM "dataType", URIRef (xsd "string")) ]
    [ (BNode "l0", [URIRef (ex "items")]);
      (BNode "l1", [URIRef (ex "detail")]);
      (BNode "l2", [URIRef (ex "note")]) ].

Definition order_rank (n : Node) : nat :=
  if decide (n = URIRef (ex "Order")) then 2
  else if decide (n = URIRef (ex "Item")) then 1
  else 0.

(** Two Properties of one Aspect with the same local name, from two
    namespaces. *)
Definition catalog_graph : Graph :=
  graph_of
    [ (URIRef (ex "Catalog"), RDF_type, SAMM "Aspect");
      (URIRef (ex "Catalog"), SAMM "properties", BNode "l0") ]
    [ (BNode "l0", [URIRef (ex "id"); URIRef "urn:samm:io.catalog:1.0.0#id"]) ].

(** An Aspect with one Property, whose URI ends with the hash: its local
    name is empty, and it has no payload name. *)
Definition unnamed_graph : Graph :=
  graph_of
    [ (URIRef (ex "Sheet"), RDF_type, SAMM "Aspect");
      (URIRef (ex "Sheet"), SAMM "properties", BNode "l0") ]
    [ (BNode "l0", [URIRef (ex "")]) ].

End Examples.

(** * What the theorems are stated with *)

(** What the claim on uncastable pairs takes as given: both data types are
    there, their normalized names differ and [_can_cast] refuses them. *)
Definition uncastable (source_prop target_prop : SAMMProperty) : Prop :=
  truthy (data_type source_prop) = true
  ∧ truthy (data_type target_prop) = true
  ∧ _normalize_type (text (data_type source_prop))
    ≠ _normalize_type (text (data_type target_prop))
  ∧ _can_cast (_normalize_type (text (data_type source_prop)))
              (_normalize_type (text (data_type target_prop))) = false.

(** The shape test of the planner's second step, in words of the
    properties: both characteristics are there, they differ, and
    [_is_collection_characteristic] holds of one only. *)
Definition shape_mismatch (source_prop target_prop : SAMMProperty) : Prop :=
  truthy (characteristic source_prop) = true
  ∧ truthy (characteristic target_prop) = true
  ∧ text (characteristic source_prop) ≠ text (characteristic target_prop)
  ∧ Transformer._is_collection_characteristic (text (characteristic source_prop))
    ≠ Transformer._is_collection_characteristic (text (characteristic target_prop)).

(** The chain of fresh dictionaries that holds [value] under [inner] and
    then [final]. *)
Fixpoint nest (inner : list string) (final : string) (value : Json)
    : list (string * Json) :=
  match inner with
  | [] => [(final, value)]
  | key :: rest => [(key, JDict (nest rest final value))]
  end.

(** The method names with their scores, as [_find_best_match] returns them. *)
Definition levels : list (string * Q) :=
  [("characteristic_match", 9 # 10);
   ("preferred_name_match", 8 # 10);
   ("property_uri_match", 7 # 10)].

Definition source_uris (matches : list Match) : list string :=
  (λ m, uri (match_source m)) <$> matches.

Definition target_uris (matches : list Match) : list string :=
  (λ m, uri (match_target m)) <$> matches.

(** What every match satisfies. *)
Definition match_ok (confidence_threshold : Q) (m : Match) : Prop :=
  (match_method m, match_confidence m) ∈ levels
  ∧ (0 <= match_confidence m)%Q
  ∧ (match_confidence m <= 1)%Q
  ∧ (confidence_threshold <= match_confidence m)%Q.

(** The state of the inner loop: nothing yet, or a target that is not
    consumed, with the method and score [_find_best_match] gives it. *)
Definition best_ok (matched_targets : gset string) (source_prop : SAMMProperty)
    (target_properties : list SAMMProperty) (best : Best) : Prop :=
  match best.1 with
  | None => True
  | Some (target_prop, method) =>
      (uri target_prop ∉ matched_targets)
      ∧ (target_prop ∈ target_properties)
      ∧ (_find_best_match source_prop target_prop = Some (method, best.2))
  end.

(** The invariant of the outer loop, after the source properties [seen]. *)
Definition loop_ok (confidence_threshold : Q)
    (source_properties target_properties : list SAMMProperty)
    (seen : list SAMMProperty) (state : list Match * gset string) : Prop :=
  Forall (match_ok confidence_threshold) state.1
  ∧ NoDup (target_uris state.1)
  ∧ (∀ u, u ∈ target_uris state.1 → u ∈ state.2)
  ∧ sublist (source_uris state.1) (uri <$> seen)
  ∧ Forall (λ m, match_target m ∈ target_properties) state.1.

(** A warning of the result is a [low_confidence] one. *)
Definition is_low_confidence (warning : list (string * string)) : Prop :=
  dict_get "type" warning = Some "low_confidence".

(** [u] has a Property whose characteristic resolves to the Entity [u']. *)
Definition references (g : Graph) (u u' : Node) : Prop :=
  ∃ prop, prop ∈ parse_properties g u ∧ entity_of_property g prop = Some u'.

(** The flags of a flattened sequence, by access path. *)
Definition flags (props : list SAMMProperty) : list (string * bool * bool) :=
  (λ p, (text (json_path p), is_collection p, is_array_element p)) <$> props.

(** Every cached Entity is the parse of some node that satisfies [P]. *)
Definition cache_from (g : Graph) (P : Node → Prop)
    (entities : list (string * SAMMEntity)) : Prop :=
  Forall (λ entry, ∃ u, entry.2 = _parse_entity g u ∧ P u) entities.

(** A check over the triples' subjects that decides the rank hypothesis. *)
Definition rank_checked (g : Graph) (rank : Node → nat) (u : Node) : bool :=
  forallb (λ prop, match entity_of_property g prop with
                   | Some u' => bool_decide (rank u' < rank u)
                   | None => true
                   end)
          (parse_properties g u).

(** The segment a Property contributes to access paths. *)
Definition segment (prop : SAMMProperty) : string :=
  or_str (payload_name prop) (local_name prop).

Fixpoint dot_free (s : string) : bool :=
  match s with
  | EmptyString => true
  | String c r => negb (Ascii.eqb c ".") && dot_free r
  end.

(** The Properties of one Aspect or Entity have segments that differ from
    each other and hold no dot. *)
Definition siblings_ok (props : list SAMMProperty) : Prop :=
  NoDup (segment <$> props) ∧ Forall (λ prop, dot_free (segment prop) = true) props.

Definition siblings_okb (props : list SAMMProperty) : bool :=
  bool_decide (NoDup (segment <$> props))
  && forallb (λ prop, dot_free (segment prop)) props.

(** What follows a segment in a path: nothing, or a dot and more. *)
Definition tail_ok (rest : string) : Prop :=
  rest = "" ∨ ∃ more, rest = "." +:+ more.

(** [path] is [base], then [seg], then a tail. *)
Definition in_block (base seg : string) (path : option string) : Prop :=
  ∃ rest, tail_ok rest ∧ path = Some (base +:+ (seg +:+ rest)).

(** ** Further inputs *)

Module Cases.
Import Examples.

(** [street] flattened under the list-valued [billing]; and the same
    under a parent with local name [billing] and payload name [billTo]. *)
Definition billing_street_in_list : SAMMProperty :=
  property (ex "street") "street" None None (Some (xsd "string"))
           (Some "billing.street") (Some "billing") false true.


(** One amount, typed [xsd:decimal] in one model and [Decimal] of
    another namespace in the other. *)
Definition amount_xsd : SAMMProperty :=
  property (ex "amount") "amount" None None (Some (xsd "decimal"))
           (Some "amount") None false false.
Definition amount_other : SAMMProperty :=
  property (ex "amount") "amount" None None (Some "urn:samm:io.types:1.0.0#Decimal")
           (Some "amount") None false false.

(** A second mapping for the target path [a]. *)
Definition mapping_a_again : PropertyMapping :=
  mapping (property (ex "z") "z" None None None (Some "z") None false false)
          (property "urn:samm:io.other:1.0.0#a" "a" None None None (Some "a") None
                    false false)
          "$.z".

End Cases.

(** ** Stated about the matcher's choice *)

(** The score the inner loop gives a target: none when the target is
    consumed, else what [_find_best_match] says. *)
Definition candidate (matched_targets : gset string) (source_prop target_prop : SAMMProperty)
    : option (string * Q) :=
  if bool_decide (uri target_prop ∈ matched_targets) then None
  else _find_best_match source_prop target_prop.

(** Every score among [targets] is below [bound] ([strict]) or at most
    [bound]. *)
Definition scores_below (strict : bool) (matched_targets : gset string)
    (source_prop : SAMMProperty) (bound : Q) (targets : list SAMMProperty) : Prop :=
  Forall (λ target_prop,
            match candidate matched_targets source_prop target_prop with
            | Some (_, conf) => if strict then (conf < bound)%Q else (conf <= bound)%Q
            | None => True
            end) targets.

(** What the inner loop has found after [scanned]: nothing, and nothing
    scores; or the first target of the highest score. *)
Definition first_maximum (matched_targets : gset string) (source_prop : SAMMProperty)
    (scanned : list SAMMProperty) (best : Best) : Prop :=
  match best.1 with
  | None =>
      best.2 = 0%Q
      ∧ Forall (λ target_prop,
                  candidate matched_targets source_prop target_prop = None) scanned
  | Some (target_prop, method) =>
      ∃ before after,
        scanned = before ++ target_prop :: after
        ∧ candidate matched_targets source_prop target_prop = Some (method, best.2)
        ∧ scores_below true matched_targets source_prop best.2 before
        ∧ scores_below false matched_targets source_prop best.2 after
  end.

(** ** Stated about the flattened sequence *)

(** A Property as it stands at the top level of an Aspect. *)
Definition at_top_level (prop : SAMMProperty) : Prop :=
  parent_property prop = None
  ∧ json_path prop = Some (segment prop)
  ∧ is_array_element prop = false.

(** The copy the flattening makes of [entity_prop] below [parent]. *)
Definition copy_below (parent entity_prop : SAMMProperty) : SAMMProperty :=
  nested_copy entity_prop (text (json_path parent)) (local_name parent)
              (is_collection parent).

(** [prop] is the copy of a Property of the Entity that the characteristic
    of [parent] resolves to, the Entity being taken by the text of its
    URI. *)
Definition copied_below (g : Graph) (parent prop : SAMMProperty) : Prop :=
  ∃ entity_uri u entity_prop,
    entity_of_property g parent = Some entity_uri
    ∧ Parser.str u = Parser.str entity_uri
    ∧ entity_prop ∈ parse_properties g u
    ∧ prop = copy_below parent entity_prop.

(** Each cached Entity is the parse of a node whose text is the key. *)
Definition keyed_cache (g : Graph) (entities : list (string * SAMMEntity)) : Prop :=
  Forall (λ entry, ∃ u, entry.2 = _parse_entity g u ∧ Parser.str u = entry.1) entities.

(** What one round of the second loop of [_parse_aspect] appends for
    [prop]. *)
Definition appended_for (g : Graph) (fuel : nat) (prop : SAMMProperty)
    (block : list SAMMProperty) : Prop :=
  match entity_of_property g prop with
  | Some entity_uri =>
      ∃ u, Parser.str u = Parser.str entity_uri
           ∧ _extract_nested_properties fuel g (_parse_entity g u)
               (segment prop) (local_name prop) (is_collection prop)
             = Some block
  | None => block = []
  end.

(** ** Stated about the applier *)

(** The transformation document as the applier reads it. *)
Fixpoint value_of_json (doc : Json) : Value :=
  match doc with
  | JStr s => VStr s
  | JDict entries =>
      VDict ((fix each (entries : list (string * Json)) : list (string * Value) :=
                match entries with
                | [] => []
                | (k, v) :: r => (k, value_of_json v) :: each r
                end) entries)
  end.

(** Reading a value along a list of keys, through dictionaries. *)
Fixpoint get_value (v : Value) (keys : list string) : option Value :=
  match keys with
  | [] => Some v
  | key :: rest =>
      match v with
      | VDict entries =>
          match dict_get key entries with
          | Some child => get_value child rest
          | None => None
          end
      | _ => None
      end
  end.

(** A path segment that is one key: no dot, and not both brackets. *)
Definition plain (key : string) : Prop :=
  dot_free key = true ∧ contains "[" key && contains "]" key = false.

(** A key with no dot and no bracket. *)
Definition bracket_free (key : string) : Prop :=
  dot_free key = true ∧ contains "[" key = false ∧ contains "]" key = false.

(** What an item of a list contributes under [keys]: the value found
    there, unless it is [None]. *)
Definition found_in (keys : list string) (item : Value) : option Value :=
  match get_value item keys with
  | Some VNull | None => None
  | Some v => Some v
  end.

(** [int] on the texts of ASCII digits. *)
Definition int_of_digits (s : string) : option Z :=
  Z.of_uint <$> DecimalString.NilZero.uint_of_string s.

(** A document with a list of two lines and a customer. *)
Definition order_data : Value :=
  VDict [ ("customer", VDict [("name", VStr "Ada")]);
          ("lines", VList [ VDict [("sku", VStr "A-1"); ("qty", VNum "2")];
                            VDict [("sku", VStr "B-7")] ]) ].

(** * Theorems *)


(** ** The transform planner *)

(** C3.  A [type_cast] mapping whose target is [xsd:nonNegativeInteger] or
    [xsd:positiveInteger] does not get the numeric cast: [_normalize_type]
    lower-cases the type name, the two table keys are written in camel case,
    so the lookup finds nothing and the fragment is the bare access
    expression with the no-cast-function warning. *)
Theorem type_cast_misses_camel_case_keys :
  let nonneg := Examples.quantity_nonneg in
  let positive := Examples.quantity_positive in
  (_determine_transformation_type Examples.quantity_source nonneg).1 = "type_cast"
  ∧ _normalize_type (text (data_type nonneg)) = "nonnegativeinteger"
  ∧ TYPE_CAST_MAP !! "nonNegativeInteger" = Some "$number"
  ∧ TYPE_CAST_MAP !! "nonnegativeinteger" = None
  ∧ _generate_jsonata_expression Examples.quantity_source nonneg "type_cast"
    = ("$.quantity",
       [Warning "No cast function for type nonnegativeinteger, using direct mapping"])
  ∧ (_determine_transformation_type Examples.quantity_source positive).1 = "type_cast"
  ∧ TYPE_CAST_MAP !! "positiveInteger" = Some "$number"
  ∧ _generate_jsonata_expression Examples.quantity_source positive "type_cast"
    = ("$.quantity",
       [Warning "No cast function for type positiveinteger, using direct mapping"]).
Proof. vm_compute. repeat split; reflexivity. Qed.

(** C4.  The planner's collection test reads the characteristic's URI text,
    not its declared type: a scalar characteristic named [PriceListing] counts
    as a collection and a pair of two scalars gets [structure_transform]; a
    characteristic declared [TimeSeries] does not count and a pair of a
    collection and a scalar gets [direct]. *)
Theorem planner_collection_test_reads_the_name :
  let g := Examples.typing_graph in
  Parser._is_collection_characteristic g (URIRef (Examples.ex "PriceListing")) = false
  ∧ Parser._is_collection_characteristic g (URIRef (Examples.ex "Price")) = false
  ∧ Transformer._is_collection_characteristic (Examples.ex "PriceListing") = true
  ∧ (_determine_transformation_type Examples.listing_price Examples.price).1
    = "structure_transform"
  ∧ Parser._is_collection_characteristic g (URIRef (Examples.ex "Readings")) = true
  ∧ Transformer._is_collection_characteristic (Examples.ex "Readings") = false
  ∧ (_determine_transformation_type Examples.readings Examples.price).1 = "direct".
Proof. vm_compute. repeat split; reflexivity. Qed.

Lemma characteristic_step_spec source_prop target_prop :
  characteristic_step source_prop target_prop = true
  ↔ shape_mismatch source_prop target_prop.
Proof.
  unfold characteristic_step, shape_mismatch.
  rewrite !andb_true_iff, !negb_true_iff.
  rewrite String.eqb_neq, eqb_false_iff. tauto.
Qed.

Lemma uncastable_example : uncastable Examples.valid_dates Examples.valid_dates_link.
Proof. vm_compute. repeat split; try reflexivity; discriminate. Qed.

(** The claim C5 fails as stated: a pair that the matcher returns, by the
    local names, and that is uncastable is planned as [structure_transform]
    when its characteristics differ in shape. *)
Lemma uncastable_pair_can_be_structure_transform :
  match_properties (6 # 10) [Examples.valid_dates] [Examples.valid_dates_link]
  = [(Examples.valid_dates, Examples.valid_dates_link, "property_uri_match", 7 # 10)]
  ∧ uncastable Examples.valid_dates Examples.valid_dates_link
  ∧ _determine_transformation_type Examples.valid_dates Examples.valid_dates_link
    = ("structure_transform",
       [Warning "Cannot cast date to anyuri for validDates -> validDates"]).
Proof. split; [reflexivity | split; [exact uncastable_example | reflexivity]]. Qed.

(** C5, amended.  An uncastable pair, matched or not, logs the cannot-cast
    warning, is never planned as [type_cast], and goes on to the shape test:
    it is [structure_transform] when the characteristics mismatch in shape
    and [direct] when they do not.  The planner is a total function, so
    nothing is raised. *)
Theorem uncastable_pair_plan source_prop target_prop :
  uncastable source_prop target_prop →
  let plan := _determine_transformation_type source_prop target_prop in
  plan.2 = [cannot_cast_warning (_normalize_type (text (data_type source_prop)))
                                (_normalize_type (text (data_type target_prop)))
                                source_prop target_prop]
  ∧ plan.1 ≠ "type_cast"
  ∧ (shape_mismatch source_prop target_prop → plan.1 = "structure_transform")
  ∧ (¬ shape_mismatch source_prop target_prop → plan.1 = "direct").
Proof.
  intros (Hs & Ht & Hne & Hcast). simpl.
  unfold _determine_transformation_type, data_type_step.
  rewrite Hs, Ht. simpl.
  apply String.eqb_neq in Hne. rewrite Hne, Hcast. simpl.
  pose proof (characteristic_step_spec source_prop target_prop) as Hstep.
  destruct (characteristic_step source_prop target_prop); simpl.
  - repeat split; try done. intros Hn. exfalso. apply Hn, Hstep. done.
  - repeat split; try done. intros Hm. apply Hstep in Hm. done.
Qed.

Lemma uncastable_pair_plan_witness :
  match_properties (6 # 10) [Examples.valid_dates] [Examples.valid_dates_link_plain]
  = [(Examples.valid_dates, Examples.valid_dates_link_plain,
      "property_uri_match", 7 # 10)]
  ∧ uncastable Examples.valid_dates Examples.valid_dates_link_plain
  ∧ _determine_transformation_type Examples.valid_dates Examples.valid_dates_link_plain
    = ("direct", [Warning "Cannot cast date to anyuri for validDates -> validDates"]).
Proof.
  assert (Hu : uncastable Examples.valid_dates Examples.valid_dates_link_plain).
  { vm_compute. repeat split; try reflexivity; discriminate. }
  split; [reflexivity | split; [exact Hu |]].
  destruct (uncastable_pair_plan _ _ Hu) as (Hlog & _ & _ & Hdirect).
  rewrite (surjective_pairing (_determine_transformation_type _ _)).
  rewrite Hlog, Hdirect; [reflexivity |].
  intros (_ & Ht & _). vm_compute in Ht. discriminate Ht.
Defined.

(** ** Document assembly *)

Section DictLemmas.
Context {V : Type}.
Implicit Types (d : list (string * V)) (k : string) (v : V).

Lemma dict_get_set_eq k v d : dict_get k (dict_set k v d) = Some v.
Proof.
  induction d as [|[k' v'] d IH]; simpl.
  - by rewrite decide_True.
  - destruct (decide (k = k')) as [->|Hne]; simpl.
    + by rewrite decide_True.
    + by rewrite decide_False.
Qed.

Lemma dict_get_set_ne k k' v d : k ≠ k' → dict_get k' (dict_set k v d) = dict_get k' d.
Proof.
  intros Hne. induction d as [|[k0 v0] d IH]; simpl.
  - by rewrite decide_False.
  - destruct (decide (k = k0)) as [->|Hk]; simpl.
    + by rewrite !decide_False.
    + destruct (decide (k' = k0)); done.
Qed.

Lemma dict_set_same k v d : dict_get k d = Some v → dict_set k v d = d.
Proof.
  induction d as [|[k0 v0] d IH]; simpl; [done |].
  destruct (decide (k = k0)) as [->|Hk]; intros H.
  - by simplify_eq.
  - by rewrite IH.
Qed.
End DictLemmas.

Lemma split_not_nil sep s : split sep s ≠ [].
Proof.
  destruct s as [|c r]; simpl; [done |].
  destruct (decide (c = sep)); [done |].
  destruct (split sep r); done.
Qed.

Lemma init_last_parts (keys : list string) :
  keys ≠ [] → init_parts keys ++ [last_part keys] = keys.
Proof.
  intros Hne. unfold init_parts, last_part.
  destruct (exists_last Hne) as (l & x & ->).
  rewrite removelast_last, last_snoc. done.
Qed.

Lemma split_init_last sep s :
  init_parts (split sep s) ++ [last_part (split sep s)] = split sep s.
Proof. apply init_last_parts, split_not_nil. Qed.

Lemma get_path_snoc_nonempty doc (keys : list string) key v :
  get_path doc (key :: keys) = Some v → ∃ entries, doc = JDict entries.
Proof. destruct doc; simpl; [done | eauto]. Qed.

(** Below a fresh dictionary nothing collides. *)
Lemma set_nested_keys_fresh inner final path value :
  set_nested_keys [] inner final path value = (nest inner final value, []).
Proof.
  induction inner as [|key rest IH]; simpl; [done |].
  by rewrite IH.
Qed.






(** The frame of one walk, by location: what is read along a key sequence
    that is no prefix of the walk's keys, so that it leaves the walk or
    goes on below its end, is read back unchanged. *)
Lemma set_nested_keys_frame_at final path value :
  ∀ inner obj (q : list string) v,
    ¬ q `prefix_of` inner ++ [final] →
    get_path (JDict obj) q = Some v →
    get_path (JDict (set_nested_keys obj inner final path value).1) q = Some v.
Proof.
  induction inner as [|k0 rest IH]; intros obj q v Hnot Hget.
  - destruct q as [|k1 q']; [exfalso; apply Hnot, prefix_nil |].
    simpl in *.
    destruct (negb (is_dict (dict_get final obj))) eqn:Hdict; simpl; [|done].
    destruct (decide (final = k1)) as [->|Hne]; [| by rewrite dict_get_set_ne].
    exfalso. destruct q' as [|k2 q'']; [by apply Hnot |].
    by destruct (dict_get k1 obj) as [[s|entries]|].
  - destruct q as [|k1 q']; [exfalso; apply Hnot, prefix_nil |].
    assert (Hoff : k1 ≠ k0 → ∀ child (log : list LogRecord),
      get_path (JDict (dict_set k0 (JDict child) obj, log).1) (k1 :: q') = Some v).
    { intros Hne child log. simpl. rewrite dict_get_set_ne by done. exact Hget. }
    destruct (decide (k1 = k0)) as [->|Hne]; cycle 1.
    { simpl. destruct (dict_get k0 obj) as [[s|entries]|];
        destruct (set_nested_keys _ rest final path value) as [child log];
        by apply Hoff. }
    assert (Hnot' : ¬ q' `prefix_of` rest ++ [final]).
    { intros Hpre. apply Hnot. by apply prefix_cons. }
    simpl in Hget |- *.
    destruct (dict_get k0 obj) as [[s|entries]|] eqn:Hk0.
    + exfalso. destruct q' as [|k2 q'']; [apply Hnot', prefix_nil | done].
    + pose proof (IH entries q' v Hnot' Hget) as IH'.
      destruct (set_nested_keys entries rest final path value) as [child log].
      simpl. by rewrite dict_get_set_eq.
    + done.
Qed.

(** And what is read along a key sequence that leaves the walk, being no
    prefix of its keys and not going through all of them, is the same
    before and after, found or not. *)
Lemma set_nested_keys_frame_off final path value :
  ∀ inner obj (q : list string),
    ¬ q `prefix_of` inner ++ [final] →
    ¬ inner ++ [final] `prefix_of` q →
    get_path (JDict (set_nested_keys obj inner final path value).1) q
    = get_path (JDict obj) q.
Proof.
  induction inner as [|k0 rest IH]; intros obj q Hnot Hoff.
  - destruct q as [|k1 q']; [exfalso; apply Hnot, prefix_nil |].
    assert (Hne : final ≠ k1).
    { intros ->. apply Hoff. apply prefix_cons, prefix_nil. }
    simpl.
    destruct (negb (is_dict (dict_get final obj))); simpl; [| done].
    by rewrite dict_get_set_ne.
  - destruct q as [|k1 q']; [exfalso; apply Hnot, prefix_nil |].
    destruct (decide (k1 = k0)) as [->|Hne]; cycle 1.
    { simpl. destruct (dict_get k0 obj) as [[s|entries]|];
        destruct (set_nested_keys _ rest final path value) as [child log];
        simpl; by rewrite dict_get_set_ne. }
    assert (Hnot' : ¬ q' `prefix_of` rest ++ [final]).
    { intros Hpre. apply Hnot. by apply prefix_cons. }
    assert (Hoff' : ¬ rest ++ [final] `prefix_of` q').
    { intros Hpre. apply Hoff. by apply prefix_cons. }
    assert (Hfresh : get_path (JDict (set_nested_keys [] rest final path value).1) q'
                     = None).
    { rewrite (IH [] q' Hnot' Hoff').
      destruct q' as [|k2 q'']; [exfalso; apply Hnot', prefix_nil | done]. }
    simpl.
    destruct (dict_get k0 obj) as [[s|entries]|] eqn:Hk0.
    + destruct (set_nested_keys [] rest final path value) as [child log].
      simpl in *. rewrite dict_get_set_eq, Hfresh.
      destruct q' as [|k2 q'']; [exfalso; apply Hnot', prefix_nil | done].
    + pose proof (IH entries q' Hnot' Hoff') as IH'.
      destruct (set_nested_keys entries rest final path value) as [child log].
      simpl in *. by rewrite dict_get_set_eq.
    + destruct (set_nested_keys [] rest final path value) as [child log].
      simpl in *. by rewrite dict_get_set_eq.
Qed.

Lemma last_not_prefix (q keys : list string) key :
  last q = Some key → key ∉ keys → ¬ q `prefix_of` keys.
Proof.
  intros Hlast Hnot [k ->]. apply Hnot, elem_of_app. left.
  destruct (last_Some q key) as [(l & ->) _]; [done |].
  apply elem_of_app. right. apply list_elem_of_here.
Qed.

(** C10.  The frame of [_set_nested_path], by location.  The nodes along
    the path are those read along a prefix of its keys.  Whatever is read
    along another key sequence is read back with the value it had, an entry
    at the root or elsewhere whose key is also a segment of the path
    included; along a key sequence that leaves the path nothing appears
    either; and so an entry, at any depth, whose key is no segment of the
    path keeps its value. *)
Theorem set_nested_path_frame obj path value :
  let written := JDict (_set_nested_path obj path value).1 in
  (∀ (q : list string) v,
     ¬ q `prefix_of` split "." path →
     get_path (JDict obj) q = Some v → get_path written q = Some v)
  ∧ (∀ q : list string,
       ¬ q `prefix_of` split "." path →
       ¬ split "." path `prefix_of` q →
       get_path written q = get_path (JDict obj) q)
  ∧ (∀ (q : list string) key v,
       last q = Some key →
       key ∉ split "." path →
       get_path (JDict obj) q = Some v → get_path written q = Some v).
Proof.
  simpl. unfold _set_nested_path.
  assert (Hat : ∀ (q : list string) v,
    ¬ q `prefix_of` split "." path →
    get_path (JDict obj) q = Some v →
    get_path (JDict (set_nested_keys obj (init_parts (split "." path))
                                     (last_part (split "." path)) path value).1) q
    = Some v).
  { intros q v Hnot. apply set_nested_keys_frame_at. by rewrite split_init_last. }
  split; [exact Hat | split].
  - intros q Hnot Hoff. apply set_nested_keys_frame_off; by rewrite split_init_last.
  - intros q key v Hlast Hkey. apply Hat. by eapply last_not_prefix.
Qed.

Lemma set_nested_path_frame_witness :
  get_path (JDict (_set_nested_path [("b", JStr "$.root")] "a.b" (JStr "$.v")).1)
           ["b"]
  = Some (JStr "$.root")
  ∧ get_path (JDict (_set_nested_path [("b", JStr "$.root")] "a.b" (JStr "$.v")).1)
             ["a"; "c"]
    = None
  ∧ get_path
      (JDict (_set_nested_path Examples.document "pcf.value" (JStr "$.v")).1)
      ["pcf"; "unit"]
    = Some (JStr "$.u").
Proof.
  destruct (set_nested_path_frame [("b", JStr "$.root")] "a.b" (JStr "$.v"))
    as (Hat & Hoff & _).
  destruct (set_nested_path_frame Examples.document "pcf.value" (JStr "$.v"))
    as (_ & _ & Hkey).
  split; [| split].
  - apply Hat; [| reflexivity].
    intros [k Hk]. vm_compute in Hk. discriminate Hk.
  - rewrite Hoff; [reflexivity | |].
    + intros [k Hk]. vm_compute in Hk. discriminate Hk.
    + intros [k Hk]. vm_compute in Hk. discriminate Hk.
  - apply (Hkey ["pcf"; "unit"] "unit"); [reflexivity | | reflexivity].
    vm_compute. intros H. repeat (apply elem_of_cons in H as [H|H]; [discriminate H|]).
    by apply elem_of_nil in H.
Defined.

(** ** The matcher *)

Lemma find_best_match_level source_prop target_prop method conf :
  _find_best_match source_prop target_prop = Some (method, conf) →
  (method, conf) ∈ levels.
Proof.
  unfold _find_best_match, levels.
  repeat case_match; intros; simplify_eq; set_solver.
Qed.

Lemma level_bounds method conf :
  (method, conf) ∈ levels → (0 <= conf)%Q ∧ (conf <= 1)%Q.
Proof.
  unfold levels. rewrite !elem_of_cons, elem_of_nil.
  intros [H|[H|[H|[]]]]; simplify_eq; split; by compute.
Qed.

Lemma scan_target_ok matched source_prop targets best target_prop :
  target_prop ∈ targets →
  best_ok matched source_prop targets best →
  best_ok matched source_prop targets (scan_target matched source_prop best target_prop).
Proof.
  intros Hin Hbest. unfold scan_target.
  case_bool_decide as Hm; [done |].
  destruct (_find_best_match source_prop target_prop) as [[method conf]|] eqn:Hfind;
    [|done].
  destruct (Qgt_bool conf best.2); [|done].
  by unfold best_ok.
Qed.

Lemma best_for_ok matched source_prop targets :
  best_ok matched source_prop targets (best_for matched source_prop targets).
Proof.
  unfold best_for.
  assert (H : ∀ scanned best,
    (∀ t, t ∈ scanned → t ∈ targets) →
    best_ok matched source_prop targets best →
    best_ok matched source_prop targets
            (foldl (scan_target matched source_prop) best scanned)).
  { induction scanned as [|t scanned IH]; intros best Hsub Hbest; simpl; [done |].
    apply IH.
    - intros t' Ht'. apply Hsub. by apply list_elem_of_further.
    - apply scan_target_ok; [|done]. apply Hsub, list_elem_of_here. }
  apply H; [done | by unfold best_ok].
Qed.

Lemma match_step_ok thr sources targets seen state source_prop :
  loop_ok thr sources targets seen state →
  loop_ok thr sources targets (seen ++ [source_prop])
          (match_step thr targets state source_prop).
Proof.
  destruct state as [matches matched].
  intros (Hall & Hnd & Hsub & Hsrc & Htgt).
  assert (Hkeep : loop_ok thr sources targets (seen ++ [source_prop]) (matches, matched)).
  { repeat split; try done. simpl in *. rewrite fmap_app.
    by apply sublist_inserts_r. }
  unfold match_step.
  pose proof (best_for_ok matched source_prop targets) as Hbest.
  destruct (best_for matched source_prop targets) as [[[best_match best_method]|] conf];
    [|done].
  destruct (Qle_bool thr conf) eqn:Hthr; [|done].
  destruct Hbest as (Hfresh & Hin & Hfind). simpl in *.
  pose proof (find_best_match_level _ _ _ _ Hfind) as Hlevel.
  destruct (level_bounds _ _ Hlevel) as [H0 H1].
  apply Qle_bool_iff in Hthr.
  repeat split; simpl.
  - apply Forall_app. split; [done |].
    constructor; [|done]. by repeat split.
  - unfold target_uris in *. rewrite fmap_app. simpl.
    apply NoDup_app. repeat split; [done | | apply NoDup_singleton].
    intros u Hu Hu'. apply list_elem_of_singleton in Hu'. subst u.
    by apply Hfresh, Hsub.
  - unfold target_uris in *. rewrite fmap_app. simpl.
    intros u Hu. apply elem_of_app in Hu as [Hu|Hu].
    + apply elem_of_union_r. by apply Hsub.
    + apply list_elem_of_singleton in Hu. subst u.
      apply elem_of_union_l. by apply elem_of_singleton.
  - unfold source_uris in *. rewrite !fmap_app. simpl.
    by apply sublist_app.
  - apply Forall_app. split; [done |]. by constructor.
Qed.

Lemma match_loop_ok thr sources targets :
  ∀ rest seen state,
    loop_ok thr sources targets seen state →
    loop_ok thr sources targets (seen ++ rest) (match_loop thr rest targets state).
Proof.
  induction rest as [|source_prop rest IH]; intros seen state Hok; simpl.
  - by rewrite app_nil_r.
  - unfold match_loop. simpl.
    replace (seen ++ source_prop :: rest) with ((seen ++ [source_prop]) ++ rest)
      by (by rewrite <- app_assoc).
    apply IH. by apply match_step_ok.
Qed.

Lemma match_properties_ok thr sources targets :
  loop_ok thr sources targets sources (match_loop thr sources targets ([], ∅)).
Proof.
  apply (match_loop_ok thr sources targets sources []).
  repeat split; simpl;
    first [ done | apply NoDup_nil_2 | apply sublist_nil_l
          | by intros u Hu; apply elem_of_nil in Hu ].
Qed.

(** The claim C6 fails as stated on its last part: the two flattened copies
    of one Entity's Property share a URI and are both matched. *)
Lemma match_properties_repeats_a_source_uri :
  source_uris
    (match_properties (6 # 10)
       [Examples.billing_street; Examples.shipping_street]
       [Examples.invoice_street; Examples.delivery_street])
  = [uri Examples.billing_street; uri Examples.shipping_street]
  ∧ uri Examples.billing_street = uri Examples.shipping_street.
Proof. split; reflexivity. Qed.

(** C6, amended.  For every threshold and every two sequences, each match
    has one of the three methods with its score, a confidence in [0,1] and
    at least the threshold; no target URI is matched twice, whatever the
    sequences repeat; the source URIs of the matches are a subsequence of
    those of the source sequence, so no source URI is matched twice when the
    source sequence has no two records with the same URI. *)
Theorem match_properties_invariants confidence_threshold
    (source_properties target_properties : list SAMMProperty) :
  let matches :=
    match_properties confidence_threshold source_properties target_properties in
  Forall (match_ok confidence_threshold) matches
  ∧ NoDup (target_uris matches)
  ∧ sublist (source_uris matches) (uri <$> source_properties)
  ∧ (NoDup (uri <$> source_properties) → NoDup (source_uris matches)).
Proof.
  simpl. unfold match_properties.
  destruct (match_properties_ok confidence_threshold source_properties target_properties)
    as (Hall & Htgt & _ & Hsub & _).
  split; [exact Hall | split; [exact Htgt | split; [exact Hsub |]]].
  intros Hnd. eapply sublist_NoDup; [exact Hnd | exact Hsub].
Qed.

Lemma match_properties_invariants_witness :
  NoDup (source_uris
           (match_properties (6 # 10)
              [Examples.billing_street; Examples.city]
              [Examples.invoice_street; Examples.delivery_street])).
Proof.
  destruct (match_properties_invariants (6 # 10)
              [Examples.billing_street; Examples.city]
              [Examples.invoice_street; Examples.delivery_street])
    as (_ & _ & _ & Hsources).
  apply Hsources.
  vm_compute. apply NoDup_cons. split.
  - intros H. apply list_elem_of_singleton in H. discriminate H.
  - apply NoDup_singleton.
Defined.

Lemma flat_map_nil {A B : Type} (f : A → list B) (l : list A) :
  Forall (λ x, f x = []) l → flat_map f l = [].
Proof. induction 1 as [|x l Hx _ IH]; simpl; [done |]. by rewrite Hx, IH. Qed.

Lemma level_not_low method conf :
  (method, conf) ∈ levels → Qgt_bool (7 # 10) conf = false.
Proof.
  unfold levels. rewrite !elem_of_cons, elem_of_nil.
  intros [H|[H|[H|[]]]]; by simplify_eq.
Qed.

(** C9.  Every match has confidence 0.9, 0.8 or 0.7, so the test
    [confidence < 0.7] of [_generate_warnings] never holds on the mappings
    made from the matcher's output, and no warning of the result has type
    [low_confidence]. *)
Theorem no_low_confidence_warning (format_2f : Q → string) confidence_threshold
    (source_properties target_properties : list SAMMProperty) :
  let matches :=
    match_properties confidence_threshold source_properties target_properties in
  Forall (λ m, match_confidence m ∈ [9 # 10; 8 # 10; 7 # 10]) matches
  ∧ Forall (λ mapping, Qgt_bool (7 # 10) (confidence mapping) = false)
           (mappings_of matches)
  ∧ Forall (λ warning, ¬ is_low_confidence warning)
           (generated_warnings format_2f confidence_threshold
                               source_properties target_properties).
Proof.
  simpl.
  destruct (match_properties_ok confidence_threshold source_properties target_properties)
    as (Hall & _).
  fold (match_properties confidence_threshold source_properties target_properties) in Hall.
  assert (Hlevels : Forall (λ m, (match_method m, match_confidence m) ∈ levels)
            (match_properties confidence_threshold source_properties target_properties)).
  { eapply Forall_impl; [exact Hall |]. by intros m (H & _). }
  assert (Hmappings : Forall (λ mapping, Qgt_bool (7 # 10) (confidence mapping) = false)
            (mappings_of (match_properties confidence_threshold
                            source_properties target_properties))).
  { unfold mappings_of. apply Forall_fmap.
    eapply Forall_impl; [exact Hlevels |].
    intros m Hm. simpl. unfold create_mapping.
    destruct (_determine_transformation_type _ _) as [kind log1].
    destruct (_generate_jsonata_expression _ _ kind) as [fragment log2]. simpl.
    exact (level_not_low _ _ Hm). }
  split; [| split; [exact Hmappings |]].
  - eapply Forall_impl; [exact Hlevels |].
    intros m. unfold levels. rewrite !elem_of_cons, !elem_of_nil.
    intros [H|[H|[H|[]]]]; inversion H; tauto.
  - unfold generated_warnings, _generate_warnings.
    rewrite flat_map_nil.
    + generalize (_find_unmapped_properties source_properties target_properties
                    (mappings_of (match_properties confidence_threshold
                                    source_properties target_properties))).
      unfold is_low_confidence.
      intros [[|s ss] [|t ts]]; simpl; repeat constructor; simpl; discriminate.
    + eapply Forall_impl; [exact Hmappings |].
      intros mapping Hm. simpl. by rewrite Hm.
Qed.

(** ** The flattener *)

Lemma extract_S fuel g entity parent_path parent_name parent_is_collection :
  _extract_nested_properties (S fuel) g entity parent_path parent_name
                             parent_is_collection
  = flat_mapM
      (λ entity_prop,
         let nested_prop :=
           nested_copy entity_prop parent_path parent_name parent_is_collection in
         match entity_of_property g nested_prop with
         | Some nested_entity_uri =>
             deeper ← _extract_nested_properties fuel g
                        (_parse_entity g nested_entity_uri)
                        (text (json_path nested_prop))
                        (local_name nested_prop)
                        (is_collection nested_prop);
             Some (nested_prop :: deeper)
         | None => Some [nested_prop]
         end)
      (e_properties entity).
Proof. reflexivity. Qed.

Lemma entity_of_nested_copy g prop parent_path parent_name parent_is_collection :
  entity_of_property g (nested_copy prop parent_path parent_name parent_is_collection)
  = entity_of_property g prop.
Proof. reflexivity. Qed.

Lemma entity_of_set_top_level_path g prop :
  entity_of_property g (set_top_level_path prop) = entity_of_property g prop.
Proof. unfold set_top_level_path. by destruct (truthy (json_path prop)). Qed.

(** On the cyclic Entity no depth is enough. *)
Lemma extract_cycle_never_returns fuel :
  ∀ parent_path parent_name parent_is_collection,
    _extract_nested_properties fuel Examples.cyclic_graph
      (_parse_entity Examples.cyclic_graph (URIRef (Examples.ex "Node")))
      parent_path parent_name parent_is_collection
    = None.
Proof.
  induction fuel as [|fuel IH]; intros parent_path parent_name parent_is_collection;
    [done |].
  rewrite extract_S.
  set (g := Examples.cyclic_graph) in *.
  assert (Hprops : ∃ next,
    e_properties (_parse_entity g (URIRef (Examples.ex "Node"))) = [next]
    ∧ entity_of_property g next = Some (URIRef (Examples.ex "Node"))).
  { eexists. split; reflexivity. }
  destruct Hprops as (next & -> & Hnext).
  cbn [flat_mapM]. cbv zeta.
  rewrite entity_of_nested_copy, Hnext.
  by rewrite IH.
Qed.

Lemma parse_aspect_cycle_never_returns fuel :
  _parse_aspect fuel Examples.cyclic_graph (URIRef (Examples.ex "Loop")) = None.
Proof.
  unfold _parse_aspect.
  set (g := Examples.cyclic_graph) in *.
  assert (Htop : ∃ node,
    set_top_level_path <$> parse_properties g (URIRef (Examples.ex "Loop")) = [node]
    ∧ entity_of_property g node = Some (URIRef (Examples.ex "Node"))).
  { eexists. split; reflexivity. }
  destruct Htop as (node & Htop & Hnode).
  change (map set_top_level_path) with (fmap (M := list) set_top_level_path).
  rewrite Htop.
  cbn [nested_loop]. rewrite Hnode.
  cbn [dict_get Parser.str].
  by rewrite extract_cycle_never_returns.
Qed.

(** The claim C1 fails as stated: on a graph with a reference cycle of
    length one the flattening returns at no recursion depth.  The code keeps
    no set of the Entities on the recursion stack. *)
Lemma flattening_of_a_cycle_never_returns :
  ∃ g aspect_uri,
    g = Examples.cyclic_graph
    ∧ aspect_uri = URIRef (Examples.ex "Loop")
    ∧ references g (URIRef (Examples.ex "Node")) (URIRef (Examples.ex "Node"))
    ∧ ∀ fuel, _parse_aspect fuel g aspect_uri = None.
Proof.
  exists Examples.cyclic_graph, (URIRef (Examples.ex "Loop")).
  split; [done |]. split; [done |]. split.
  - eexists. split; [apply list_elem_of_here | reflexivity].
  - apply parse_aspect_cycle_never_returns.
Qed.

(** C2.  Two Entity levels below the list-valued [items], with the
    single-valued [detail] in between, [note] is not marked as an array
    element although its parent [detail] is one: the recursive call passes
    the child's [is_collection] alone. *)
Theorem array_element_flag_stops_at_a_scalar_level :
  flags <$> (a_properties
               <$> _parse_aspect 2 Examples.order_graph
                                 (URIRef (Examples.ex "Order")))
  = Some [ ("items", true, false);
           ("items.detail", false, true);
           ("items.detail.note", false, false) ].
Proof. reflexivity. Qed.

Lemma flat_mapM_is_Some {A B : Type} (f : A → option (list B)) (xs : list A) :
  (∀ x, x ∈ xs → is_Some (f x)) → is_Some (flat_mapM f xs).
Proof.
  induction xs as [|x xs IH]; intros Hall; simpl; [done |].
  destruct (Hall x (list_elem_of_here _ _)) as [ys ->]. simpl.
  destruct IH as [zs ->]; [|done].
  intros x' Hx'. by apply Hall, list_elem_of_further.
Qed.

Lemma cache_from_get g P entities key entity :
  cache_from g P entities → dict_get key entities = Some entity →
  ∃ u, entity = _parse_entity g u ∧ P u.
Proof.
  induction 1 as [|[k e] entities He _ IH]; simpl; [done |].
  destruct (decide (key = k)); intros; simplify_eq; auto.
Qed.

Lemma cache_from_set g (P : Node → Prop) entities key u :
  cache_from g P entities → P u →
  cache_from g P (dict_set key (_parse_entity g u) entities).
Proof.
  intros Hcache Hu. induction Hcache as [|[k e] entities He Hrest IH]; simpl.
  - constructor; [|constructor]. by exists u.
  - destruct (decide (key = k)); constructor; try done. by exists u.
Qed.

Section Ranked.
Context (g : Graph) (rank : Node → nat).
Hypothesis rank_decreases : ∀ u u', references g u u' → rank u' < rank u.

(** With a rank that every reference lowers, a depth above the rank of the
    Entity is enough. *)
Lemma extract_returns fuel :
  ∀ u parent_path parent_name parent_is_collection,
    rank u < fuel →
    is_Some (_extract_nested_properties fuel g (_parse_entity g u)
               parent_path parent_name parent_is_collection).
Proof.
  induction fuel as [|fuel IH];
    intros u parent_path parent_name parent_is_collection Hrank; [lia |].
  rewrite extract_S. apply flat_mapM_is_Some.
  intros entity_prop Hin. cbv zeta.
  rewrite entity_of_nested_copy.
  destruct (entity_of_property g entity_prop) as [u'|] eqn:Hent; [|done].
  assert (Hlt : rank u' < rank u) by (apply rank_decreases; by exists entity_prop).
  destruct (IH u' (text (json_path (nested_copy entity_prop parent_path parent_name
                                                parent_is_collection)))
               (local_name entity_prop) (is_collection entity_prop))
    as [deeper Hdeeper]; [lia |].
  simpl in *. by rewrite Hdeeper.
Qed.

Lemma nested_loop_returns fuel :
  ∀ props entities all_properties,
    (∀ prop u', prop ∈ props → entity_of_property g prop = Some u' → rank u' < fuel) →
    cache_from g (λ u, rank u < fuel) entities →
    is_Some (nested_loop fuel g props entities all_properties).
Proof.
  induction props as [|prop props IH]; intros entities all_properties Hprops Hcache;
    simpl; [done |].
  assert (Hrest : ∀ prop' u', prop' ∈ props →
            entity_of_property g prop' = Some u' → rank u' < fuel).
  { intros prop' u' Hin. apply Hprops. by apply list_elem_of_further. }
  destruct (entity_of_property g prop) as [u|] eqn:Hent; [|by apply IH].
  assert (Hu : rank u < fuel) by (eapply Hprops; [apply list_elem_of_here | done]).
  destruct (dict_get (Parser.str u) entities) as [entity|] eqn:Hget.
  - destruct (cache_from_get _ _ _ _ _ Hcache Hget) as (u0 & -> & Hu0).
    destruct (extract_returns fuel u0 (or_str (payload_name prop) (local_name prop))
                (local_name prop) (is_collection prop) Hu0) as [nested ->].
    simpl. by apply IH.
  - destruct (extract_returns fuel u (or_str (payload_name prop) (local_name prop))
                (local_name prop) (is_collection prop) Hu) as [nested ->].
    simpl. apply IH; [done |]. by apply cache_from_set.
Qed.

Lemma parse_aspect_returns fuel aspect_uri :
  rank aspect_uri ≤ fuel → is_Some (_parse_aspect fuel g aspect_uri).
Proof.
  intros Hrank. unfold _parse_aspect.
  destruct (nested_loop_returns fuel
              (map set_top_level_path (parse_properties g aspect_uri)) []
              (map set_top_level_path (parse_properties g aspect_uri)))
    as [[entities all_properties] ->]; [| by constructor | done].
  intros prop u' Hin Hent.
  change (map set_top_level_path) with (fmap (M := list) set_top_level_path) in Hin.
  apply list_elem_of_fmap in Hin as (prop0 & -> & Hin0).
  rewrite entity_of_set_top_level_path in Hent.
  assert (rank u' < rank aspect_uri) by (apply rank_decreases; by exists prop0).
  lia.
Qed.
End Ranked.

(** C1, amended.  When the Entity references contain no cycle (some rank on
    the nodes goes down along every reference) the flattening returns, at
    every recursion depth from the rank of the Aspect on.  The code keeps no
    set of the Entities on the recursion stack and detects no repetition. *)
Theorem flattening_returns_without_cycles (g : Graph) (rank : Node → nat)
    (aspect_uri : Node) (fuel : nat) :
  (∀ u u', references g u u' → rank u' < rank u) →
  rank aspect_uri ≤ fuel →
  is_Some (_parse_aspect fuel g aspect_uri).
Proof. intros Hrank Hfuel. by apply parse_aspect_returns with rank. Qed.

(** A graph given by its triples has Properties at the subjects of its
    triples only. *)
Lemma objects_of_subject triples s p o :
  o ∈ Examples.objects_of triples s p → (s, p, o) ∈ triples.
Proof.
  induction triples as [|[[s' p'] o'] triples IH]; simpl.
  - intros H. by apply elem_of_nil in H.
  - destruct (decide (s = s' ∧ p = p')) as [[-> ->]|Hne].
    + intros [->|H]%elem_of_cons; [apply list_elem_of_here |].
      by apply list_elem_of_further, IH.
    + intros H. by apply list_elem_of_further, IH.
Qed.

Lemma parse_properties_subject triples lists u prop :
  prop ∈ parse_properties (Examples.graph_of triples lists) u →
  u ∈ (λ t, t.1.1) <$> triples.
Proof.
  unfold parse_properties, _get_properties. simpl.
  destruct (head (Examples.objects_of triples u (SAMM "properties")))
    as [o|] eqn:Hhead.
  - intros _. apply head_Some_elem_of, objects_of_subject in Hhead.
    apply list_elem_of_fmap. by exists (u, SAMM "properties", o).
  - simpl. intros H. by apply elem_of_nil in H.
Qed.

Lemma rank_checked_references triples lists rank :
  forallb (rank_checked (Examples.graph_of triples lists) rank)
          ((λ t, t.1.1) <$> triples) = true →
  ∀ u u', references (Examples.graph_of triples lists) u u' → rank u' < rank u.
Proof.
  intros Hall u u' (prop & Hin & Hent).
  pose proof (parse_properties_subject _ _ _ _ Hin) as Hu.
  rewrite forallb_forall in Hall.
  specialize (Hall u). rewrite <- list_elem_of_In in Hall. specialize (Hall Hu).
  unfold rank_checked in Hall. rewrite forallb_forall in Hall.
  specialize (Hall prop). rewrite <- list_elem_of_In in Hall. specialize (Hall Hin).
  rewrite Hent in Hall. by apply bool_decide_eq_true in Hall.
Qed.

Lemma flattening_returns_without_cycles_witness :
  is_Some (_parse_aspect 2 Examples.order_graph (URIRef (Examples.ex "Order"))).
Proof.
  apply (flattening_returns_without_cycles Examples.order_graph Examples.order_rank).
  - apply rank_checked_references. vm_compute. reflexivity.
  - vm_compute. lia.
Defined.

(** *** Access paths *)

Lemma siblings_okb_spec props : siblings_okb props = true → siblings_ok props.
Proof.
  unfold siblings_okb, siblings_ok. rewrite andb_true_iff, bool_decide_eq_true.
  intros [Hnd Hall]. split; [done |].
  rewrite forallb_forall in Hall. apply Forall_forall.
  intros prop Hin. apply Hall. by apply list_elem_of_In.
Qed.

Lemma string_app_assoc (a b c : string) : (a +:+ b) +:+ c = a +:+ (b +:+ c).
Proof.
  induction a as [|x a IH]; [done |].
  change (String x ((a +:+ b) +:+ c) = String x (a +:+ (b +:+ c))).
  by rewrite IH.
Qed.

Lemma string_app_nil_r (a : string) : a +:+ "" = a.
Proof.
  induction a as [|x a IH]; [done |].
  change (String x (a +:+ "") = String x a). by rewrite IH.
Qed.

Lemma string_app_dot_nonempty (a b : string) : truthy (Some (a +:+ "." +:+ b)) = true.
Proof. by destruct a. Qed.

(** Two paths with the same base agree on the segment and on the tail. *)
Lemma segment_tail_inj seg :
  ∀ seg' rest rest',
    dot_free seg = true → dot_free seg' = true →
    tail_ok rest → tail_ok rest' →
    seg +:+ rest = seg' +:+ rest' →
    seg = seg' ∧ rest = rest'.
Proof.
  induction seg as [|c seg IH]; intros [|c' seg'] rest rest' Hd Hd' Ht Ht' Heq.
  - done.
  - exfalso. change (rest = String c' (seg' +:+ rest')) in Heq.
    simpl in Hd'. apply andb_true_iff in Hd' as [Hc' _].
    destruct Ht as [->|(more & ->)]; [done |].
    change (String "." more = String c' (seg' +:+ rest')) in Heq.
    by simplify_eq.
  - exfalso. change (String c (seg +:+ rest) = rest') in Heq.
    simpl in Hd. apply andb_true_iff in Hd as [Hc _].
    destruct Ht' as [->|(more & ->)]; [done |].
    change (String c (seg +:+ rest) = String "." more) in Heq.
    by simplify_eq.
  - change (String c (seg +:+ rest) = String c' (seg' +:+ rest')) in Heq.
    simplify_eq. simpl in Hd, Hd'.
    apply andb_true_iff in Hd as [_ Hd]. apply andb_true_iff in Hd' as [_ Hd'].
    destruct (IH seg' rest rest' Hd Hd' Ht Ht' ltac:(done)) as [-> ->]. done.
Qed.

Lemma in_block_inj base seg seg' path :
  dot_free seg = true → dot_free seg' = true →
  in_block base seg path → in_block base seg' path → seg = seg'.
Proof.
  intros Hd Hd' (rest & Ht & ->) (rest' & Ht' & Heq).
  simplify_eq.
  by destruct (segment_tail_inj seg seg' rest rest' Hd Hd' Ht Ht' Heq).
Qed.

(** Blocks of paths under segments that differ do not overlap. *)
Lemma blocks_NoDup base :
  ∀ (segs : list string) (blocks : list (list (option string))),
    Forall2 (λ seg block, NoDup block ∧ Forall (in_block base seg) block) segs blocks →
    NoDup segs → Forall (λ seg, dot_free seg = true) segs →
    NoDup (mjoin blocks)
    ∧ ∀ path, path ∈ mjoin blocks → ∃ seg, seg ∈ segs ∧ in_block base seg path.
Proof.
  induction 1 as [|seg block segs blocks [Hnd Hblock] Hrest IH];
    intros Hsegs Hdots.
  - split; [apply NoDup_nil_2 |]. intros path H. by apply elem_of_nil in H.
  - apply NoDup_cons in Hsegs as [Hseg Hsegs].
    apply Forall_cons in Hdots as [Hdot Hdots].
    destruct (IH Hsegs Hdots) as [IHnd IHin].
    change (mjoin (block :: blocks)) with (block ++ mjoin blocks).
    split.
    + apply NoDup_app. repeat split; [done | | done].
      intros path Hin Hin'.
      destruct (IHin path Hin') as (seg' & Hseg' & Hblock').
      rewrite Forall_forall in Hblock. rewrite Forall_forall in Hdots.
      assert (seg = seg') as ->; [|done].
      eapply in_block_inj; eauto.
    + intros path [Hin|Hin]%elem_of_app.
      * exists seg. split; [apply list_elem_of_here |].
        rewrite Forall_forall in Hblock. by apply Hblock.
      * destruct (IHin path Hin) as (seg' & Hseg' & Hblock').
        exists seg'. split; [by apply list_elem_of_further | done].
Qed.

Lemma flat_mapM_Some_inv {A B : Type} (f : A → option (list B)) :
  ∀ (xs : list A) (l : list B),
    flat_mapM f xs = Some l →
    ∃ blocks, Forall2 (λ x block, f x = Some block) xs blocks ∧ l = mjoin blocks.
Proof.
  induction xs as [|x xs IH]; intros l; simpl.
  - intros ?; simplify_eq. by exists [].
  - destruct (f x) as [ys|] eqn:Hx; [|done]. simpl.
    destruct (flat_mapM f xs) as [zs|]; [|done]. simpl.
    intros ?; simplify_eq.
    destruct (IH zs eq_refl) as (blocks & Hblocks & ->).
    exists (ys :: blocks). split; [by constructor | done].
Qed.

Lemma parse_properties_json_path g u prop :
  prop ∈ parse_properties g u → json_path prop = None.
Proof.
  unfold parse_properties. intros Hin.
  change (map ?f ?l) with (f <$> l) in Hin.
  apply list_elem_of_fmap in Hin as ([prop_uri prop_info] & -> & _). done.
Qed.

Lemma top_level_path g u prop :
  prop ∈ parse_properties g u →
  json_path (set_top_level_path prop) = Some (segment prop)
  ∧ segment (set_top_level_path prop) = segment prop.
Proof.
  intros Hin. unfold set_top_level_path.
  by rewrite (parse_properties_json_path _ _ _ Hin).
Qed.

Section Paths.
Context (g : Graph).
Hypothesis siblings : ∀ u, siblings_ok (parse_properties g u).

(** The paths below an Entity all start with the parent's path and a dot,
    and no two of them are the same. *)
Lemma extract_paths fuel :
  ∀ u parent_path parent_name parent_is_collection nested,
    _extract_nested_properties fuel g (_parse_entity g u)
      parent_path parent_name parent_is_collection = Some nested →
    NoDup (json_path <$> nested)
    ∧ Forall (λ prop, ∃ s, json_path prop = Some (parent_path +:+ "." +:+ s)) nested.
Proof.
  induction fuel as [|fuel IH];
    intros u parent_path parent_name parent_is_collection nested; [done |].
  rewrite extract_S. intros Hrun.
  apply flat_mapM_Some_inv in Hrun as (blocks & Hblocks & ->).
  destruct (siblings u) as [Hsegs Hdots].
  change (e_properties (_parse_entity g u)) with (parse_properties g u) in Hblocks.
  assert (Hpaths :
    Forall2 (λ seg block, NoDup block ∧ Forall (in_block (parent_path +:+ ".") seg) block)
            (segment <$> parse_properties g u)
            (fmap (M := list) json_path <$> blocks)).
  { clear Hsegs Hdots. apply Forall2_fmap.
    eapply Forall2_impl; [exact Hblocks |].
    intros entity_prop block. cbv beta zeta. rewrite entity_of_nested_copy.
    set (nested_prop := nested_copy entity_prop parent_path parent_name
                                    parent_is_collection).
    assert (Hhere : in_block (parent_path +:+ ".") (segment entity_prop)
                             (json_path nested_prop)).
    { exists "". split; [by left |]. simpl.
      by rewrite string_app_nil_r, string_app_assoc. }
    destruct (entity_of_property g entity_prop) as [u'|].
    - destruct (_extract_nested_properties fuel g (_parse_entity g u')
                  (text (json_path nested_prop)) (local_name nested_prop)
                  (is_collection nested_prop)) as [deeper|] eqn:Hdeeper; [|done].
      simpl. intros ?; simplify_eq.
      destruct (IH _ _ _ _ _ Hdeeper) as [Hnd Hunder].
      assert (Hbelow : Forall (λ prop, ∃ more,
                json_path prop
                = Some ((parent_path +:+ ".")
                        +:+ (segment entity_prop +:+ ("." +:+ more)))) deeper).
      { eapply Forall_impl; [exact Hunder |].
        intros prop (s & ->). exists s. f_equal. simpl.
        by rewrite !string_app_assoc. }
      rewrite fmap_cons. split.
      + apply NoDup_cons. split; [|done].
        intros Hin. apply list_elem_of_fmap in Hin as (prop & Heq & Hin).
        rewrite Forall_forall in Hbelow.
        destruct (Hbelow prop Hin) as (more & Hprop).
        destruct Hhere as (rest & _ & Hrest).
        simpl in Heq. rewrite Hprop in Heq. simpl in Heq.
        rewrite string_app_assoc in Heq. fold (segment entity_prop) in Heq.
        simplify_eq.
        rewrite <- (string_app_nil_r (segment entity_prop)) in Heq at 1.
        by simplify_eq.
      + constructor; [done |]. apply Forall_fmap.
        eapply Forall_impl; [exact Hbelow |].
        intros prop (more & Hprop). exists ("." +:+ more). split; [|done].
        right. by exists more.
    - intros ?; simplify_eq. rewrite fmap_cons. split.
      + apply NoDup_singleton.
      + by repeat constructor. }
  destruct (blocks_NoDup _ _ _ Hpaths Hsegs) as [Hnd Hin].
  { apply Forall_fmap. exact Hdots. }
  assert (Hjoin : json_path <$> mjoin blocks = mjoin (fmap (M := list) json_path <$> blocks)).
  { clear. induction blocks as [|b blocks IHb]; [done |].
    change (mjoin (b :: blocks)) with (b ++ mjoin blocks).
    rewrite fmap_app, IHb. done. }
  rewrite Hjoin. split; [done |].
  apply Forall_forall. intros prop Hprop.
  destruct (Hin (json_path prop)) as (seg & _ & rest & _ & ->).
  { rewrite <- Hjoin. by apply list_elem_of_fmap_2. }
  exists (seg +:+ rest). by rewrite string_app_assoc.
Qed.
End Paths.

Lemma fmap_mjoin {A B : Type} (f : A → B) (blocks : list (list A)) :
  f <$> mjoin blocks = mjoin (fmap (M := list) f <$> blocks).
Proof.
  induction blocks as [|b blocks IH]; [done |].
  change (mjoin (b :: blocks)) with (b ++ mjoin blocks).
  by rewrite fmap_app, IH.
Qed.

Lemma Forall2_mjoin_elem {A B : Type} (Q : A → B → Prop) :
  ∀ (xs : list A) (blocks : list (list B)) (y : B),
    Forall2 (λ x block, Forall (Q x) block) xs blocks →
    y ∈ mjoin blocks → ∃ x, x ∈ xs ∧ Q x y.
Proof.
  intros xs blocks y Hall. induction Hall as [|x block xs blocks Hblock _ IH].
  - intros H. by apply elem_of_nil in H.
  - change (mjoin (block :: blocks)) with (block ++ mjoin blocks).
    intros [Hin|Hin]%elem_of_app.
    + exists x. split; [apply list_elem_of_here |].
      rewrite Forall_forall in Hblock. by apply Hblock.
    + destruct (IH Hin) as (x' & Hx' & HQ).
      exists x'. split; [by apply list_elem_of_further | done].
Qed.

(** A nested Property has a path that is not empty, whatever the model. *)
Lemma extract_nonempty g fuel :
  ∀ entity parent_path parent_name parent_is_collection nested,
    _extract_nested_properties fuel g entity
      parent_path parent_name parent_is_collection = Some nested →
    Forall (λ prop, truthy (json_path prop) = true) nested.
Proof.
  induction fuel as [|fuel IH];
    intros entity parent_path parent_name parent_is_collection nested; [done |].
  rewrite extract_S. intros Hrun.
  apply flat_mapM_Some_inv in Hrun as (blocks & Hblocks & ->).
  apply Forall_forall. intros prop Hprop.
  destruct (Forall2_mjoin_elem (λ _ p, truthy (json_path p) = true)
              (e_properties entity) blocks prop) as (_ & _ & Hpath); [| done | done].
  eapply Forall2_impl; [exact Hblocks |].
  intros entity_prop block. cbv beta zeta. rewrite entity_of_nested_copy.
  destruct (entity_of_property g entity_prop) as [u'|].
  - destruct (_extract_nested_properties fuel g (_parse_entity g u') _ _ _)
      as [deeper|] eqn:Hdeeper; [| done].
    simpl. intros ?; simplify_eq. constructor.
    + apply string_app_dot_nonempty.
    + by eapply IH.
  - intros ?; simplify_eq. constructor; [| constructor].
    apply string_app_dot_nonempty.
Qed.

(** The second loop of [_parse_aspect] only appends, and what it appends
    has paths that are not empty. *)
Lemma nested_loop_appends g fuel :
  ∀ props entities all_properties entities' all_properties',
    nested_loop fuel g props entities all_properties
    = Some (entities', all_properties') →
    ∃ nested,
      all_properties' = all_properties ++ nested
      ∧ Forall (λ prop, truthy (json_path prop) = true) nested.
Proof.
  induction props as [|prop props IH];
    intros entities all_properties entities' all_properties'; simpl.
  - intros ?; simplify_eq. exists []. split; [by rewrite app_nil_r | constructor].
  - destruct (entity_of_property g prop) as [u|]; [| apply IH].
    destruct (match dict_get (Parser.str u) entities with
              | Some entity => (entity, entities)
              | None => (_parse_entity g u,
                         dict_set (Parser.str u) (_parse_entity g u) entities)
              end) as [entity entities0].
    destruct (_extract_nested_properties fuel g entity
                (or_str (payload_name prop) (local_name prop))
                (local_name prop) (is_collection prop))
      as [nested_props|] eqn:Hnested; [| done].
    simpl. intros Hloop.
    destruct (IH _ _ _ _ Hloop) as (nested & -> & Hnonempty).
    exists (nested_props ++ nested). split; [by rewrite app_assoc |].
    apply Forall_app. split; [by eapply extract_nonempty | done].
Qed.

Section TopLevel.
Context (g : Graph).
Hypothesis siblings : ∀ u, siblings_ok (parse_properties g u).

(** What the loop over the top-level Properties appends: per Property a
    block of paths that start with its segment and a dot. *)
Lemma nested_loop_paths fuel :
  ∀ props entities all_properties entities' all_properties',
    cache_from g (λ _, True) entities →
    nested_loop fuel g props entities all_properties
    = Some (entities', all_properties') →
    ∃ blocks,
      all_properties' = all_properties ++ mjoin blocks
      ∧ Forall2 (λ prop block,
                   NoDup (json_path <$> block)
                   ∧ Forall (λ p, ∃ s, json_path p
                                       = Some (segment prop +:+ "." +:+ s)) block)
                props blocks.
Proof.
  induction props as [|prop props IH];
    intros entities all_properties entities' all_properties' Hcache; simpl.
  - intros ?; simplify_eq. exists []. split; [by rewrite app_nil_r | constructor].
  - destruct (entity_of_property g prop) as [u|].
    + assert (Hentity : ∃ u0 entities0,
        cache_from g (λ _, True) entities0
        ∧ match dict_get (Parser.str u) entities with
          | Some entity => (entity, entities)
          | None => (_parse_entity g u,
                     dict_set (Parser.str u) (_parse_entity g u) entities)
          end = (_parse_entity g u0, entities0)).
      { destruct (dict_get (Parser.str u) entities) as [entity|] eqn:Hget.
        - destruct (cache_from_get _ _ _ _ _ Hcache Hget) as (u0 & -> & _).
          by exists u0, entities.
        - exists u, (dict_set (Parser.str u) (_parse_entity g u) entities).
          split; [by apply cache_from_set | done]. }
      destruct Hentity as (u0 & entities0 & Hcache0 & ->).
      destruct (_extract_nested_properties fuel g (_parse_entity g u0)
                  (or_str (payload_name prop) (local_name prop))
                  (local_name prop) (is_collection prop))
        as [nested|] eqn:Hnested; [|done].
      simpl. intros Hloop.
      destruct (IH _ _ _ _ Hcache0 Hloop) as (blocks & -> & Hblocks).
      exists (nested :: blocks). split.
      * change (mjoin (nested :: blocks)) with (nested ++ mjoin blocks).
        by rewrite app_assoc.
      * constructor; [|done].
        exact (extract_paths g siblings fuel _ _ _ _ _ Hnested).
    + intros Hloop.
      destruct (IH _ _ _ _ Hcache Hloop) as (blocks & -> & Hblocks).
      exists ([] :: blocks). split; [done |].
      constructor; [|done]. split; [apply NoDup_nil_2 | constructor].
Qed.

Lemma parse_aspect_paths fuel aspect_uri aspect :
  _parse_aspect fuel g aspect_uri = Some aspect →
  NoDup (json_path <$> a_properties aspect).
Proof.
  unfold _parse_aspect.
  change (map set_top_level_path ?l) with (set_top_level_path <$> l).
  set (props := parse_properties g aspect_uri) in *.
  destruct (nested_loop fuel g (set_top_level_path <$> props) []
                        (set_top_level_path <$> props))
    as [[entities all_properties]|] eqn:Hloop; [|done].
  simpl. intros ?; simplify_eq. simpl.
  apply nested_loop_paths in Hloop as (blocks & -> & Hblocks); [|constructor].
  destruct (siblings aspect_uri) as [Hsegs Hdots]. fold props in Hsegs, Hdots.
  assert (Htop : ∀ prop, prop ∈ props →
            json_path (set_top_level_path prop) = Some (segment prop)
            ∧ segment (set_top_level_path prop) = segment prop).
  { intros prop Hin. by apply (top_level_path g aspect_uri). }
  assert (Htops : json_path <$> (set_top_level_path <$> props)
                  = Some <$> (segment <$> props)).
  { rewrite <- !list_fmap_compose. apply Forall_fmap_ext_1, Forall_forall.
    intros prop Hin. simpl. by apply Htop. }
  apply Forall2_fmap_l in Hblocks.
  assert (Hunder : Forall2 (λ prop block,
            NoDup (json_path <$> block)
            ∧ Forall (λ p, ∃ s, json_path p = Some (segment prop +:+ "." +:+ s)) block)
            props blocks).
  { clear -Hblocks Htop. induction Hblocks as [|prop block ps bs [Hnd Hb] _ IH];
      constructor.
    - destruct (Htop prop (list_elem_of_here _ _)) as [_ Hseg].
      rewrite Hseg in Hb. done.
    - apply IH. intros p Hp. by apply Htop, list_elem_of_further. }
  clear Hblocks.
  - rewrite fmap_app, Htops. apply NoDup_app. repeat split.
    + by apply (NoDup_fmap_2 Some).
    + intros path Htoppath Hnested.
      apply list_elem_of_fmap in Htoppath as (seg & -> & Hseg).
      apply list_elem_of_fmap in Hseg as (prop & -> & Hprop).
      apply list_elem_of_fmap in Hnested as (p & Hpath & Hp).
      destruct (Forall2_mjoin_elem
                  (λ prop p, ∃ s, json_path p = Some (segment prop +:+ "." +:+ s))
                  props blocks p) as (prop' & Hprop' & s & Hs); [| done |].
      { eapply Forall2_impl; [exact Hunder |]. by intros ?? [_ ?]. }
      rewrite Hs in Hpath. simplify_eq.
      rewrite Forall_forall in Hdots.
      destruct (segment_tail_inj (segment prop) (segment prop') "" ("." +:+ s))
        as [_ Habs]; try by apply Hdots.
      * by left.
      * right. by exists s.
      * by rewrite string_app_nil_r.
      * done.
    + rewrite fmap_mjoin.
      apply (blocks_NoDup "" (segment <$> props)).
      * apply Forall2_fmap. eapply Forall2_impl; [exact Hunder |].
        intros prop block [Hnd Hb]. split; [done |].
        apply Forall_fmap. eapply Forall_impl; [exact Hb |].
        intros p (s & Hs). exists ("." +:+ s). split; [right; by exists s |].
        simpl. by rewrite Hs.
      * done.
      * by apply Forall_fmap.
Qed.
End TopLevel.

(** The claim C7 fails as stated, on both parts: two Properties of one
    Aspect with the same local name get the same access path; and a
    Property whose URI ends with the hash gets the empty access path. *)
Lemma flattened_paths_can_repeat_or_be_empty :
  (∃ aspect,
     _parse_aspect 0 Examples.catalog_graph (URIRef (Examples.ex "Catalog"))
     = Some aspect
     ∧ ¬ NoDup (json_path <$> a_properties aspect))
  ∧ ∃ aspect,
      _parse_aspect 0 Examples.unnamed_graph (URIRef (Examples.ex "Sheet"))
      = Some aspect
      ∧ json_path <$> a_properties aspect = [Some ""].
Proof.
  split.
  - eexists. split; [reflexivity |].
    vm_compute. intros H.
    apply NoDup_cons in H as [Hnot _].
    apply Hnot, list_elem_of_here.
  - eexists. split; reflexivity.
Qed.

(** C7, amended.  A flattened sequence is the Aspect's own Properties
    followed by the nested ones.  Every nested Property has a [json_path]
    that is not empty, whatever the model; a top-level Property has its
    segment (payload name, else local name) as [json_path], which is not
    empty exactly when the segment is not.  When the Properties of every
    Aspect and Entity have segments that differ from each other and hold no
    dot, no two Properties of the sequence have the same [json_path]. *)
Theorem flattened_paths (g : Graph) (fuel : nat) (aspect_uri : Node)
    (aspect : SAMMAspect) :
  _parse_aspect fuel g aspect_uri = Some aspect →
  ∃ nested,
    a_properties aspect
    = (set_top_level_path <$> parse_properties g aspect_uri) ++ nested
    ∧ Forall (λ prop, json_path prop = Some (segment prop)
                      ∧ (truthy (json_path prop) = true ↔ segment prop ≠ ""))
             (set_top_level_path <$> parse_properties g aspect_uri)
    ∧ Forall (λ prop, truthy (json_path prop) = true) nested
    ∧ ((∀ u, siblings_ok (parse_properties g u)) →
       NoDup (json_path <$> a_properties aspect)).
Proof.
  intros Hparse.
  assert (Hshape : ∃ nested,
    a_properties aspect
    = (set_top_level_path <$> parse_properties g aspect_uri) ++ nested
    ∧ Forall (λ prop, truthy (json_path prop) = true) nested).
  { revert Hparse. unfold _parse_aspect.
    change (map set_top_level_path ?l) with (set_top_level_path <$> l).
    destruct (nested_loop fuel g _ [] _) as [[entities all_properties]|] eqn:Hloop;
      [| done].
    simpl. intros ?; simplify_eq. simpl.
    by apply nested_loop_appends in Hloop. }
  destruct Hshape as (nested & Happ & Hnested).
  exists nested. split; [done | split; [| split; [done |]]].
  - apply Forall_fmap, Forall_forall. intros prop Hin. simpl.
    destruct (top_level_path g aspect_uri prop Hin) as [-> ->].
    split; [done |]. simpl. by rewrite negb_true_iff, String.eqb_neq.
  - intros Hsiblings. by eapply parse_aspect_paths.
Qed.

Lemma siblings_checked triples lists :
  forallb (λ u, siblings_okb (parse_properties (Examples.graph_of triples lists) u))
          ((λ t, t.1.1) <$> triples) = true →
  ∀ u, siblings_ok (parse_properties (Examples.graph_of triples lists) u).
Proof.
  intros Hall u.
  destruct (parse_properties (Examples.graph_of triples lists) u) as [|prop props]
    eqn:Hprops.
  - split; [apply NoDup_nil_2 | constructor].
  - rewrite <- Hprops. apply siblings_okb_spec.
    rewrite forallb_forall in Hall. apply Hall, list_elem_of_In.
    apply (parse_properties_subject _ lists _ prop).
    rewrite Hprops. apply list_elem_of_here.
Qed.

Lemma flattened_paths_witness :
  ∃ aspect nested,
    _parse_aspect 2 Examples.order_graph (URIRef (Examples.ex "Order")) = Some aspect
    ∧ a_properties aspect
      = (set_top_level_path
           <$> parse_properties Examples.order_graph (URIRef (Examples.ex "Order")))
        ++ nested
    ∧ Forall (λ prop, truthy (json_path prop) = true) nested
    ∧ NoDup (json_path <$> a_properties aspect).
Proof.
  eexists.
  destruct (flattened_paths Examples.order_graph 2 (URIRef (Examples.ex "Order"))
              _ eq_refl) as (nested & Happ & _ & Hnested & Hunique).
  exists nested. split; [reflexivity | split; [exact Happ | split; [exact Hnested |]]].
  apply Hunique, siblings_checked. vm_compute. reflexivity.
Defined.

(** * Further properties of the code *)

(** ** Paths and their segments *)










(** ** Type names *)

Lemma lower_ascii_idemp c : lower_ascii (lower_ascii c) = lower_ascii c.
Proof. by destruct c as [[] [] [] [] [] [] [] []]. Qed.

Lemma lower_idemp (s : string) : lower (lower s) = lower s.
Proof.
  induction s as [|c r IH]; [done |]. simpl. by rewrite lower_ascii_idemp, IH.
Qed.

Lemma contains_char_cons (c x : ascii) (r : string) :
  contains (String c "") (String x r)
  = bool_decide (c = x) || contains (String c "") r.
Proof.
  simpl. destruct (ascii_dec c x) as [->|Hne].
  - rewrite bool_decide_eq_true_2 by done. by destruct r.
  - by rewrite bool_decide_eq_false_2.
Qed.

Lemma split_without sep (s : string) :
  contains (String sep "") s = false → split sep s = [s].
Proof.
  induction s as [|x r IH]; [done |].
  rewrite contains_char_cons. intros [Hx Hr]%orb_false_iff.
  apply bool_decide_eq_false in Hx. simpl.
  rewrite decide_False by done. by rewrite IH.
Qed.

Lemma last_part_cons (h : string) (t : list string) :
  t ≠ [] → last_part (h :: t) = last_part t.
Proof. by destruct t. Qed.

Lemma last_part_split_cons sep c (r : string) :
  last_part (split sep (String c r))
  = if decide (c = sep) then last_part (split sep r)
    else match split sep r with
         | [h] => String c h
         | _ => last_part (split sep r)
         end.
Proof.
  simpl. destruct (decide (c = sep)).
  - apply last_part_cons, split_not_nil.
  - pose proof (split_not_nil sep r).
    destruct (split sep r) as [|h [|h' t]]; done.
Qed.

Lemma split_single_without sep (s h : string) :
  split sep s = [h] → contains (String sep "") s = false.
Proof.
  revert h. induction s as [|x r IH]; intros h; [done |].
  rewrite contains_char_cons. simpl.
  destruct (decide (x = sep)) as [->|Hne].
  - pose proof (split_not_nil sep r). intros ?; simplify_eq.
  - rewrite bool_decide_eq_false_2 by done. simpl.
    destruct (split sep r) as [|h0 [|h1 t]] eqn:Hr; intros ?; simplify_eq.
    + by destruct (split_not_nil sep r).
    + by eapply IH.
Qed.

(** After the last separator: the part [name] that holds none. *)
Lemma last_part_after_separator sep (prefix name : string) :
  contains (String sep "") name = false →
  last_part (split sep (prefix +:+ String sep name)) = name.
Proof.
  intros Hname. induction prefix as [|c prefix IH].
  - change ("" +:+ String sep name) with (String sep name).
    rewrite last_part_split_cons, decide_True by done.
    by rewrite split_without.
  - change (String c prefix +:+ String sep name)
      with (String c (prefix +:+ String sep name)).
    rewrite last_part_split_cons.
    destruct (decide (c = sep)); [done |].
    destruct (split sep (prefix +:+ String sep name)) as [|h [|h' t]] eqn:Hs;
      try done.
    apply split_single_without in Hs.
    exfalso. clear -Hs. induction prefix as [|x prefix IH].
    + change ("" +:+ String sep name) with (String sep name) in Hs.
      rewrite contains_char_cons, bool_decide_eq_true_2 in Hs; done.
    + change (String x prefix +:+ String sep name)
        with (String x (prefix +:+ String sep name)) in Hs.
      rewrite contains_char_cons in Hs.
      apply orb_false_iff in Hs as [_ Hs]. by apply IH.
Qed.

Lemma contains_separator sep (prefix name : string) :
  contains (String sep "") (prefix +:+ String sep name) = true.
Proof.
  induction prefix as [|c prefix IH].
  - change ("" +:+ String sep name) with (String sep name).
    by rewrite contains_char_cons, bool_decide_eq_true_2.
  - change (String c prefix +:+ String sep name)
      with (String c (prefix +:+ String sep name)).
    rewrite contains_char_cons, IH. by destruct (bool_decide _).
Qed.

Lemma normalize_type_of_hash (namespace name : string) :
  contains "#" name = false →
  _normalize_type (namespace +:+ "#" +:+ name) = lower name.
Proof.
  intros Hname. unfold _normalize_type, fragment_name.
  change (namespace +:+ "#" +:+ name) with (namespace +:+ String "#" name).
  rewrite (contains_separator "#"). by rewrite last_part_after_separator.
Qed.

Lemma normalize_type_lower (data_type : string) :
  lower (_normalize_type data_type) = _normalize_type data_type.
Proof. apply lower_idemp. Qed.

(** X3.  Two data types that differ in namespace or in letter case only are
    the same type to the planner: the pair is never planned as a cast and no
    cannot-cast warning is logged. *)
Theorem same_type_name_is_never_cast source_prop target_prop
    (ns1 ns2 name1 name2 : string) :
  data_type source_prop = Some (ns1 +:+ "#" +:+ name1) →
  data_type target_prop = Some (ns2 +:+ "#" +:+ name2) →
  contains "#" name1 = false → contains "#" name2 = false →
  lower name1 = lower name2 →
  (_determine_transformation_type source_prop target_prop).1 ≠ "type_cast"
  ∧ (_determine_transformation_type source_prop target_prop).2 = [].
Proof.
  intros Hs Ht H1 H2 Heq.
  unfold _determine_transformation_type, data_type_step.
  rewrite Hs, Ht. simpl.
  rewrite !normalize_type_of_hash, Heq, String.eqb_refl by done.
  destruct (negb _ && negb _); simpl;
    by destruct (characteristic_step source_prop target_prop).
Qed.

Lemma same_type_name_is_never_cast_witness :
  (_determine_transformation_type Cases.amount_xsd Cases.amount_other).1 ≠ "type_cast"
  ∧ (_determine_transformation_type Cases.amount_xsd Cases.amount_other).2 = [].
Proof.
  apply (same_type_name_is_never_cast Cases.amount_xsd Cases.amount_other
           "http://www.w3.org/2001/XMLSchema" "urn:samm:io.types:1.0.0"
           "decimal" "Decimal"); reflexivity.
Defined.

(** X4.  No data type reaches the two camel-case entries of
    [TYPE_CAST_MAP]: the normalized name is in lower case, so the table
    answers as it would without them. *)
Theorem camel_case_cast_entries_are_dead (data_type : string) :
  TYPE_CAST_MAP !! _normalize_type data_type
  = delete "nonNegativeInteger" (delete "positiveInteger" TYPE_CAST_MAP)
    !! _normalize_type data_type.
Proof.
  assert (Hne : ∀ key, lower key ≠ key → _normalize_type data_type ≠ key).
  { intros key Hkey Heq. apply Hkey. rewrite <- Heq. apply normalize_type_lower. }
  rewrite !lookup_delete_ne; [done | |]; apply not_eq_sym, Hne; by vm_compute.
Qed.

(** ** Fragments *)

Lemma string_app_nonempty_r (a b : string) : b ≠ "" → a +:+ b ≠ "".
Proof. intros Hb. destruct a; [done |]. discriminate. Qed.

Lemma generated_fragment_nonempty source_prop target_prop kind :
  (_generate_jsonata_expression source_prop target_prop kind).1 ≠ "".
Proof.
  unfold _generate_jsonata_expression, base_expr_of.
  repeat case_match; simpl; try discriminate;
    apply string_app_nonempty_r; discriminate.
Qed.

(** X5.  Whatever the pair, the fragment of the mapping [create_mapping]
    builds is not the empty string, and the mapping carries the pair, the
    method and the confidence it was given. *)
Theorem created_mapping_has_a_fragment source_prop target_prop method conf :
  let mapping := (create_mapping source_prop target_prop method conf).1 in
  jsonata_fragment mapping ≠ ""
  ∧ source_property mapping = source_prop
  ∧ target_property mapping = target_prop
  ∧ mapping_method mapping = method
  ∧ confidence mapping = conf
  ∧ transformation_type mapping ∈ ["direct"; "type_cast"; "structure_transform"].
Proof.
  simpl. unfold create_mapping.
  pose proof (generated_fragment_nonempty source_prop target_prop
                (_determine_transformation_type source_prop target_prop).1) as Hne.
  assert (Hkind : (_determine_transformation_type source_prop target_prop).1
                  ∈ ["direct"; "type_cast"; "structure_transform"]).
  { unfold _determine_transformation_type, data_type_step.
    repeat case_match; simplify_eq; simpl; set_solver. }
  destruct (_determine_transformation_type source_prop target_prop) as [kind log1].
  simpl in Hne, Hkind.
  destruct (_generate_jsonata_expression source_prop target_prop kind)
    as [fragment log2]. simpl in *.
  by repeat split.
Qed.

Lemma can_cast_to_string_or_boolean (source_type target_type : string) :
  target_type ∈ ["string"; "boolean"] → _can_cast source_type target_type = true.
Proof.
  unfold _can_cast. rewrite !elem_of_cons, elem_of_nil.
  intros [->|[->|[]]]; repeat case_match; try done.
  - by rewrite orb_true_r in *.
Qed.

(** X6.  A pair whose target type is [string] or [boolean] and whose source
    type is another one is always planned as a cast, and the fragment is the
    cast function of that name applied to the access expression, with
    nothing logged. *)
Theorem cast_to_string_or_boolean source_prop target_prop method conf
    (target_type : string) :
  truthy (data_type source_prop) = true →
  truthy (data_type target_prop) = true →
  _normalize_type (text (data_type target_prop)) = target_type →
  target_type ∈ ["string"; "boolean"] →
  _normalize_type (text (data_type source_prop)) ≠ target_type →
  let '(mapping, log) := create_mapping source_prop target_prop method conf in
  transformation_type mapping = "type_cast"
  ∧ jsonata_fragment mapping
    = "$" +:+ target_type +:+ "("
      +:+ (_generate_jsonata_expression source_prop target_prop "direct").1 +:+ ")"
  ∧ log = [].
Proof.
  intros Hs Ht Htype Hin Hne.
  unfold create_mapping, _determine_transformation_type, data_type_step.
  rewrite Hs, Ht. simpl. rewrite Htype.
  apply String.eqb_neq in Hne. rewrite Hne. simpl.
  rewrite can_cast_to_string_or_boolean by done.
  unfold _generate_jsonata_expression. simpl. rewrite Htype.
  apply elem_of_cons in Hin as [->|Hin]; [done |].
  apply list_elem_of_singleton in Hin as ->. done.
Qed.

Lemma cast_to_string_or_boolean_witness :
  let '(mapping, log) :=
    create_mapping Examples.quantity_nonneg Examples.quantity_source
                   "property_uri_match" (7 # 10) in
  transformation_type mapping = "type_cast"
  ∧ jsonata_fragment mapping = "$string($.quantity)"
  ∧ log = [].
Proof.
  apply (cast_to_string_or_boolean Examples.quantity_nonneg Examples.quantity_source
           "property_uri_match" (7 # 10) "string"); try reflexivity.
  - apply list_elem_of_here.
  - vm_compute. discriminate.
Defined.

(** ** More on document assembly *)

Lemma dict_set_set {V : Type} (k : string) (v : V) (d : list (string * V)) :
  dict_set k v (dict_set k v d) = dict_set k v d.
Proof. apply dict_set_same, dict_get_set_eq. Qed.

Lemma get_path_empty (keys : list string) :
  keys ≠ [] → get_path (JDict []) keys = None.
Proof. by destruct keys. Qed.

Lemma set_nested_keys_lookup inner final path value :
  ∀ obj,
    (∀ c, get_path (JDict obj) (inner ++ [final]) ≠ Some (JDict c)) →
    get_path (JDict (set_nested_keys obj inner final path value).1) (inner ++ [final])
    = Some value.
Proof.
  induction inner as [|key rest IH]; intros obj Hfree; simpl in *.
  - destruct (dict_get final obj) as [[s|c]|] eqn:Hget; simpl.
    + by rewrite dict_get_set_eq.
    + by destruct (Hfree c).
    + by rewrite dict_get_set_eq.
  - assert (Hfresh : get_path (JDict (set_nested_keys [] rest final path value).1)
                              (rest ++ [final]) = Some value).
    { apply IH. intros c. rewrite get_path_empty; [done |]. by destruct rest. }
    destruct (dict_get key obj) as [[s|entries]|] eqn:Hget.
    + destruct (set_nested_keys [] rest final path value) as [child log].
      simpl in *. by rewrite dict_get_set_eq.
    + specialize (IH entries Hfree).
      destruct (set_nested_keys entries rest final path value) as [child log].
      simpl in *. by rewrite dict_get_set_eq.
    + destruct (set_nested_keys [] rest final path value) as [child log].
      simpl in *. by rewrite dict_get_set_eq.
Qed.

Lemma set_nested_keys_one_warning inner final path value :
  ∀ obj, length (set_nested_keys obj inner final path value).2 ≤ 1.
Proof.
  induction inner as [|key rest IH]; intros obj; simpl.
  - destruct (negb (is_dict (dict_get final obj))); simpl; lia.
  - destruct (dict_get key obj) as [[s|entries]|].
    + rewrite set_nested_keys_fresh. simpl. lia.
    + specialize (IH entries).
      by destruct (set_nested_keys entries rest final path value).
    + rewrite set_nested_keys_fresh. simpl. lia.
Qed.

Lemma set_nested_keys_idemp inner final path value :
  ∀ obj,
    (set_nested_keys (set_nested_keys obj inner final path value).1
                     inner final path value).1
    = (set_nested_keys obj inner final path value).1.
Proof.
  induction inner as [|key rest IH]; intros obj; simpl.
  - destruct (dict_get final obj) as [[s|c]|] eqn:Hget; simpl.
    + rewrite dict_get_set_eq.
      destruct value as [s'|c']; simpl; [apply dict_set_set | done].
    + by rewrite Hget.
    + rewrite dict_get_set_eq.
      destruct value as [s'|c']; simpl; [apply dict_set_set | done].
  - assert (Hstep : ∀ start child (log : list LogRecord),
      set_nested_keys start rest final path value = (child, log) →
      (match dict_get key (dict_set key (JDict child) obj) with
       | Some (JStr _) =>
           let '(child0, log0) := set_nested_keys [] rest final path value in
           (dict_set key (JDict child0) (dict_set key (JDict child) obj),
            overwrite_warning key :: log0)
       | Some (JDict entries) =>
           let '(child0, log0) := set_nested_keys entries rest final path value in
           (dict_set key (JDict child0) (dict_set key (JDict child) obj), log0)
       | None =>
           let '(child0, log0) := set_nested_keys [] rest final path value in
           (dict_set key (JDict child0) (dict_set key (JDict child) obj), log0)
       end).1 = dict_set key (JDict child) obj).
    { intros start child log Hc. rewrite dict_get_set_eq.
      specialize (IH start). rewrite Hc in IH. simpl in IH.
      destruct (set_nested_keys child rest final path value) as [child' log'].
      simpl in *. subst child'. apply dict_set_set. }
    destruct (dict_get key obj) as [[s|entries]|].
    + destruct (set_nested_keys [] rest final path value) as [child log] eqn:Hc.
      by apply (Hstep []) in Hc.
    + destruct (set_nested_keys entries rest final path value) as [child log] eqn:Hc.
      by apply (Hstep entries) in Hc.
    + destruct (set_nested_keys [] rest final path value) as [child log] eqn:Hc.
      by apply (Hstep []) in Hc.
Qed.

Lemma set_nested_keys_keeps inner final path value :
  ∀ obj (q : list string),
    is_Some (get_path (JDict obj) q) →
    is_Some (get_path (JDict (set_nested_keys obj inner final path value).1) q).
Proof.
  induction inner as [|key rest IH]; intros obj [|k1 q'] Hsome; try done.
  - simpl in *.
    destruct (negb (is_dict (dict_get final obj))) eqn:Hdict; simpl; [|done].
    destruct (decide (final = k1)) as [->|Hne].
    + rewrite dict_get_set_eq.
      destruct (dict_get k1 obj) as [[s|c]|]; try done.
      destruct q'; [done | by destruct Hsome].
    + by rewrite dict_get_set_ne.
  - assert (Hstep : ∀ child (log : list LogRecord),
      (k1 = key → is_Some (get_path (JDict child) q')) →
      is_Some (get_path (JDict (dict_set key (JDict child) obj, log).1) (k1 :: q'))).
    { intros child log Hchild. simpl.
      destruct (decide (key = k1)) as [->|Hne].
      - rewrite dict_get_set_eq. by apply Hchild.
      - by rewrite dict_get_set_ne. }
    simpl in Hsome. simpl.
    destruct (dict_get key obj) as [[s|entries]|] eqn:Hk.
    + destruct (set_nested_keys [] rest final path value) as [child log].
      apply Hstep. intros ->. rewrite Hk in Hsome.
      destruct q'; [done | by destruct Hsome].
    + pose proof (IH entries q') as IH'.
      destruct (set_nested_keys entries rest final path value) as [child log].
      apply Hstep. intros ->. rewrite Hk in Hsome. by apply IH'.
    + destruct (set_nested_keys [] rest final path value) as [child log].
      apply Hstep. intros ->. rewrite Hk in Hsome. by destruct Hsome.
Qed.

(** Writing a fragment where the same walk put a fragment before. *)
Lemma set_nested_keys_nest inner final path (old : string) value :
  set_nested_keys (nest inner final (JStr old)) inner final path value
  = (nest inner final value, []).
Proof.
  induction inner as [|key rest IH]; simpl.
  - by rewrite !decide_True.
  - rewrite decide_True by done. rewrite IH. simpl. by rewrite decide_True.
Qed.

(** X7.  Insert, then look up: unless the path held a dictionary before,
    the document read along the path gives the value just written. *)
Theorem set_then_get obj path value :
  (∀ c, get_path (JDict obj) (split "." path) ≠ Some (JDict c)) →
  get_path (JDict (_set_nested_path obj path value).1) (split "." path) = Some value.
Proof.
  intros Hfree. unfold _set_nested_path.
  pose proof (set_nested_keys_lookup (init_parts (split "." path))
                (last_part (split "." path)) path value obj) as Hlookup.
  rewrite split_init_last in Hlookup. by apply Hlookup.
Qed.

Lemma set_then_get_witness :
  get_path
    (JDict (_set_nested_path Examples.document "pcf.value" (JStr "$.v")).1)
    (split "." "pcf.value")
  = Some (JStr "$.v").
Proof.
  apply (set_then_get Examples.document "pcf.value" (JStr "$.v")).
  intros c. vm_compute. discriminate.
Defined.

(** X8.  The document assembled from one mapping holds that mapping's
    fragment at its target path, and nothing is logged. *)
Theorem single_mapping_round_trip (mapping : PropertyMapping) :
  let '(document, log) := build_complete_transformation [mapping] in
  get_path (JDict document) (split "." (target_path_of mapping))
  = Some (JStr (jsonata_fragment mapping))
  ∧ log = [].
Proof.
  unfold build_complete_transformation. cbn [foldl].
  unfold assemble_step, _set_nested_path. cbn [fst snd].
  rewrite set_nested_keys_fresh. simpl. split; [|done].
  assert (Hnest : ∀ inner final value,
            get_path (JDict (nest inner final value)) (inner ++ [final]) = Some value).
  { intros inner final value. induction inner as [|key rest IH]; simpl.
    - by rewrite decide_True.
    - by rewrite decide_True. }
  pose proof (Hnest (init_parts (split "." (target_path_of mapping)))
                    (last_part (split "." (target_path_of mapping)))
                    (JStr (jsonata_fragment mapping))) as Hread.
  by rewrite split_init_last in Hread.
Qed.

(** X9.  Writing the same value at the same path a second time leaves the
    document as the first write made it. *)
Theorem set_nested_path_idempotent obj path value :
  (_set_nested_path (_set_nested_path obj path value).1 path value).1
  = (_set_nested_path obj path value).1.
Proof. apply set_nested_keys_idemp. Qed.

(** X10.  Nothing is deleted: what could be read along some keys before a
    write can be read along them after it (the value may have changed). *)
Theorem set_nested_path_keeps_paths obj path value (q : list string) :
  is_Some (get_path (JDict obj) q) →
  is_Some (get_path (JDict (_set_nested_path obj path value).1) q).
Proof. apply set_nested_keys_keeps. Qed.

Lemma set_nested_path_keeps_paths_witness :
  is_Some (get_path
             (JDict (_set_nested_path Examples.document "id.value" (JStr "$.v")).1)
             ["id"]).
Proof.
  apply (set_nested_path_keeps_paths Examples.document "id.value" (JStr "$.v") ["id"]).
  by eexists.
Defined.

Lemma build_log_length (mappings : list PropertyMapping) :
  ∀ state,
    length (foldl assemble_step state mappings).2
    ≤ length state.2 + length mappings.
Proof.
  induction mappings as [|mapping mappings IH]; intros state; simpl; [lia |].
  etrans; [apply IH |].
  unfold assemble_step.
  pose proof (set_nested_keys_one_warning
                (init_parts (split "." (target_path_of mapping)))
                (last_part (split "." (target_path_of mapping)))
                (target_path_of mapping) (JStr (jsonata_fragment mapping)) state.1)
    as Hone.
  unfold _set_nested_path.
  destruct (set_nested_keys _ _ _ _ _) as [document log]. simpl in *.
  rewrite length_app. lia.
Qed.

(** X11.  One write logs at most one warning, and assembling a list of
    mappings logs at most as many records as there are mappings. *)
Theorem assembly_warnings_bounded :
  (∀ obj path value, length (_set_nested_path obj path value).2 ≤ 1)
  ∧ (∀ mappings,
       length (build_complete_transformation mappings).2 ≤ length mappings).
Proof.
  split.
  - intros obj path value. apply set_nested_keys_one_warning.
  - intros mappings. apply (build_log_length mappings ([], [])).
Qed.

(** X12.  Of two mappings with the same target path the later one wins,
    silently: the result is the one of assembling the later mapping alone. *)
Theorem same_target_path_later_wins (m1 m2 : PropertyMapping) :
  target_path_of m1 = target_path_of m2 →
  build_complete_transformation [m1; m2] = build_complete_transformation [m2].
Proof.
  intros Hpath. unfold build_complete_transformation. cbn [foldl].
  unfold assemble_step at 2 3. unfold _set_nested_path. cbn [fst snd].
  rewrite Hpath, !set_nested_keys_fresh. cbn [app].
  unfold assemble_step, _set_nested_path. cbn [fst snd].
  by rewrite set_nested_keys_nest.
Qed.

Lemma same_target_path_later_wins_witness :
  build_complete_transformation [Examples.mapping_a; Cases.mapping_a_again]
  = build_complete_transformation [Cases.mapping_a_again].
Proof.
  apply (same_target_path_later_wins Examples.mapping_a Cases.mapping_a_again).
  reflexivity.
Defined.

(** ** More on the matcher *)

Lemma Qgt_bool_true (a b : Q) : Qgt_bool a b = true ↔ (b < a)%Q.
Proof.
  unfold Qgt_bool. rewrite negb_true_iff. split.
  - intros H. apply Qnot_le_lt. intros Hle. apply Qle_bool_iff in Hle. congruence.
  - intros Hlt. destruct (Qle_bool a b) eqn:Hle; [|done].
    apply Qle_bool_iff in Hle. by apply Qlt_not_le in Hlt.
Qed.

Lemma Qgt_bool_false (a b : Q) : Qgt_bool a b = false ↔ (a <= b)%Q.
Proof.
  unfold Qgt_bool. rewrite negb_false_iff. apply Qle_bool_iff.
Qed.

Lemma candidate_positive matched source_prop target_prop method conf :
  candidate matched source_prop target_prop = Some (method, conf) → (0 < conf)%Q.
Proof.
  unfold candidate. case_bool_decide; [done |].
  intros Hfind%find_best_match_level. unfold levels in Hfind.
  rewrite !elem_of_cons, elem_of_nil in Hfind.
  destruct Hfind as [Hc|[Hc|[Hc|[]]]]; by simplify_eq.
Qed.

Lemma scores_below_weaken matched source_prop (strict : bool) bound bound' targets :
  (bound < bound')%Q →
  scores_below strict matched source_prop bound targets →
  scores_below true matched source_prop bound' targets.
Proof.
  intros Hlt Hall. eapply Forall_impl; [exact Hall |]. intros target_prop. cbv beta.
  destruct (candidate matched source_prop target_prop) as [[method conf]|]; [|done].
  destruct strict; simpl; intros Hconf.
  - exact (Qlt_trans _ _ _ Hconf Hlt).
  - exact (Qle_lt_trans _ _ _ Hconf Hlt).
Qed.

Lemma scan_target_candidate matched source_prop best target_prop :
  scan_target matched source_prop best target_prop
  = match candidate matched source_prop target_prop with
    | Some (method, conf) =>
        if Qgt_bool conf best.2 then (Some (target_prop, method), conf) else best
    | None => best
    end.
Proof. unfold scan_target, candidate. by case_bool_decide. Qed.

Lemma scan_target_first_maximum matched source_prop scanned best target_prop :
  first_maximum matched source_prop scanned best →
  first_maximum matched source_prop (scanned ++ [target_prop])
                (scan_target matched source_prop best target_prop).
Proof.
  intros Hbest. rewrite scan_target_candidate. unfold first_maximum in *.
  destruct (candidate matched source_prop target_prop) as [[method conf]|] eqn:Hcand.
  - pose proof (candidate_positive _ _ _ _ _ Hcand) as Hpos.
    destruct (Qgt_bool conf best.2) eqn:Hgt.
    + apply Qgt_bool_true in Hgt.
      exists scanned, []. repeat split; simpl; [done | | constructor].
      destruct best as [[[t m]|] c]; simpl in *.
      * destruct Hbest as (before & after & -> & Ht & Hbefore & Hafter).
        apply Forall_app. split; [by eapply scores_below_weaken |].
        constructor; [by rewrite Ht | by eapply scores_below_weaken].
      * destruct Hbest as [_ Hnone]. eapply Forall_impl; [exact Hnone |].
        by intros t ->.
    + apply Qgt_bool_false in Hgt.
      destruct best as [[[t m]|] c]; simpl in *.
      * destruct Hbest as (before & after & -> & Ht & Hbefore & Hafter).
        exists before, (after ++ [target_prop]).
        repeat split; [by rewrite <- app_assoc | done | done |].
        apply Forall_app. split; [done |]. constructor; [|done]. by rewrite Hcand.
      * destruct Hbest as [-> _]. by apply Qle_not_lt in Hgt.
  - destruct best as [[[t m]|] c]; simpl in *.
    + destruct Hbest as (before & after & -> & Ht & Hbefore & Hafter).
      exists before, (after ++ [target_prop]).
      repeat split; [by rewrite <- app_assoc | done | done |].
      apply Forall_app. split; [done |]. constructor; [|done]. by rewrite Hcand.
    + destruct Hbest as [-> Hnone]. split; [done |].
      apply Forall_app. split; [done |]. by constructor.
Qed.

Lemma best_for_first_maximum matched source_prop targets :
  first_maximum matched source_prop targets (best_for matched source_prop targets).
Proof.
  unfold best_for.
  assert (H : ∀ rest scanned best,
    first_maximum matched source_prop scanned best →
    first_maximum matched source_prop (scanned ++ rest)
                  (foldl (scan_target matched source_prop) best rest)).
  { induction rest as [|t rest IH]; intros scanned best Hbest; simpl.
    - by rewrite app_nil_r.
    - replace (scanned ++ t :: rest) with ((scanned ++ [t]) ++ rest)
        by (by rewrite <- app_assoc).
      apply IH. by apply scan_target_first_maximum. }
  apply (H targets [] (None, 0%Q)). by split.
Qed.

(** X13.  For one source Property the inner loop keeps the target of the
    highest score among those not yet consumed, and of several targets with
    that score the first in the sequence: every earlier target scores
    strictly less, every later one at most as much.  When it keeps none, no
    target has a score. *)
Theorem best_match_is_first_maximum matched_targets source_prop
    (target_properties : list SAMMProperty) :
  match best_for matched_targets source_prop target_properties with
  | (Some (target_prop, method), conf) =>
      ∃ before after,
        target_properties = before ++ target_prop :: after
        ∧ candidate matched_targets source_prop target_prop = Some (method, conf)
        ∧ scores_below true matched_targets source_prop conf before
        ∧ scores_below false matched_targets source_prop conf after
  | (None, _) =>
      Forall (λ target_prop,
                candidate matched_targets source_prop target_prop = None)
             target_properties
  end.
Proof.
  pose proof (best_for_first_maximum matched_targets source_prop target_properties)
    as Hbest.
  destruct (best_for matched_targets source_prop target_properties)
    as [[[target_prop method]|] conf]; simpl in *; [done |].
  by destruct Hbest.
Qed.

(** X14.  [_find_best_match] does not depend on which Property is the source
    and which the target. *)
Theorem find_best_match_symmetric (p q : SAMMProperty) :
  _find_best_match p q = _find_best_match q p.
Proof.
  unfold _find_best_match, _characteristic_match, _preferred_name_match,
    _property_uri_match.
  rewrite (orb_comm (negb (truthy (characteristic p)))).
  rewrite (orb_comm (negb (truthy (preferred_name p)))).
  rewrite (String.eqb_sym (text (characteristic p))).
  rewrite (String.eqb_sym (_normalize_name (text (preferred_name p)))).
  by rewrite (String.eqb_sym (lower (local_name p))).
Qed.

Lemma candidate_Some matched source_prop target_prop method conf :
  candidate matched source_prop target_prop = Some (method, conf) ↔
  (uri target_prop ∉ matched)
  ∧ _find_best_match source_prop target_prop = Some (method, conf).
Proof.
  unfold candidate. case_bool_decide; split; try done.
  - by intros [Hfree _].
  - by intros [_ Hfind].
Qed.

Lemma candidate_None matched source_prop target_prop :
  candidate matched source_prop target_prop = None ↔
  (uri target_prop ∈ matched) ∨ _find_best_match source_prop target_prop = None.
Proof.
  unfold candidate. case_bool_decide; split; try done.
  - by left.
  - by right.
  - by intros [Hin | Hnone].
Qed.

Lemma find_best_match_range source_prop target_prop method conf :
  _find_best_match source_prop target_prop = Some (method, conf) →
  (7 # 10 <= conf)%Q ∧ (conf <= 9 # 10)%Q.
Proof.
  intros Hfind%find_best_match_level. unfold levels in Hfind.
  rewrite !elem_of_cons, elem_of_nil in Hfind.
  destruct Hfind as [Hc|[Hc|[Hc|[]]]]; by simplify_eq.
Qed.

(** One round of the outer loop: the state is kept, with no target left
    that scores at least the threshold, or one match is appended. *)
Lemma match_step_cases thr targets matches matched source_prop :
  (match_step thr targets (matches, matched) source_prop = (matches, matched)
   ∧ Forall (λ target_prop,
               match candidate matched source_prop target_prop with
               | Some (_, conf) => (conf < thr)%Q
               | None => True
               end) targets)
  ∨ (∃ target_prop method conf,
       match_step thr targets (matches, matched) source_prop
       = (matches ++ [(source_prop, target_prop, method, conf)],
          {[ uri target_prop ]} ∪ matched)
       ∧ target_prop ∈ targets
       ∧ (uri target_prop ∉ matched)
       ∧ _find_best_match source_prop target_prop = Some (method, conf)
       ∧ (thr <= conf)%Q).
Proof.
  unfold match_step.
  pose proof (best_for_first_maximum matched source_prop targets) as Hbest.
  unfold first_maximum in Hbest.
  destruct (best_for matched source_prop targets) as [[[t m]|] c]; simpl in Hbest.
  - destruct Hbest as (before & after & -> & Ht & Hbefore & Hafter).
    destruct (Qle_bool thr c) eqn:Hle.
    + right. exists t, m, c. apply Qle_bool_iff in Hle.
      apply candidate_Some in Ht as [Hfree Hfind].
      repeat split; try done.
      apply elem_of_app. right. apply list_elem_of_here.
    + left. split; [done |].
      assert (Hlt : (c < thr)%Q).
      { apply Qnot_le_lt. intros H. apply Qle_bool_iff in H. congruence. }
      apply Forall_app. split; [| constructor].
      * eapply Forall_impl; [exact Hbefore |]. intros t'. cbv beta.
        destruct (candidate matched source_prop t') as [[m' c']|]; [|done].
        intros Hc. exact (Qlt_trans _ _ _ Hc Hlt).
      * by rewrite Ht.
      * eapply Forall_impl; [exact Hafter |]. intros t'. cbv beta.
        destruct (candidate matched source_prop t') as [[m' c']|]; [|done].
        intros Hc. exact (Qle_lt_trans _ _ _ Hc Hlt).
  - left. split; [done |]. destruct Hbest as [_ Hnone].
    eapply Forall_impl; [exact Hnone |]. by intros t' ->.
Qed.

Lemma match_loop_snoc thr targets rest source_prop state :
  match_loop thr (rest ++ [source_prop]) targets state
  = match_step thr targets (match_loop thr rest targets state) source_prop.
Proof. unfold match_loop. by rewrite foldl_app. Qed.

(** The records behind the matches: the sources are a subsequence of the
    source sequence, and each match pairs its source with a target of the
    target sequence that [_find_best_match] scores as recorded. *)
Lemma match_loop_records thr targets sources :
  let state := match_loop thr sources targets ([], ∅) in
  sublist (match_source <$> state.1) sources
  ∧ Forall (λ m, match_target m ∈ targets
                 ∧ _find_best_match (match_source m) (match_target m)
                   = Some (match_method m, match_confidence m)) state.1.
Proof.
  induction sources as [|s sources IH] using rev_ind; simpl.
  - split; [apply sublist_nil_l | constructor].
  - rewrite match_loop_snoc.
    destruct (match_loop thr sources targets ([], ∅)) as [matches matched].
    simpl in IH. destruct IH as [Hsub Hall].
    destruct (match_step_cases thr targets matches matched s)
      as [[-> _] | (t & m & c & -> & Ht & _ & Hfind & _)]; simpl.
    + split; [by apply sublist_inserts_r | done].
    + split.
      * rewrite fmap_app. by apply sublist_app.
      * apply Forall_app. split; [done |]. by constructor.
Qed.

(** X15.  The matches are built from the records of the two sequences: their
    sources, in order, are a subsequence of the source sequence; each target
    is a record of the target sequence; method and confidence are what
    [_find_best_match] gives for the pair; and there are at most as many
    matches as source records, and as target records. *)
Theorem matches_pair_input_records confidence_threshold
    (source_properties target_properties : list SAMMProperty) :
  let matches :=
    match_properties confidence_threshold source_properties target_properties in
  sublist (match_source <$> matches) source_properties
  ∧ Forall (λ m, match_target m ∈ target_properties
                 ∧ _find_best_match (match_source m) (match_target m)
                   = Some (match_method m, match_confidence m)) matches
  ∧ length matches ≤ length source_properties
  ∧ length matches ≤ length target_properties.
Proof.
  simpl. unfold match_properties.
  destruct (match_loop_records confidence_threshold target_properties source_properties)
    as [Hsub Hall].
  destruct (match_properties_ok confidence_threshold source_properties target_properties)
    as (_ & Hnd & _ & _ & _).
  split; [exact Hsub | split; [exact Hall | split]].
  - apply sublist_length in Hsub. by rewrite length_fmap in Hsub.
  - assert (Hin : target_uris
                    (match_loop confidence_threshold source_properties
                                target_properties ([], ∅)).1
                  ⊆+ uri <$> target_properties).
    { apply NoDup_submseteq; [exact Hnd |]. intros u Hu.
      unfold target_uris in Hu. apply list_elem_of_fmap in Hu as (m & -> & Hm).
      rewrite Forall_forall in Hall. destruct (Hall m Hm) as [Ht _].
      apply list_elem_of_fmap. by exists (match_target m). }
    apply submseteq_length in Hin. unfold target_uris in Hin.
    by rewrite !length_fmap in Hin.
Qed.

Lemma match_step_low_threshold thr1 thr2 targets state source_prop :
  (thr1 <= 7 # 10)%Q → (thr2 <= 7 # 10)%Q →
  match_step thr1 targets state source_prop
  = match_step thr2 targets state source_prop.
Proof.
  intros H1 H2. destruct state as [matches matched]. unfold match_step.
  pose proof (best_for_first_maximum matched source_prop targets) as Hbest.
  unfold first_maximum in Hbest.
  destruct (best_for matched source_prop targets) as [[[t m]|] c]; [|done].
  simpl in Hbest. destruct Hbest as (before & after & _ & Ht & _).
  apply candidate_Some in Ht as [_ [Hlow _]%find_best_match_range].
  assert (Hle1 : Qle_bool thr1 c = true)
    by (apply Qle_bool_iff; by eapply Qle_trans).
  assert (Hle2 : Qle_bool thr2 c = true)
    by (apply Qle_bool_iff; by eapply Qle_trans).
  by rewrite Hle1, Hle2.
Qed.

(** X16.  A threshold of at most 0.7, the lowest score a test gives,
    discards nothing: all such thresholds, the default 0.6 among them, give
    the same matches. *)
Theorem threshold_up_to_lowest_score_is_inert (threshold1 threshold2 : Q)
    (source_properties target_properties : list SAMMProperty) :
  (threshold1 <= 7 # 10)%Q →
  (threshold2 <= 7 # 10)%Q →
  match_properties threshold1 source_properties target_properties
  = match_properties threshold2 source_properties target_properties.
Proof.
  intros H1 H2. unfold match_properties. f_equal.
  induction source_properties as [|s sources IH] using rev_ind; [done |].
  rewrite !match_loop_snoc, IH. by apply match_step_low_threshold.
Qed.

Lemma threshold_up_to_lowest_score_is_inert_witness :
  match_properties (7 # 10)
    [Examples.billing_street; Examples.city]
    [Examples.invoice_street; Examples.delivery_street]
  = match_properties (1 # 2)
      [Examples.billing_street; Examples.city]
      [Examples.invoice_street; Examples.delivery_street].
Proof.
  apply threshold_up_to_lowest_score_is_inert.
  - unfold Qle. simpl. lia.
  - unfold Qle. simpl. lia.
Defined.

(** X17.  A threshold above 0.9, the highest score a test gives, discards
    everything. *)
Theorem threshold_above_highest_score_matches_nothing (confidence_threshold : Q)
    (source_properties target_properties : list SAMMProperty) :
  (9 # 10 < confidence_threshold)%Q →
  match_properties confidence_threshold source_properties target_properties = [].
Proof.
  intros Hhigh. unfold match_properties.
  assert (H : match_loop confidence_threshold source_properties target_properties
                ([], ∅) = ([], ∅)); [| by rewrite H].
  induction source_properties as [|s sources IH] using rev_ind; [done |].
  rewrite match_loop_snoc, IH.
  destruct (match_step_cases confidence_threshold target_properties [] ∅ s)
    as [[-> _] | (t & m & c & _ & _ & _ & Hfind & Hle)]; [done |].
  apply find_best_match_range in Hfind as [_ Hc].
  exfalso. apply (Qlt_not_le _ _ Hhigh). by eapply Qle_trans.
Qed.

Lemma threshold_above_highest_score_matches_nothing_witness :
  match_properties 1
    [Examples.billing_street; Examples.city]
    [Examples.invoice_street; Examples.delivery_street]
  = [].
Proof.
  apply threshold_above_highest_score_matches_nothing.
  unfold Qlt. simpl. lia.
Defined.

(** The outer loop leaves no pair behind: after the sources [seen], a pair
    of a seen source and a target that scores at least the threshold has
    its source matched or its target consumed; and the consumed targets are
    those of the matches. *)
Lemma match_loop_maximal thr targets sources :
  let state := match_loop thr sources targets ([], ∅) in
  (∀ u, u ∈ state.2 ↔ u ∈ target_uris state.1)
  ∧ ∀ s t m c,
      s ∈ sources → t ∈ targets →
      _find_best_match s t = Some (m, c) → (thr <= c)%Q →
      s ∈ match_source <$> state.1 ∨ uri t ∈ state.2.
Proof.
  induction sources as [|s0 sources IH] using rev_ind; simpl.
  - split.
    + intros u. unfold target_uris. simpl. split.
      * by intros ?%not_elem_of_empty.
      * by intros ?%elem_of_nil.
    + by intros s t m c ?%elem_of_nil.
  - rewrite match_loop_snoc.
    destruct (match_loop thr sources targets ([], ∅)) as [matches matched].
    simpl in IH. destruct IH as [Hset Hmax].
    destruct (match_step_cases thr targets matches matched s0)
      as [[-> Hnone] | (t0 & m0 & c0 & -> & Ht0 & _ & Hfind0 & _)]; simpl.
    + split; [exact Hset |].
      intros s t m c [Hs | ->%list_elem_of_singleton]%elem_of_app Ht Hfind Hle.
      * by eapply Hmax.
      * right. rewrite Forall_forall in Hnone. specialize (Hnone t Ht).
        destruct (candidate matched s0 t) as [[m' c']|] eqn:Hcand.
        -- apply candidate_Some in Hcand as [_ Hfind']. simplify_eq.
           by apply Qlt_not_le in Hnone.
        -- apply candidate_None in Hcand as [Hin | Hno]; [done | congruence].
    + split.
      * intros u. unfold target_uris in *. rewrite fmap_app, elem_of_app.
        rewrite elem_of_union, elem_of_singleton, Hset. simpl.
        rewrite list_elem_of_singleton. tauto.
      * intros s t m c [Hs | ->%list_elem_of_singleton]%elem_of_app Ht Hfind Hle.
        -- destruct (Hmax s t m c Hs Ht Hfind Hle) as [Hsrc | Htgt].
           ++ left. rewrite fmap_app. apply elem_of_app. by left.
           ++ right. apply elem_of_union. by right.
        -- left. rewrite fmap_app. apply elem_of_app. right.
           apply list_elem_of_here.
Qed.

(** X18.  The matching is maximal: a source record and a target record that
    a test accepts with a score of at least the threshold are never both
    left over.  The source record is matched, or the target's URI is that of
    some match's target. *)
Theorem matching_is_maximal confidence_threshold
    (source_properties target_properties : list SAMMProperty)
    (source_prop target_prop : SAMMProperty) (method : string) (conf : Q) :
  source_prop ∈ source_properties →
  target_prop ∈ target_properties →
  _find_best_match source_prop target_prop = Some (method, conf) →
  (confidence_threshold <= conf)%Q →
  let matches :=
    match_properties confidence_threshold source_properties target_properties in
  source_prop ∈ match_source <$> matches
  ∨ uri target_prop ∈ target_uris matches.
Proof.
  intros Hs Ht Hfind Hle. simpl. unfold match_properties.
  destruct (match_loop_maximal confidence_threshold target_properties source_properties)
    as [Hset Hmax].
  destruct (Hmax _ _ _ _ Hs Ht Hfind Hle) as [Hsrc | Htgt]; [by left |].
  right. by apply Hset.
Qed.

Lemma matching_is_maximal_witness :
  Examples.billing_street
    ∈ match_source
        <$> match_properties (7 # 10)
              [Examples.billing_street; Examples.city]
              [Examples.invoice_street; Examples.delivery_street]
  ∨ uri Examples.invoice_street
      ∈ target_uris
          (match_properties (7 # 10)
             [Examples.billing_street; Examples.city]
             [Examples.invoice_street; Examples.delivery_street]).
Proof.
  apply (matching_is_maximal (7 # 10)
           [Examples.billing_street; Examples.city]
           [Examples.invoice_street; Examples.delivery_street]
           Examples.billing_street Examples.invoice_street
           "property_uri_match" (7 # 10)).
  - apply list_elem_of_here.
  - apply list_elem_of_here.
  - reflexivity.
  - unfold Qle. simpl. lia.
Defined.

Lemma is_lower_alnum_lower c : is_lower_alnum c = true → lower_ascii c = c.
Proof.
  unfold is_lower_alnum, lower_ascii. cbv zeta.
  generalize (Ascii.nat_of_ascii c). intros n Hn.
  destruct (Nat.leb 65 n && Nat.leb n 90) eqn:Hupper; [|done].
  exfalso.
  apply andb_true_iff in Hupper as [H65%Nat.leb_le H90%Nat.leb_le].
  apply orb_true_iff in Hn
    as [[H97%Nat.leb_le _]%andb_true_iff | [_ H57%Nat.leb_le]%andb_true_iff]; lia.
Qed.

Lemma is_lower_alnum_not_parenthesis c :
  is_lower_alnum c = true → Ascii.eqb c "(" = false.
Proof.
  intros Hc. destruct (Ascii.eqb c "(") eqn:Heq; [|done].
  apply Ascii.eqb_eq in Heq. subst c. discriminate Hc.
Qed.

Lemma keep_lower_alnum_chars name :
  Forall (λ c, is_lower_alnum c = true)
         (String.list_ascii_of_string (keep_lower_alnum name)).
Proof.
  induction name as [|c r IH]; simpl; [constructor |].
  destruct (is_lower_alnum c) eqn:Hc; [|done]. simpl. by constructor.
Qed.

Lemma normalize_name_of_lower_alnum name :
  Forall (λ c, is_lower_alnum c = true) (String.list_ascii_of_string name) →
  _normalize_name name = name.
Proof.
  unfold _normalize_name.
  induction name as [|c r IH]; simpl; [done |].
  intros [Hc Hr]%Forall_cons.
  rewrite (is_lower_alnum_lower _ Hc), (is_lower_alnum_not_parenthesis _ Hc).
  simpl. rewrite Hc. f_equal. by apply IH.
Qed.

(** X19.  A normalised name holds lower-case letters and digits only, and
    normalising it again changes nothing. *)
Theorem normalized_name_is_stable (name : string) :
  Forall (λ c, is_lower_alnum c = true)
         (String.list_ascii_of_string (_normalize_name name))
  ∧ _normalize_name (_normalize_name name) = _normalize_name name.
Proof.
  assert (H : Forall (λ c, is_lower_alnum c = true)
                (String.list_ascii_of_string (_normalize_name name)))
    by apply keep_lower_alnum_chars.
  split; [exact H | by apply normalize_name_of_lower_alnum].
Qed.

(** ** More on the generator *)

Lemma create_mapping_properties source_prop target_prop method conf :
  source_property (create_mapping source_prop target_prop method conf).1 = source_prop
  ∧ target_property (create_mapping source_prop target_prop method conf).1 = target_prop.
Proof.
  unfold create_mapping.
  destruct (_determine_transformation_type _ _) as [kind log1].
  by destruct (_generate_jsonata_expression _ _ kind) as [fragment log2].
Qed.

Lemma mappings_of_uris matches :
  map (λ m, uri (source_property m)) (mappings_of matches) = source_uris matches
  ∧ map (λ m, uri (target_property m)) (mappings_of matches) = target_uris matches.
Proof.
  unfold mappings_of, source_uris, target_uris.
  induction matches as [|m matches [IHs IHt]]; [done |]. simpl.
  destruct (create_mapping_properties (match_source m) (match_target m)
              (match_method m) (match_confidence m)) as [Hs Ht].
  rewrite Hs, Ht, IHs, IHt. done.
Qed.

Lemma filter_fmap_uri (P : string → Prop) `{∀ u, Decision (P u)}
    (props : list SAMMProperty) :
  uri <$> filter (λ p, P (uri p)) props = filter P (uri <$> props).
Proof.
  induction props as [|p props IH]; [done |].
  rewrite fmap_cons, !filter_cons. destruct (decide (P (uri p))); [|done].
  by rewrite fmap_cons, IH.
Qed.

(** Those left over and those mapped add up, when no URI repeats. *)
Lemma unmapped_count (props : list SAMMProperty) (mapped : list string) :
  NoDup (uri <$> props) → NoDup mapped →
  (∀ u, u ∈ mapped → u ∈ uri <$> props) →
  length (filter (λ p, uri p ∉ (list_to_set mapped : gset string)) props)
  + length mapped = length props.
Proof.
  intros Hprops Hmapped Hsub.
  set (S := list_to_set mapped : gset string).
  assert (Hin : length (filter (λ p, uri p ∈ S) props) = length mapped).
  { rewrite <- (length_fmap uri (filter (λ p, uri p ∈ S) props)).
    assert (Hfmap : uri <$> filter (λ p, uri p ∈ S) props
                    = filter (λ u, u ∈ S) (uri <$> props))
      by exact (filter_fmap_uri (λ u, u ∈ S) props).
    rewrite Hfmap.
    apply Permutation_length, NoDup_Permutation.
    - by apply NoDup_filter.
    - done.
    - intros u. rewrite list_elem_of_filter. unfold S.
      rewrite elem_of_list_to_set. split; [by intros [Hu _] | by split; [| apply Hsub]]. }
  pose proof (filter_app_complement (λ p, uri p ∉ S) props) as Hperm.
  apply Permutation_length in Hperm. rewrite length_app in Hperm.
  rewrite <- Hperm, <- Hin. f_equal. f_equal.
  apply list_filter_iff. intros p. split; [by intros Hp Hnot | apply dec_stable].
Qed.

(** X20.  When no two records of a sequence have the same URI, every record
    of it is mapped or listed as unmapped, and never both: the unmapped
    names and the mappings add up to the records, on the source side and on
    the target side. *)
Theorem unmapped_and_mapped_add_up confidence_threshold
    (source_properties target_properties : list SAMMProperty) :
  NoDup (uri <$> source_properties) →
  NoDup (uri <$> target_properties) →
  let mappings :=
    mappings_of (match_properties confidence_threshold
                                  source_properties target_properties) in
  let unmapped :=
    _find_unmapped_properties source_properties target_properties mappings in
  length unmapped.1 + length mappings = length source_properties
  ∧ length unmapped.2 + length mappings = length target_properties.
Proof.
  intros Hsources Htargets. simpl. unfold _find_unmapped_properties. simpl.
  destruct (mappings_of_uris
              (match_properties confidence_threshold source_properties
                                target_properties)) as [-> ->].
  destruct (match_properties_ok confidence_threshold source_properties target_properties)
    as (_ & Hnd & _ & Hsub & Hin).
  fold (match_properties confidence_threshold source_properties target_properties)
    in Hnd, Hsub, Hin.
  set (matches := match_properties confidence_threshold source_properties
                                   target_properties) in *.
  assert (Hlen : length (mappings_of matches) = length matches)
    by (unfold mappings_of; apply length_map).
  rewrite !length_map, Hlen. split.
  - rewrite <- (length_fmap (λ m, uri (match_source m)) matches).
    apply unmapped_count;
      [done | eapply sublist_NoDup; [exact Hsources | exact Hsub] |].
    intros u Hu. by eapply elem_of_sublist.
  - rewrite <- (length_fmap (λ m, uri (match_target m)) matches).
    apply unmapped_count; [done | done |].
    intros u Hu. unfold target_uris in Hu.
    apply list_elem_of_fmap in Hu as (m & -> & Hm).
    rewrite Forall_forall in Hin. apply list_elem_of_fmap.
    exists (match_target m). split; [done | by apply Hin].
Qed.

Lemma unmapped_and_mapped_add_up_witness :
  let mappings :=
    mappings_of (match_properties (7 # 10)
                   [Examples.billing_street; Examples.city]
                   [Examples.invoice_street; Examples.delivery_street]) in
  let unmapped :=
    _find_unmapped_properties
      [Examples.billing_street; Examples.city]
      [Examples.invoice_street; Examples.delivery_street] mappings in
  length unmapped.1 + length mappings = 2
  ∧ length unmapped.2 + length mappings = 2.
Proof.
  apply (unmapped_and_mapped_add_up (7 # 10)
           [Examples.billing_street; Examples.city]
           [Examples.invoice_street; Examples.delivery_street]).
  - vm_compute. apply NoDup_cons. split.
    + intros H. apply list_elem_of_singleton in H. discriminate H.
    + apply NoDup_singleton.
  - vm_compute. apply NoDup_cons. split.
    + intros H. apply list_elem_of_singleton in H. discriminate H.
    + apply NoDup_singleton.
Defined.

Lemma filter_nil_iff {A : Type} (P : A → Prop) `{∀ x, Decision (P x)} (l : list A) :
  filter P l = [] ↔ Forall (λ x, ¬ P x) l.
Proof.
  induction l as [|x l IH]; [by split; [constructor |] |].
  rewrite filter_cons, Forall_cons. destruct (decide (P x)) as [Hx | Hx].
  - split; [done | by intros [Hnot _]].
  - rewrite IH. by split; [| intros [_ Hl]].
Qed.

(** X21.  With the matcher's output, the result has no warning exactly when
    the URI of every source record is that of a match's source and the URI
    of every target record that of a match's target. *)
Theorem no_warning_iff_every_uri_is_mapped (format_2f : Q → string)
    confidence_threshold (source_properties target_properties : list SAMMProperty) :
  let matches :=
    match_properties confidence_threshold source_properties target_properties in
  generated_warnings format_2f confidence_threshold
                     source_properties target_properties = []
  ↔ Forall (λ p, uri p ∈ source_uris matches) source_properties
    ∧ Forall (λ p, uri p ∈ target_uris matches) target_properties.
Proof.
  simpl. unfold generated_warnings, _generate_warnings.
  set (matches := match_properties confidence_threshold source_properties
                                   target_properties).
  rewrite flat_map_nil; cycle 1.
  { destruct (match_properties_ok confidence_threshold source_properties
                target_properties) as (Hall & _).
    fold (match_properties confidence_threshold source_properties target_properties)
      in Hall. fold matches in Hall.
    unfold mappings_of. change (map ?f ?l) with (f <$> l). apply Forall_fmap.
    eapply Forall_impl; [exact Hall |]. intros m (Hlevel & _). simpl.
    unfold create_mapping.
    destruct (_determine_transformation_type _ _) as [kind log1].
    destruct (_generate_jsonata_expression _ _ kind) as [fragment log2]. simpl.
    by rewrite (level_not_low _ _ Hlevel). }
  unfold _find_unmapped_properties. simpl.
  destruct (mappings_of_uris matches) as [-> ->].
  assert (Hside : ∀ (props : list SAMMProperty) (uris : list string),
    map local_name (filter (λ p, uri p ∉ (list_to_set uris : gset string)) props) = []
    ↔ Forall (λ p, uri p ∈ uris) props).
  { intros props uris. change (map ?f ?l) with (f <$> l).
    trans (filter (λ p, uri p ∉ (list_to_set uris : gset string)) props = []).
    { split; [apply fmap_nil_inv | by intros ->]. }
    rewrite filter_nil_iff. apply Forall_iff. intros p. rewrite elem_of_list_to_set.
    split; [apply dec_stable | by intros Hin Hnot]. }
  rewrite <- !Hside.
  destruct (map local_name (filter _ source_properties));
    destruct (map local_name (filter _ target_properties)); simpl;
    split; first [done | by intros [? ?]].
Qed.

(** ** More on the parser *)

Lemma Forall2_mjoin_block {A B : Type} (R : A → list B → Prop) :
  ∀ (xs : list A) (blocks : list (list B)) (y : B),
    Forall2 R xs blocks → y ∈ mjoin blocks →
    ∃ x block, x ∈ xs ∧ R x block ∧ y ∈ block ∧ ∀ z, z ∈ block → z ∈ mjoin blocks.
Proof.
  intros xs blocks y Hall. induction Hall as [|x block xs blocks Hblock _ IH].
  - intros H. by apply elem_of_nil in H.
  - change (mjoin (block :: blocks)) with (block ++ mjoin blocks).
    intros [Hin|Hin]%elem_of_app.
    + exists x, block. repeat split; [apply list_elem_of_here | done | done |].
      intros z Hz. apply elem_of_app. by left.
    + destruct (IH Hin) as (x' & block' & Hx' & HR & Hy & Hsub).
      exists x', block'. repeat split; [by apply list_elem_of_further | done | done |].
      intros z Hz. apply elem_of_app. right. by apply Hsub.
Qed.

Lemma Forall2_block_of {A B : Type} (R : A → list B → Prop) :
  ∀ (xs : list A) (blocks : list (list B)) (x : A),
    Forall2 R xs blocks → x ∈ xs →
    ∃ block, R x block ∧ ∀ z, z ∈ block → z ∈ mjoin blocks.
Proof.
  intros xs blocks x Hall. induction Hall as [|x0 block xs blocks Hblock _ IH].
  - intros H. by apply elem_of_nil in H.
  - change (mjoin (block :: blocks)) with (block ++ mjoin blocks).
    intros [->|Hin]%elem_of_cons.
    + exists block. split; [done |]. intros z Hz. apply elem_of_app. by left.
    + destruct (IH Hin) as (block' & HR & Hsub).
      exists block'. split; [done |]. intros z Hz. apply elem_of_app. right.
      by apply Hsub.
Qed.

(** What [_extract_nested_properties] returns for one Property of the
    Entity: its copy, followed by what lies below the copy. *)
Lemma extract_block g fuel entity_prop parent_path parent_name parent_is_collection
    block :
  (let nested_prop :=
     nested_copy entity_prop parent_path parent_name parent_is_collection in
   match entity_of_property g nested_prop with
   | Some nested_entity_uri =>
       deeper ← _extract_nested_properties fuel g
                  (_parse_entity g nested_entity_uri)
                  (text (json_path nested_prop))
                  (local_name nested_prop)
                  (is_collection nested_prop);
       Some (nested_prop :: deeper)
   | None => Some [nested_prop]
   end) = Some block →
  let nested_prop :=
    nested_copy entity_prop parent_path parent_name parent_is_collection in
  match entity_of_property g entity_prop with
  | Some nested_entity_uri =>
      ∃ deeper,
        _extract_nested_properties fuel g (_parse_entity g nested_entity_uri)
          (text (json_path nested_prop)) (local_name nested_prop)
          (is_collection nested_prop) = Some deeper
        ∧ block = nested_prop :: deeper
  | None => block = [nested_prop]
  end.
Proof.
  cbv zeta. rewrite entity_of_nested_copy.
  destruct (entity_of_property g entity_prop) as [eu|]; [| by intros ?; simplify_eq].
  destruct (_extract_nested_properties fuel g (_parse_entity g eu) _ _ _)
    as [deeper|]; [| done].
  simpl. intros ?; simplify_eq. by exists deeper.
Qed.

Lemma extract_blocks g fuel u parent_path parent_name parent_is_collection nested :
  _extract_nested_properties (S fuel) g (_parse_entity g u)
    parent_path parent_name parent_is_collection = Some nested →
  ∃ blocks,
    nested = mjoin blocks
    ∧ Forall2
        (λ entity_prop block,
           let nested_prop :=
             nested_copy entity_prop parent_path parent_name parent_is_collection in
           match entity_of_property g entity_prop with
           | Some nested_entity_uri =>
               ∃ deeper,
                 _extract_nested_properties fuel g
                   (_parse_entity g nested_entity_uri)
                   (text (json_path nested_prop)) (local_name nested_prop)
                   (is_collection nested_prop) = Some deeper
                 ∧ block = nested_prop :: deeper
           | None => block = [nested_prop]
           end)
        (parse_properties g u) blocks.
Proof.
  rewrite extract_S. intros Hrun.
  apply flat_mapM_Some_inv in Hrun as (blocks & Hblocks & ->).
  exists blocks. split; [done |].
  change (e_properties (_parse_entity g u)) with (parse_properties g u) in Hblocks.
  eapply Forall2_impl; [exact Hblocks |].
  intros entity_prop block. apply extract_block.
Qed.

(** Below an Entity: each Property returned is the copy of one of the
    Entity's, or the copy of a Property of the Entity of a Property
    returned. *)
Lemma extract_copies g fuel :
  ∀ u parent_path parent_name parent_is_collection nested,
    _extract_nested_properties fuel g (_parse_entity g u)
      parent_path parent_name parent_is_collection = Some nested →
    Forall (λ prop,
              (∃ entity_prop,
                 entity_prop ∈ parse_properties g u
                 ∧ prop = nested_copy entity_prop parent_path parent_name
                                      parent_is_collection)
              ∨ ∃ parent, parent ∈ nested ∧ copied_below g parent prop)
           nested.
Proof.
  induction fuel as [|fuel IH];
    intros u parent_path parent_name parent_is_collection nested; [done |].
  intros (blocks & -> & Hblocks)%extract_blocks.
  apply Forall_forall. intros prop Hprop.
  destruct (Forall2_mjoin_block _ _ _ _ Hblocks Hprop)
    as (entity_prop & block & Hin & Hblock & Hpb & Hsub).
  cbv zeta in Hblock.
  destruct (entity_of_property g entity_prop) as [eu|] eqn:Hent.
  - destruct Hblock as (deeper & Hdeeper & ->).
    apply elem_of_cons in Hpb as [-> | Hpd]; [left; eauto |].
    right. specialize (IH _ _ _ _ _ Hdeeper). rewrite Forall_forall in IH.
    destruct (IH prop Hpd) as [(ep & Hep & ->) | (parent & Hparent & Hcopy)].
    + exists (nested_copy entity_prop parent_path parent_name parent_is_collection).
      split; [apply Hsub, list_elem_of_here |].
      exists eu, eu, ep. by rewrite entity_of_nested_copy.
    + exists parent. split; [| done]. by apply Hsub, list_elem_of_further.
  - subst block. apply list_elem_of_singleton in Hpb as ->. left. eauto.
Qed.

(** Below an Entity: the copy of each of its Properties is returned, and
    with each Property returned the copies of the Properties of its
    Entity. *)
Lemma extract_closed g fuel :
  ∀ u parent_path parent_name parent_is_collection nested,
    _extract_nested_properties fuel g (_parse_entity g u)
      parent_path parent_name parent_is_collection = Some nested →
    (∀ entity_prop,
       entity_prop ∈ parse_properties g u →
       nested_copy entity_prop parent_path parent_name parent_is_collection ∈ nested)
    ∧ ∀ parent entity_uri entity_prop,
        parent ∈ nested →
        entity_of_property g parent = Some entity_uri →
        entity_prop ∈ parse_properties g entity_uri →
        copy_below parent entity_prop ∈ nested.
Proof.
  induction fuel as [|fuel IH];
    intros u parent_path parent_name parent_is_collection nested; [done |].
  intros (blocks & -> & Hblocks)%extract_blocks. split.
  - intros entity_prop Hin.
    destruct (Forall2_block_of _ _ _ _ Hblocks Hin) as (block & Hblock & Hsub).
    cbv zeta in Hblock. apply Hsub.
    destruct (entity_of_property g entity_prop) as [eu|].
    + destruct Hblock as (deeper & _ & ->). apply list_elem_of_here.
    + subst block. apply list_elem_of_here.
  - intros parent entity_uri ep Hparent Hent Hep.
    destruct (Forall2_mjoin_block _ _ _ _ Hblocks Hparent)
      as (entity_prop & block & Hin & Hblock & Hpb & Hsub).
    cbv zeta in Hblock. apply Hsub.
    destruct (entity_of_property g entity_prop) as [eu|] eqn:Heu.
    + destruct Hblock as (deeper & Hdeeper & ->).
      destruct (IH _ _ _ _ _ Hdeeper) as [Hfirst Hrest].
      apply list_elem_of_further.
      apply elem_of_cons in Hpb as [-> | Hpd].
      * rewrite entity_of_nested_copy, Heu in Hent. simplify_eq.
        by apply Hfirst.
      * by eapply Hrest.
    + subst block. apply list_elem_of_singleton in Hpb as ->.
      rewrite entity_of_nested_copy, Heu in Hent. done.
Qed.

Lemma keyed_cache_get g entities key entity :
  keyed_cache g entities → dict_get key entities = Some entity →
  ∃ u, entity = _parse_entity g u ∧ Parser.str u = key.
Proof.
  induction 1 as [|[k e] entities (u & He & Hu) _ IH]; simpl; [done |].
  destruct (decide (key = k)) as [->|Hne]; intros; simplify_eq; eauto.
Qed.

Lemma keyed_cache_set g entities u :
  keyed_cache g entities →
  keyed_cache g (dict_set (Parser.str u) (_parse_entity g u) entities).
Proof.
  intros Hcache. induction Hcache as [|[k e] entities He Hrest IH]; simpl.
  - constructor; [| constructor]. by exists u.
  - destruct (decide (Parser.str u = k)) as [<-|Hne]; constructor; try done.
    by exists u.
Qed.

(** The second loop of [_parse_aspect]: the cache gets a key for each
    Entity a Property of [props] refers to and for nothing else, and the
    sequence grows by one block for each Property of [props]. *)
Lemma nested_loop_blocks g fuel :
  ∀ props entities all_properties entities' all_properties',
    keyed_cache g entities →
    nested_loop fuel g props entities all_properties
    = Some (entities', all_properties') →
    keyed_cache g entities'
    ∧ (∀ key, is_Some (dict_get key entities')
              ↔ is_Some (dict_get key entities)
                ∨ ∃ prop entity_uri,
                    prop ∈ props
                    ∧ entity_of_property g prop = Some entity_uri
                    ∧ Parser.str entity_uri = key)
    ∧ ∃ blocks,
        all_properties' = all_properties ++ mjoin blocks
        ∧ Forall2 (appended_for g fuel) props blocks.
Proof.
  induction props as [|prop props IH];
    intros entities all_properties entities' all_properties' Hcache; simpl.
  - intros ?; simplify_eq. split; [done | split].
    + intros key. split; [by left |].
      intros [H | (prop & eu & Hin & _)]; [done | by apply elem_of_nil in Hin].
    + exists []. by rewrite app_nil_r.
  - destruct (entity_of_property g prop) as [eu|] eqn:Hent; cycle 1.
    { intros Hrun. destruct (IH _ _ _ _ Hcache Hrun) as (Hcache' & Hkeys & blocks & -> & Hblocks).
      split; [done | split].
      - intros key. rewrite Hkeys. split.
        + intros [H | (p & u & Hin & Hp & Hu)]; [by left |].
          right. exists p, u. split; [by apply list_elem_of_further | done].
        + intros [H | (p & u & Hin & Hp & Hu)]; [by left |].
          apply elem_of_cons in Hin as [-> | Hin]; [congruence |].
          right. by exists p, u.
      - exists ([] :: blocks). split; [done |].
        constructor; [| done]. unfold appended_for. by rewrite Hent. }
    assert (Hstep : ∃ u entities0,
      Parser.str u = Parser.str eu
      ∧ keyed_cache g entities0
      ∧ (∀ key, is_Some (dict_get key entities0)
                ↔ is_Some (dict_get key entities) ∨ Parser.str eu = key)
      ∧ (let '(entity, entities1) :=
           match dict_get (Parser.str eu) entities with
           | None =>
               let entity := _parse_entity g eu in
               (entity, dict_set (Parser.str eu) entity entities)
           | Some entity => (entity, entities)
           end in (entity, entities1)) = (_parse_entity g u, entities0)).
    { destruct (dict_get (Parser.str eu) entities) as [entity|] eqn:Hget.
      - destruct (keyed_cache_get _ _ _ _ Hcache Hget) as (u & -> & Hu).
        exists u, entities. repeat split; try done.
        + by left.
        + intros [H | <-]; [done | by rewrite Hget].
      - exists eu, (dict_set (Parser.str eu) (_parse_entity g eu) entities).
        repeat split; try done.
        + by apply keyed_cache_set.
        + destruct (decide (Parser.str eu = key)) as [Heq | Hne]; [by right |].
          rewrite dict_get_set_ne by done. by left.
        + intros [H | <-].
          * destruct (decide (Parser.str eu = key)) as [<- | Hne].
            -- by rewrite dict_get_set_eq.
            -- by rewrite dict_get_set_ne.
          * by rewrite dict_get_set_eq. }
    destruct Hstep as (u & entities0 & Hu & Hcache0 & Hkeys0 & Hpair).
    destruct (match dict_get (Parser.str eu) entities with
              | None => _ | Some entity => _ end) as [entity entities1].
    injection Hpair as -> ->.
    fold (segment prop).
    destruct (_extract_nested_properties fuel g (_parse_entity g u) (segment prop)
                (local_name prop) (is_collection prop)) as [nested_props|] eqn:Hnested;
      [| done].
    simpl. intros Hrun.
    destruct (IH _ _ _ _ Hcache0 Hrun) as (Hcache' & Hkeys & blocks & -> & Hblocks).
    split; [done | split].
    + intros key. rewrite Hkeys, Hkeys0. split.
      * intros [[H | Heq] | (p & u' & Hin & Hp & Hu')].
        -- by left.
        -- right. exists prop, eu. split; [apply list_elem_of_here | done].
        -- right. exists p, u'. split; [by apply list_elem_of_further | done].
      * intros [H | (p & u' & Hin & Hp & Hu')]; [by left; left |].
        apply elem_of_cons in Hin as [-> | Hin].
        -- left. right. congruence.
        -- right. by exists p, u'.
    + exists (nested_props :: blocks). split.
      * change (mjoin (nested_props :: blocks)) with (nested_props ++ mjoin blocks).
        by rewrite app_assoc.
      * constructor; [| done]. unfold appended_for. rewrite Hent. by exists u.
Qed.

Lemma parse_aspect_blocks g fuel aspect_uri aspect :
  _parse_aspect fuel g aspect_uri = Some aspect →
  let top := set_top_level_path <$> parse_properties g aspect_uri in
  keyed_cache g (a_entities aspect)
  ∧ (∀ key, is_Some (dict_get key (a_entities aspect))
            ↔ ∃ prop entity_uri,
                prop ∈ top
                ∧ entity_of_property g prop = Some entity_uri
                ∧ Parser.str entity_uri = key)
  ∧ ∃ blocks,
      a_properties aspect = top ++ mjoin blocks
      ∧ Forall2 (appended_for g fuel) top blocks.
Proof.
  unfold _parse_aspect.
  change (map set_top_level_path ?l) with (set_top_level_path <$> l).
  set (top := set_top_level_path <$> parse_properties g aspect_uri).
  destruct (nested_loop fuel g top [] top) as [[entities all_properties]|] eqn:Hloop;
    [| done].
  simpl. intros ?; simplify_eq. simpl.
  apply nested_loop_blocks in Hloop as (Hcache & Hkeys & Hblocks); [| constructor].
  split; [done | split; [| done]].
  intros key. rewrite Hkeys. split; [| by right].
  intros [[e He] | H]; [done | done].
Qed.

Lemma top_level_shape g u prop :
  prop ∈ set_top_level_path <$> parse_properties g u → at_top_level prop.
Proof.
  intros (p & -> & Hin)%list_elem_of_fmap.
  destruct (top_level_path _ _ _ Hin) as [Hpath Hseg].
  unfold at_top_level. rewrite Hpath, Hseg.
  unfold set_top_level_path. rewrite (parse_properties_json_path _ _ _ Hin). simpl.
  unfold parse_properties in Hin. change (map ?f ?l) with (f <$> l) in Hin.
  by apply list_elem_of_fmap in Hin as ([prop_uri prop_info] & -> & _).
Qed.

(** X22.  The flattened sequence of an Aspect is its own Properties, each
    with no parent, its segment as path and no array-element flag, followed
    by copies only: each further Property is the copy of a Property of the
    Entity that the characteristic of some Property of the sequence
    resolves to, with that Property's local name as parent, its path, a dot
    and the own segment as path, and its collection flag as array-element
    flag. *)
Theorem flattened_sequence_is_made_of_copies (g : Graph) (fuel : nat)
    (aspect_uri : Node) (aspect : SAMMAspect) :
  _parse_aspect fuel g aspect_uri = Some aspect →
  ∃ nested,
    a_properties aspect
    = (set_top_level_path <$> parse_properties g aspect_uri) ++ nested
    ∧ Forall at_top_level (set_top_level_path <$> parse_properties g aspect_uri)
    ∧ Forall (λ prop, ∃ parent,
                parent ∈ a_properties aspect ∧ copied_below g parent prop)
             nested.
Proof.
  intros (_ & _ & blocks & Hall & Hblocks)%parse_aspect_blocks.
  exists (mjoin blocks). split; [done | split].
  - apply Forall_forall. intros prop. apply top_level_shape.
  - apply Forall_forall. intros prop Hprop. rewrite Hall.
    destruct (Forall2_mjoin_block _ _ _ _ Hblocks Hprop)
      as (top_prop & block & Hin & Hblock & Hpb & Hsub).
    pose proof (top_level_shape _ _ _ Hin) as (_ & Hpath & _).
    unfold appended_for in Hblock.
    destruct (entity_of_property g top_prop) as [eu|] eqn:Hent;
      [| subst block; by apply elem_of_nil in Hpb].
    destruct Hblock as (u & Hu & Hrun).
    apply extract_copies in Hrun. rewrite Forall_forall in Hrun.
    destruct (Hrun prop Hpb) as [(ep & Hep & ->) | (parent & Hparent & Hcopy)].
    + exists top_prop. split; [apply elem_of_app; by left |].
      exists eu, u, ep. repeat split; try done.
      unfold copy_below. by rewrite Hpath.
    + exists parent. split; [| done]. apply elem_of_app. right. by apply Hsub.
Qed.

Lemma flattened_sequence_is_made_of_copies_witness :
  ∃ aspect nested,
    _parse_aspect 2 Examples.order_graph (URIRef (Examples.ex "Order")) = Some aspect
    ∧ a_properties aspect
      = (set_top_level_path
           <$> parse_properties Examples.order_graph (URIRef (Examples.ex "Order")))
        ++ nested
    ∧ Forall at_top_level
             (set_top_level_path
                <$> parse_properties Examples.order_graph
                                     (URIRef (Examples.ex "Order")))
    ∧ Forall (λ prop, ∃ parent,
                parent ∈ a_properties aspect
                ∧ copied_below Examples.order_graph parent prop)
             nested.
Proof.
  eexists.
  destruct (flattened_sequence_is_made_of_copies Examples.order_graph 2
              (URIRef (Examples.ex "Order")) _ eq_refl) as (nested & Hnested).
  exists nested. split; [reflexivity | exact Hnested].
Defined.

(** X23.  The flattened sequence is closed under copying: with each of its
    Properties whose characteristic resolves to an Entity it holds the copy
    of every Property of that Entity. *)
Theorem flattened_sequence_is_closed (g : Graph) (fuel : nat)
    (aspect_uri : Node) (aspect : SAMMAspect) (parent : SAMMProperty)
    (entity_uri : Node) :
  _parse_aspect fuel g aspect_uri = Some aspect →
  parent ∈ a_properties aspect →
  entity_of_property g parent = Some entity_uri →
  ∃ u, Parser.str u = Parser.str entity_uri
       ∧ Forall (λ entity_prop, copy_below parent entity_prop ∈ a_properties aspect)
                (parse_properties g u).
Proof.
  intros (_ & _ & blocks & Hall & Hblocks)%parse_aspect_blocks Hparent Hent.
  rewrite Hall in Hparent |- *. apply elem_of_app in Hparent as [Htop | Hnested].
  - destruct (Forall2_block_of _ _ _ _ Hblocks Htop) as (block & Hblock & Hsub).
    pose proof (top_level_shape _ _ _ Htop) as (_ & Hpath & _).
    unfold appended_for in Hblock. rewrite Hent in Hblock.
    destruct Hblock as (u & Hu & Hrun).
    exists u. split; [done |]. apply Forall_forall. intros ep Hep.
    apply elem_of_app. right. apply Hsub.
    apply extract_closed in Hrun as [Hfirst _].
    unfold copy_below. rewrite Hpath. by apply Hfirst.
  - destruct (Forall2_mjoin_block _ _ _ _ Hblocks Hnested)
      as (top_prop & block & Hin & Hblock & Hpb & Hsub).
    unfold appended_for in Hblock.
    destruct (entity_of_property g top_prop) as [eu|];
      [| subst block; by apply elem_of_nil in Hpb].
    destruct Hblock as (u & Hu & Hrun).
    apply extract_closed in Hrun as [_ Hrest].
    exists entity_uri. split; [done |]. apply Forall_forall. intros ep Hep.
    apply elem_of_app. right. apply Hsub. by eapply Hrest.
Qed.

Lemma flattened_sequence_is_closed_witness :
  ∃ aspect u,
    _parse_aspect 2 Examples.order_graph (URIRef (Examples.ex "Order")) = Some aspect
    ∧ Parser.str u = Examples.ex "Item"
    ∧ Forall (λ entity_prop,
                copy_below
                  (set_top_level_path
                     (_parse_property Examples.order_graph
                        (URIRef (Examples.ex "items")) no_info))
                  entity_prop ∈ a_properties aspect)
             (parse_properties Examples.order_graph u).
Proof.
  eexists.
  destruct (flattened_sequence_is_closed Examples.order_graph 2
              (URIRef (Examples.ex "Order")) _
              (set_top_level_path
                 (_parse_property Examples.order_graph
                    (URIRef (Examples.ex "items")) no_info))
              (URIRef (Examples.ex "Item")) eq_refl)
    as (u & Hu & Hall).
  - vm_compute. apply list_elem_of_here.
  - reflexivity.
  - exists u. split; [reflexivity | split; [exact Hu | exact Hall]].
Defined.

(** X24.  [aspect.entities] has a key exactly for the Entities that the
    Aspect's own Properties refer to, and under each key the parse of an
    Entity of that URI text: an Entity reached through nested Properties
    only is not recorded. *)
Theorem entities_are_those_of_top_level_properties (g : Graph) (fuel : nat)
    (aspect_uri : Node) (aspect : SAMMAspect) :
  _parse_aspect fuel g aspect_uri = Some aspect →
  (∀ key, is_Some (dict_get key (a_entities aspect))
          ↔ ∃ prop entity_uri,
              prop ∈ parse_properties g aspect_uri
              ∧ entity_of_property g prop = Some entity_uri
              ∧ Parser.str entity_uri = key)
  ∧ ∀ key entity,
      dict_get key (a_entities aspect) = Some entity →
      ∃ u, entity = _parse_entity g u ∧ e_uri entity = key.
Proof.
  intros (Hcache & Hkeys & _)%parse_aspect_blocks. split.
  - intros key. rewrite Hkeys. split.
    + intros (prop & eu & (p & -> & Hin)%list_elem_of_fmap & Hent & Hkey).
      rewrite entity_of_set_top_level_path in Hent. by exists p, eu.
    + intros (p & eu & Hin & Hent & Hkey).
      exists (set_top_level_path p), eu.
      rewrite entity_of_set_top_level_path.
      split; [| done]. apply list_elem_of_fmap. by exists p.
  - intros key entity Hget.
    destruct (keyed_cache_get _ _ _ _ Hcache Hget) as (u & -> & Hu).
    by exists u.
Qed.

Lemma entities_are_those_of_top_level_properties_witness :
  ∃ aspect,
    _parse_aspect 2 Examples.order_graph (URIRef (Examples.ex "Order")) = Some aspect
    ∧ dict_get (Examples.ex "Detail") (a_entities aspect) = None.
Proof.
  eexists. split; [reflexivity |].
  destruct (entities_are_those_of_top_level_properties Examples.order_graph 2
              (URIRef (Examples.ex "Order")) _ eq_refl) as [Hkeys _].
  destruct (dict_get (Examples.ex "Detail") _) as [entity|] eqn:Hget; [| done].
  exfalso.
  destruct (proj1 (Hkeys (Examples.ex "Detail")) (mk_is_Some _ _ Hget))
    as (prop & eu & Hin & Hent & Hkey).
  vm_compute in Hin. apply list_elem_of_singleton in Hin. subst prop.
  vm_compute in Hent. simplify_eq.
Defined.

(** X25.  The local name of [namespace#name] is [name] when [name] holds no
    hash; that of [namespace/name] is [name] when the whole holds no hash
    and [name] no slash; and a text with neither is its own local name. *)
Theorem local_name_of_namespaced_uri (namespace name : string) :
  (contains "#" name = false →
   _get_local_name (URIRef (namespace +:+ "#" +:+ name)) = name)
  ∧ (contains "#" (namespace +:+ "/" +:+ name) = false →
     contains "/" name = false →
     _get_local_name (URIRef (namespace +:+ "/" +:+ name)) = name)
  ∧ (contains "#" name = false → contains "/" name = false →
     _get_local_name (URIRef name) = name).
Proof.
  unfold _get_local_name, fragment_name. simpl. repeat split.
  - intros Hname.
    change (namespace +:+ "#" +:+ name) with (namespace +:+ String "#" name).
    rewrite (contains_separator "#"). by rewrite last_part_after_separator.
  - intros Hhash Hname. rewrite Hhash.
    change (namespace +:+ "/" +:+ name) with (namespace +:+ String "/" name).
    rewrite (contains_separator "/"). by rewrite last_part_after_separator.
  - intros Hhash Hslash. by rewrite Hhash, Hslash.
Qed.

Lemma local_name_of_namespaced_uri_witness :
  _get_local_name (URIRef ("urn:samm:io.example:1.0.0" +:+ "#" +:+ "street"))
  = "street"
  ∧ _get_local_name (URIRef ("http://example.org/terms" +:+ "/" +:+ "street"))
    = "street".
Proof.
  split.
  - apply (proj1 (local_name_of_namespaced_uri "urn:samm:io.example:1.0.0" "street")).
    reflexivity.
  - apply (proj1 (proj2 (local_name_of_namespaced_uri
                           "http://example.org/terms" "street"))); reflexivity.
Defined.

(** ** The applier *)

Lemma split_dot_free (s : string) : dot_free s = true → split "." s = [s].
Proof.
  induction s as [|c r IH]; [done |]. simpl.
  intros [Hc Hr]%andb_true_iff. apply negb_true_iff, Ascii.eqb_neq in Hc.
  rewrite decide_False by done. by rewrite IH.
Qed.

Lemma split_app_dot (a b : string) :
  dot_free a = true → split "." (a +:+ "." +:+ b) = a :: split "." b.
Proof.
  induction a as [|c a IH]; [done |]. simpl.
  intros [Hc Ha]%andb_true_iff. apply negb_true_iff, Ascii.eqb_neq in Hc.
  change (String c a +:+ "." +:+ b) with (String c (a +:+ "." +:+ b)). simpl.
  rewrite decide_False by done. by rewrite IH.
Qed.

Lemma split_join (keys : list string) :
  keys ≠ [] → Forall (λ key, dot_free key = true) keys →
  split "." (join "." keys) = keys.
Proof.
  induction keys as [|key [|key' keys] IH]; [done | |]; intros _.
  - intros [Hkey _]%Forall_cons. by apply split_dot_free.
  - intros [Hkey Hkeys]%Forall_cons.
    change (join "." (key :: key' :: keys)) with (key +:+ "." +:+ join "." (key' :: keys)).
    rewrite split_app_dot by done. by rewrite IH.
Qed.

Lemma dot_free_app (a b : string) : dot_free (a +:+ b) = dot_free a && dot_free b.
Proof.
  induction a as [|c a IH]; [done |].
  change (String c a +:+ b) with (String c (a +:+ b)). simpl.
  by rewrite IH, andb_assoc.
Qed.

Section ApplierLemmas.
Context (int_of : string → option Z).

Lemma navigate_plain :
  ∀ keys data v,
    Forall plain keys → get_value data keys = Some v →
    navigate int_of data keys = v.
Proof.
  induction keys as [|key keys IH]; intros data v; simpl.
  - intros _ ?. by simplify_eq.
  - intros [[_ Hkey] Hkeys]%Forall_cons. rewrite Hkey.
    destruct data as [| | | | |entries]; try done.
    destruct (dict_get key entries) as [child|]; [| done]. by apply IH.
Qed.

Lemma evaluate_path_navigates data (path : string) :
  evaluate_path int_of data ("$." +:+ path) = navigate int_of data (split "." path).
Proof.
  unfold evaluate_path.
  assert (Hprefix : String.prefix "$." ("$." +:+ path) = true) by (by destruct path).
  by rewrite Hprefix.
Qed.

Lemma descend_get_value :
  ∀ keys item, descend item keys = default VNull (get_value item keys).
Proof.
  induction keys as [|key keys IH]; intros item; simpl; [done |].
  destruct item as [| | | | |entries]; try done.
  destruct (dict_get key entries) as [child|]; [| done]. apply IH.
Qed.

Lemma map_over_found items keys :
  map_over items keys
  = match omap (found_in keys) items with
    | [] => VNull
    | found => VList found
    end.
Proof.
  unfold map_over. cbv zeta.
  assert (H : List.filter (λ v, negb (is_null v))
                (map (λ item, descend item keys) items)
              = omap (found_in keys) items);
    [| rewrite H; by destruct (omap (found_in keys) items)].
  induction items as [|item items IH]; [done |]. simpl.
  rewrite descend_get_value, IH. unfold found_in.
  by destruct (get_value item keys) as [[]|].
Qed.

Lemma process_value_get data :
  ∀ keys doc v,
    get_value doc keys = Some v →
    get_value (process_value int_of data doc) keys
    = Some (process_value int_of data v).
Proof.
  induction keys as [|key keys IH]; intros doc v; simpl.
  - intros ?. by simplify_eq.
  - destruct doc as [| | | | |entries]; try done. simpl.
    destruct (dict_get key entries) as [child|] eqn:Hget; [| done].
    intros Hrest.
    assert (Hkey : dict_get key
              ((fix each (entries : list (string * Value)) : list (string * Value) :=
                  match entries with
                  | [] => []
                  | (k, v) :: r => (k, process_value int_of data v) :: each r
                  end) entries)
            = Some (process_value int_of data child)).
    { clear Hrest. induction entries as [|[k x] entries IHe]; simpl in *; [done |].
      destruct (decide (key = k)); [by simplify_eq | by apply IHe]. }
    rewrite Hkey. by apply IH.
Qed.
End ApplierLemmas.

Lemma get_path_value :
  ∀ keys doc j,
    get_path doc keys = Some j →
    get_value (value_of_json doc) keys = Some (value_of_json j).
Proof.
  induction keys as [|key keys IH]; intros doc j; simpl.
  - intros ?. by simplify_eq.
  - destruct doc as [s|entries]; [done |]. simpl.
    destruct (dict_get key entries) as [child|] eqn:Hget; [| done].
    intros Hrest.
    assert (Hkey : dict_get key
              ((fix each (entries : list (string * Json)) : list (string * Value) :=
                  match entries with
                  | [] => []
                  | (k, v) :: r => (k, value_of_json v) :: each r
                  end) entries)
            = Some (value_of_json child)).
    { clear Hrest. induction entries as [|[k x] entries IHe]; simpl in *; [done |].
      destruct (decide (key = k)); [by simplify_eq | by apply IHe]. }
    rewrite Hkey. by apply IH.
Qed.

Lemma single_mapping_document (mapping : PropertyMapping) :
  get_path (JDict (build_complete_transformation [mapping]).1)
           (split "." (target_path_of mapping))
  = Some (JStr (jsonata_fragment mapping)).
Proof.
  unfold build_complete_transformation. cbn [foldl].
  unfold assemble_step, _set_nested_path. cbn [fst snd].
  rewrite set_nested_keys_fresh. simpl.
  assert (Hnest : ∀ inner final value,
            get_path (JDict (nest inner final value)) (inner ++ [final]) = Some value).
  { intros inner final value. induction inner as [|key rest IH]; simpl.
    - by rewrite decide_True.
    - by rewrite decide_True. }
  pose proof (Hnest (init_parts (split "." (target_path_of mapping)))
                    (last_part (split "." (target_path_of mapping)))
                    (JStr (jsonata_fragment mapping))) as Hread.
  by rewrite split_init_last in Hread.
Qed.

Lemma cast_function_names (target_type cast_function : string) :
  TYPE_CAST_MAP !! target_type = Some cast_function →
  cast_function ∈ ["$string"; "$number"; "$boolean"].
Proof.
  unfold TYPE_CAST_MAP. intros Hin%elem_of_list_to_map_2.
  rewrite !elem_of_cons, elem_of_nil in Hin.
  rewrite !elem_of_cons.
  destruct Hin as [H|[H|[H|[H|[H|[H|[H|[H|[H|[]]]]]]]]]]; simplify_eq; auto.
Qed.

Lemma generated_fragment_cases source_prop target_prop kind :
  let fragment := (_generate_jsonata_expression source_prop target_prop kind).1 in
  let base_expr := base_expr_of source_prop target_prop in
  fragment = base_expr
  ∨ (∃ cast_function,
       cast_function ∈ ["$string"; "$number"; "$boolean"]
       ∧ fragment = cast_function +:+ "(" +:+ base_expr +:+ ")")
  ∨ fragment = "[" +:+ base_expr +:+ "]".
Proof.
  simpl. unfold _generate_jsonata_expression. cbv zeta.
  destruct (String.eqb kind "direct"); [by left |].
  destruct (String.eqb kind "type_cast").
  - destruct (TYPE_CAST_MAP !! _normalize_type (text (data_type target_prop)))
      as [cast_function|] eqn:Hcast; [| by left].
    destruct (String.eqb cast_function ""); [by left |].
    right. left. exists cast_function. split; [| done].
    by eapply cast_function_names.
  - destruct (String.eqb kind "structure_transform"); [| by left].
    destruct (is_array_element source_prop && negb (is_array_element target_prop));
      [by left |].
    destruct (negb (is_array_element source_prop) && is_array_element target_prop);
      [by right; right | by left].
Qed.

(** X26.  The applier evaluates access expressions only.  When the fragment
    of a mapping made by [create_mapping] is not the plain access
    expression, that is when it is a cast such as [$number($.x)] or a
    wrapping [[$.x]], [evaluate_path] puts the text of the fragment itself
    in the output, whatever the data. *)
Theorem cast_and_wrap_fragments_are_copied_as_text (int_of : string → option Z)
    (source_prop target_prop : SAMMProperty) (method : string) (conf : Q)
    (data : Value) :
  let mapping := (create_mapping source_prop target_prop method conf).1 in
  jsonata_fragment mapping ≠ base_expr_of source_prop target_prop →
  evaluate_path int_of data (jsonata_fragment mapping)
  = VStr (jsonata_fragment mapping).
Proof.
  simpl. unfold create_mapping.
  destruct (_determine_transformation_type source_prop target_prop) as [kind log1].
  pose proof (generated_fragment_cases source_prop target_prop kind) as Hcases.
  destruct (_generate_jsonata_expression source_prop target_prop kind)
    as [fragment log2].
  simpl in *. intros Hne.
  destruct Hcases as [-> | [(cast_function & Hin & ->) | ->]];
    [done | | reflexivity].
  rewrite !elem_of_cons, elem_of_nil in Hin.
  destruct Hin as [-> | [-> | [-> | []]]]; reflexivity.
Qed.

Lemma cast_and_wrap_fragments_are_copied_as_text_witness :
  evaluate_path int_of_digits order_data
    (jsonata_fragment
       (create_mapping Examples.quantity_nonneg Examples.quantity_source
                       "property_uri_match" (7 # 10)).1)
  = VStr "$string($.quantity)".
Proof.
  apply (cast_and_wrap_fragments_are_copied_as_text int_of_digits
           Examples.quantity_nonneg Examples.quantity_source
           "property_uri_match" (7 # 10) order_data).
  vm_compute. discriminate.
Defined.

(** X27.  An access expression made of plain keys reads the data as a
    nested dictionary: when the data holds [v] under the keys,
    [evaluate_path] returns [v]. *)
Theorem plain_path_reads_nested_dictionaries (int_of : string → option Z)
    (data : Value) (keys : list string) (v : Value) :
  keys ≠ [] →
  Forall plain keys →
  get_value data keys = Some v →
  evaluate_path int_of data ("$." +:+ join "." keys) = v.
Proof.
  intros Hne Hkeys Hget. rewrite evaluate_path_navigates, split_join.
  - by apply navigate_plain.
  - done.
  - eapply Forall_impl; [exact Hkeys |]. by intros key [Hdot _].
Qed.

Lemma plain_path_reads_nested_dictionaries_witness :
  evaluate_path int_of_digits order_data ("$." +:+ join "." ["customer"; "name"])
  = VStr "Ada".
Proof.
  apply plain_path_reads_nested_dictionaries.
  - discriminate.
  - repeat constructor.
  - reflexivity.
Defined.

(** X28.  End to end for one mapping: when the fragment is an access
    expression of plain keys under which the data holds [v], the output of
    the applier on the document assembled from the mapping holds [v] at the
    mapping's target path. *)
Theorem single_mapping_moves_the_value (int_of : string → option Z)
    (mapping : PropertyMapping) (data : Value) (source_keys : list string)
    (v : Value) :
  source_keys ≠ [] →
  Forall plain source_keys →
  jsonata_fragment mapping = "$." +:+ join "." source_keys →
  get_value data source_keys = Some v →
  get_value
    (apply_transformation_manually int_of data
       (value_of_json (JDict (build_complete_transformation [mapping]).1)))
    (split "." (target_path_of mapping))
  = Some v.
Proof.
  intros Hne Hkeys Hfragment Hget. unfold apply_transformation_manually.
  pose proof (single_mapping_document mapping) as Hdoc.
  apply get_path_value in Hdoc.
  rewrite (process_value_get int_of data _ _ _ Hdoc). simpl.
  rewrite Hfragment, evaluate_path_navigates, split_join.
  - f_equal. by apply navigate_plain.
  - done.
  - eapply Forall_impl; [exact Hkeys |]. by intros key [Hdot _].
Qed.

Lemma single_mapping_moves_the_value_witness :
  get_value
    (apply_transformation_manually int_of_digits
       (VDict [("y", VNum "12")])
       (value_of_json
          (JDict (build_complete_transformation [Examples.mapping_a_b]).1)))
    (split "." (target_path_of Examples.mapping_a_b))
  = Some (VNum "12").
Proof.
  apply (single_mapping_moves_the_value int_of_digits Examples.mapping_a_b
           (VDict [("y", VNum "12")]) ["y"]).
  - discriminate.
  - repeat constructor.
  - reflexivity.
  - reflexivity.
Defined.

Lemma before_app (c : ascii) (a b : string) :
  contains (String c "") a = false → before c (a +:+ String c b) = a.
Proof.
  induction a as [|x a IH].
  - intros _. change ("" +:+ String c b) with (String c b). simpl.
    by rewrite decide_True.
  - rewrite contains_char_cons. intros [Hx Ha]%orb_false_iff.
    apply bool_decide_eq_false in Hx.
    change (String x a +:+ String c b) with (String x (a +:+ String c b)). simpl.
    rewrite decide_False by congruence. by rewrite IH.
Qed.

Lemma after_app (c : ascii) (a b : string) :
  contains (String c "") a = false → after c (a +:+ String c b) = b.
Proof.
  induction a as [|x a IH].
  - intros _. change ("" +:+ String c b) with (String c b). simpl.
    by rewrite decide_True.
  - rewrite contains_char_cons. intros [Hx Ha]%orb_false_iff.
    apply bool_decide_eq_false in Hx.
    change (String x a +:+ String c b) with (String x (a +:+ String c b)). simpl.
    rewrite decide_False by congruence. by rewrite IH.
Qed.

Section IndexedLemmas.
Context (int_of : string → option Z).

Lemma navigate_cons current part rest :
  navigate int_of current (part :: rest)
  = if contains "[" part && contains "]" part then
      match int_of (index_text part) with
      | Some index =>
          match current with
          | VDict entries =>
              match dict_get (before "[" part) entries with
              | Some (VList items) =>
                  if (0 <=? index)%Z && (index <? Z.of_nat (length items))%Z then
                    match items !! Z.to_nat index with
                    | Some element => navigate int_of element rest
                    | None => VNull
                    end
                  else VNull
              | _ => VNull
              end
          | _ => VNull
          end
      | None => VNull
      end
    else
      match current with
      | VDict entries =>
          match dict_get part entries with
          | Some v => navigate int_of v rest
          | None => VNull
          end
      | VList items => map_over items (part :: rest)
      | _ => VNull
      end.
Proof. reflexivity. Qed.

Lemma indexed_part (parent index_str : string) :
  bracket_free parent → contains "]" index_str = false →
  let part := parent +:+ "[" +:+ index_str +:+ "]" in
  contains "[" part && contains "]" part = true
  ∧ before "[" part = parent
  ∧ index_text part = index_str.
Proof.
  intros (_ & Hopen & Hclose) Hindex. cbv zeta.
  change (parent +:+ "[" +:+ index_str +:+ "]")
    with (parent +:+ String "[" (index_str +:+ "]")).
  assert (Hbefore : before "[" (parent +:+ String "[" (index_str +:+ "]")) = parent)
    by (by apply before_app).
  repeat split.
  - rewrite (contains_separator "["). simpl.
    assert (Hassoc : parent +:+ String "[" (index_str +:+ "]")
                     = (parent +:+ String "[" index_str) +:+ String "]" "").
    { change (String "[" (index_str +:+ "]")) with (String "[" index_str +:+ "]").
      by rewrite string_app_assoc. }
    rewrite Hassoc. apply (contains_separator "]").
  - done.
  - unfold index_text. rewrite Hbefore, Hclose.
    rewrite after_app by done.
    change (index_str +:+ "]") with (index_str +:+ String "]" "").
    by apply before_app.
Qed.
End IndexedLemmas.

(** X29.  An indexed segment selects one element.  When the data holds a
    list under [parent], [int] reads the text between the brackets as the
    position [i] and the list has an element there, the path
    [$.parent[i].keys] yields what that element holds under the plain keys
    that follow.  The marker [[0]] the planner inserts is such a segment. *)
Theorem indexed_segment_selects_the_element (int_of : string → option Z)
    (entries : list (string * Value)) (parent index_str : string) (i : nat)
    (items : list Value) (element : Value) (keys : list string) (v : Value) :
  bracket_free parent →
  dot_free index_str = true →
  contains "]" index_str = false →
  int_of index_str = Some (Z.of_nat i) →
  dict_get parent entries = Some (VList items) →
  items !! i = Some element →
  Forall plain keys →
  get_value element keys = Some v →
  evaluate_path int_of (VDict entries)
    ("$." +:+ join "." ((parent +:+ "[" +:+ index_str +:+ "]") :: keys))
  = v.
Proof.
  intros Hparent Hdots Hclose Hint Hget Hitem Hkeys Hv.
  rewrite evaluate_path_navigates, split_join; [| done |].
  - rewrite navigate_cons.
    destruct (indexed_part parent index_str Hparent Hclose) as (-> & -> & ->).
    rewrite Hint, Hget.
    pose proof (lookup_lt_Some _ _ _ Hitem) as Hlt.
    assert (Hrange : (0 <=? Z.of_nat i)%Z && (Z.of_nat i <? Z.of_nat (length items))%Z
                     = true).
    { apply andb_true_iff. split; [apply Z.leb_le | apply Z.ltb_lt]; lia. }
    rewrite Hrange, Nat2Z.id, Hitem. by apply navigate_plain.
  - constructor.
    + destruct Hparent as (Hdot & _).
      change (parent +:+ "[" +:+ index_str +:+ "]")
        with (parent +:+ String "[" (index_str +:+ "]")).
      rewrite dot_free_app, Hdot. simpl. by rewrite dot_free_app, Hdots.
    + eapply Forall_impl; [exact Hkeys |]. by intros key [Hdot _].
Qed.

Lemma indexed_segment_selects_the_element_witness :
  evaluate_path int_of_digits order_data
    ("$." +:+ join "." [("lines" +:+ "[" +:+ "1" +:+ "]"); "sku"])
  = VStr "B-7".
Proof.
  apply (indexed_segment_selects_the_element int_of_digits
           [ ("customer", VDict [("name", VStr "Ada")]);
             ("lines", VList [ VDict [("sku", VStr "A-1"); ("qty", VNum "2")];
                               VDict [("sku", VStr "B-7")] ]) ]
           "lines" "1" 1
           [ VDict [("sku", VStr "A-1"); ("qty", VNum "2")];
             VDict [("sku", VStr "B-7")] ]
           (VDict [("sku", VStr "B-7")]) ["sku"] (VStr "B-7")).
  - by repeat split.
  - reflexivity.
  - reflexivity.
  - reflexivity.
  - reflexivity.
  - reflexivity.
  - repeat constructor.
  - reflexivity.
Defined.

(** X30.  A path that runs into a list is followed in every element: when
    the data holds a list under the plain key [parent], the path
    [$.parent.keys] yields the list of what the elements hold under the
    keys, in order, without the elements that hold nothing or [None] there;
    and [None], not the empty list, when no element is left. *)
Theorem path_through_a_list_collects (int_of : string → option Z)
    (entries : list (string * Value)) (parent : string) (items : list Value)
    (keys : list string) :
  plain parent →
  keys ≠ [] →
  Forall plain keys →
  dict_get parent entries = Some (VList items) →
  evaluate_path int_of (VDict entries) ("$." +:+ join "." (parent :: keys))
  = match omap (found_in keys) items with
    | [] => VNull
    | found => VList found
    end.
Proof.
  intros [Hdot Hparent] Hne Hkeys Hget.
  rewrite evaluate_path_navigates, split_join; [| done |].
  - rewrite navigate_cons, Hparent, Hget.
    destruct keys as [|key keys]; [done |].
    apply Forall_cons in Hkeys as [[_ Hkey] _].
    rewrite navigate_cons, Hkey. apply map_over_found.
  - constructor; [done |].
    eapply Forall_impl; [exact Hkeys |]. by intros key [Hd _].
Qed.

Lemma path_through_a_list_collects_witness :
  evaluate_path int_of_digits order_data ("$." +:+ join "." ["lines"; "qty"])
  = VList [VNum "2"].
Proof.
  apply (path_through_a_list_collects int_of_digits
           [ ("customer", VDict [("name", VStr "Ada")]);
             ("lines", VList [ VDict [("sku", VStr "A-1"); ("qty", VNum "2")];
                               VDict [("sku", VStr "B-7")] ]) ]
           "lines"
           [ VDict [("sku", VStr "A-1"); ("qty", VNum "2")];
             VDict [("sku", VStr "B-7")] ]
           ["qty"]).
  - by split.
  - discriminate.
  - repeat constructor.
  - reflexivity.
Defined.
